(** * Nuvia backend: the event-to-XP pipeline, the XP ledger and the
      referral state machine

    A shallow embedding of the core of the nuvia-backend repository
    (models/XPLedger.js, models/XPRule.js, models/Referral.js,
    services/xp.service.js, services/web3.service.js and
    utils/contractRegistry.js) together with the properties its
    specification states about it.

    Conventions of the embedding.
    - MongoDB collections are components of a [Store]; documents are
      records, [ObjectId]s are natural numbers.
    - An [async] function is a computation in the monad [M]: it threads
      the store and either returns a value or throws an [Error].  A throw
      keeps the writes made before it, as the database does.
    - XP amounts are JavaScript numbers that hold integers; they are
      modelled as [Z] (no rounding happens below 2^53).
    - Time is the number of milliseconds since the epoch, as [Date.now()]
      and [Date.prototype.getTime()] give it. *)

From Stdlib Require Import ZArith List Bool Lia Ascii.
From Stdlib Require Import DecimalString.
From Stdlib Require Import Floats.SpecFloat.
From stdpp Require Import base option list gmap strings.
From stdpp Require Import sorting.

Open Scope string_scope.
Open Scope Z_scope.
Open Scope list_scope.

(** ** Errors and the store/exception monad *)

(** A JavaScript [Error]: its message and, for driver errors, a numeric
    [code] (11000 is MongoDB's unique-index violation). *)
Record Error := mkError { message : string; code : option Z }.

(** [new Error(msg)] *)
Definition new_Error (msg : string) : Error := mkError msg None.

(** [error.code === c] *)
Definition has_code (e : Error) (c : Z) : bool :=
  match code e with
  | Some c' => c' =? c
  | None => false
  end.

Inductive Outcome (A : Type) : Type :=
| Return (a : A)
| Throw (e : Error).
Arguments Return {A} a.
Arguments Throw {A} e.

Definition ObjectId := nat.

(** *** Documents *)

Record User := mkUser {
  totalXP : Z;
  firstLoginAt : option Z
}.

(** The [metadata] object of a submitted event, with the fields the
    pipeline reads.  A missing field is [None]. *)
Record Metadata := mkMetadata {
  txHash : option string;
  chainId : option Z;
  contractAddress : option string;
  tokenSymbol : option string;
  amount : option string;
  protocol : option string;
  eventType : option string
}.

Inductive EventStatus := st_recorded | st_verified | st_processed | st_failed.

(** Modelled from the spec: the Event document (models/Event.js is not part
    of the sources).  "One row per submitted action attempt. Attributes: user
    reference, action type, arbitrary metadata, a deduplication key (explicit
    or derived), and a status enum {recorded, verified, processed, failed}."
    [occurredAt] is the field the rule checks query. *)
Record Event := mkEvent {
  event_id : ObjectId;
  event_userId : ObjectId;
  event_type : string;
  event_metadata : Metadata;
  event_dedupKey : string;
  event_status : EventStatus;
  event_failReason : option string;
  event_occurredAt : Z
}.

Record XPRule := mkRule {
  actionType : string;
  xpAmount : Z;
  dailyLimit : option Z;
  minAmount : option string;
  validChains : list Z;
  validProtocols : list string;
  cooldownMinutes : Z;
  isActive : bool
}.

(** The [metadata] sub-document of a ledger entry. *)
Record LedgerMeta := mkLedgerMeta {
  lm_eventId : option ObjectId;
  lm_referralId : option ObjectId
}.

Record LedgerEntry := mkEntry {
  entry_id : ObjectId;
  userId : ObjectId;
  eventId : option ObjectId;
  deltaXP : Z;
  balanceAfter : Z;
  reason : string;
  description : string;
  metadata : LedgerMeta
}.

Inductive ReferralStatus := ref_pending | ref_verified | ref_rewarded | ref_rejected.

(** [verificationCriteria] of a referral. *)
Record Criteria := mkCriteria {
  firstLogin : bool;
  firstOnchainAction : bool;
  minXPReached : bool;
  minXPThreshold : Z
}.

Record Referral := mkReferral {
  referral_id : ObjectId;
  inviterUserId : ObjectId;
  inviteeUserId : ObjectId;
  referralCode : string;
  status : ReferralStatus;
  verificationCriteria : Criteria;
  rewardDistributed_inviterXP : Z;
  rewardDistributed_inviteeXP : Z;
  verifiedAt : option Z;
  rewardedAt : option Z
}.

Inductive Cadence := daily | weekly | one_time.

(** Modelled from the spec: Quest and QuestProgress (models/Quest.js and
    models/QuestProgress.js are not part of the sources).  "Quest defines a
    cadence, a completion rule (event-count against a specific action type,
    with a target count). QuestProgress is a per-user-per-period counter with
    progressValue, isCompleted and the period's start/end boundaries." *)
Record Quest := mkQuest {
  quest_id : ObjectId;
  quest_isActive : bool;
  quest_ruleIsEventCount : bool;
  quest_eventType : string;
  quest_targetCount : Z;
  cadence : Cadence
}.

Record QuestProgress := mkProgress {
  qp_userId : ObjectId;
  qp_questId : ObjectId;
  qp_periodStart : option Z;
  qp_periodEnd : option Z;
  progressValue : Z;
  isCompleted : bool
}.

(** *** The store: the durable collections *)

Record Store := mkStore {
  users : gmap ObjectId User;
  events : list Event;
  rules : list XPRule;
  ledger : list LedgerEntry;
  referrals : list Referral;
  quests : list Quest;
  progress : list QuestProgress;
  nextId : ObjectId
}.

Definition set_users (f : gmap ObjectId User → gmap ObjectId User) (s : Store) : Store :=
  mkStore (f (users s)) (events s) (rules s) (ledger s) (referrals s) (quests s) (progress s) (nextId s).
Definition set_rules (f : list XPRule → list XPRule) (s : Store) : Store :=
  mkStore (users s) (events s) (f (rules s)) (ledger s) (referrals s) (quests s) (progress s) (nextId s).
Definition set_events (f : list Event → list Event) (s : Store) : Store :=
  mkStore (users s) (f (events s)) (rules s) (ledger s) (referrals s) (quests s) (progress s) (nextId s).
Definition set_ledger (f : list LedgerEntry → list LedgerEntry) (s : Store) : Store :=
  mkStore (users s) (events s) (rules s) (f (ledger s)) (referrals s) (quests s) (progress s) (nextId s).
Definition set_referrals (f : list Referral → list Referral) (s : Store) : Store :=
  mkStore (users s) (events s) (rules s) (ledger s) (f (referrals s)) (quests s) (progress s) (nextId s).
Definition set_progress (f : list QuestProgress → list QuestProgress) (s : Store) : Store :=
  mkStore (users s) (events s) (rules s) (ledger s) (referrals s) (quests s) (f (progress s)) (nextId s).
Definition bump_nextId (s : Store) : Store :=
  mkStore (users s) (events s) (rules s) (ledger s) (referrals s) (quests s) (progress s) (S (nextId s)).

(** *** The monad *)

Definition M (A : Type) : Type := Store → Outcome A * Store.

Definition ret {A} (a : A) : M A := fun s => (Return a, s).
Definition throw {A} (e : Error) : M A := fun s => (Throw e, s).
Definition bind {A B} (m : M A) (k : A → M B) : M B :=
  fun s => match m s with
           | (Return a, s') => k a s'
           | (Throw e, s') => (Throw e, s')
           end.
(** [try { m } catch (error) { h error }] *)
Definition try_catch {A} (m : M A) (h : Error → M A) : M A :=
  fun s => match m s with
           | (Return a, s') => (Return a, s')
           | (Throw e, s') => h e s'
           end.
Definition get : M Store := fun s => (Return s, s).
Definition modify (f : Store → Store) : M unit := fun s => (Return tt, f s).

Declare Scope js_scope.
Delimit Scope js_scope with js.
Notation "'await' x <- m ;; k" := (bind m (fun x => k))
  (at level 10, x name, m at level 99, k at level 200) : js_scope.
Notation "'await!' m ;; k" := (bind m (fun _ => k))
  (at level 10, m at level 99, k at level 200) : js_scope.
Open Scope js_scope.

(** ** The environment of a request *)

(** The awaited calls to collaborators (database driver, RPC provider). Any
    of them can reject. *)
Inductive Op :=
| OpEventCreate | OpEventSave | OpEventFind | OpEventCount
| OpRuleFind
| OpUserFind | OpUserUpdate | OpLedgerCreate
| OpReceipt
| OpQuestFind | OpProgressGetOrCreate | OpProgressUpdate
| OpReferralFind | OpReferralCreate | OpReferralSave.

Definition Op_eqb (a b : Op) : bool :=
  match a, b with
  | OpEventCreate, OpEventCreate | OpEventSave, OpEventSave
  | OpEventFind, OpEventFind | OpEventCount, OpEventCount
  | OpRuleFind, OpRuleFind | OpUserFind, OpUserFind
  | OpUserUpdate, OpUserUpdate | OpLedgerCreate, OpLedgerCreate
  | OpReceipt, OpReceipt | OpQuestFind, OpQuestFind
  | OpProgressGetOrCreate, OpProgressGetOrCreate
  | OpProgressUpdate, OpProgressUpdate
  | OpReferralFind, OpReferralFind | OpReferralCreate, OpReferralCreate
  | OpReferralSave, OpReferralSave => true
  | _, _ => false
  end.

(** What [provider.getTransactionReceipt] resolves to. *)
Record Receipt := mkReceipt {
  receipt_status : Z;
  receipt_from : string;
  receipt_to : option string
}.

Record Env := mkEnv {
  (** [Date.now()] during the request *)
  now : Z;
  (** local midnight of the day of an instant ([setHours(0,0,0,0)]) *)
  startOfDay : Z → Z;
  (** start and end of the quest period of a cadence at an instant, as
      [updateQuestProgress] computes them with local-time [Date] arithmetic *)
  periodOf : Cadence → Z → option Z * option Z;
  (** a collaborator call that rejects, and the error it rejects with *)
  fault : Op → option Error;
  (** chain ids with a configured RPC provider *)
  providers : list Z;
  (** the chain: transaction hash and chain id to receipt *)
  chain : string → Z → option Receipt;
  (** [ContractRegistry.contracts]: parsed from TESTNET_CONTRACTS *)
  contracts : list (string * option string);
  (** the dedup key [Event.createEvent] derives when none is given *)
  deriveDedupKey : ObjectId → string → Metadata → string
}.

(** An awaited collaborator call: rejects when the environment says so. *)
Definition calling {A} (env : Env) (op : Op) (m : M A) : M A :=
  match fault env op with
  | Some e => throw e
  | None => m
  end.

(** ** models/User.js and models/XPLedger.js *)

(** [User.findById(userId)] *)
Definition User_findById (env : Env) (uid : ObjectId) : M (option User) :=
  calling env OpUserFind (fun s => (Return (users s !! uid), s)).

(** [User.findByIdAndUpdate(userId, { totalXP: balance })]: updates the
    document when it exists, resolves to null otherwise. *)
Definition User_findByIdAndUpdate_totalXP (env : Env) (uid : ObjectId) (balance : Z) : M unit :=
  calling env OpUserUpdate
    (modify (set_users (alter (fun u => mkUser balance (firstLoginAt u)) uid))).

(** The [enum] of the [reason] path of the ledger schema. *)
Definition reason_enum : list string :=
  [ "connect_wallet"; "deposit"; "supply"; "borrow"; "swap"; "claim_faucet";
    "complete_quest"; "referral_reward_inviter"; "referral_reward_invitee";
    "select_strategy"; "admin_adjustment"; "penalty"; "other" ].

Definition in_enum (x : string) (l : list string) : bool :=
  existsb (String.eqb x) l.

(** [XPLedger.create(doc)]: schema validation ([reason] in its enum,
    [balanceAfter] at least 0), then the insert at the end of the
    collection. *)
Definition XPLedger_create (env : Env) (uid : ObjectId) (eid : option ObjectId)
    (delta balance : Z) (rsn desc : string) (meta : LedgerMeta) : M LedgerEntry :=
  calling env OpLedgerCreate
    (if negb (in_enum rsn reason_enum) then
       throw (new_Error ("XPLedger validation failed: reason: `" +:+ rsn +:+
                         "` is not a valid enum value for path `reason`."))
     else if balance <? 0 then
       throw (new_Error "XPLedger validation failed: balanceAfter: Path `balanceAfter` is less than minimum allowed value (0).")
     else
       ((fun s =>
          let entry := mkEntry (nextId s) uid eid delta balance rsn desc meta in
          (Return entry, bump_nextId (set_ledger (fun l => l ++ [entry]) s)))
        : M LedgerEntry)).

(** [xpLedgerSchema.statics.addXP] *)
Definition addXP (env : Env) (uid : ObjectId) (delta : Z) (rsn desc : string)
    (meta : LedgerMeta) (eid : option ObjectId) : M LedgerEntry :=
  await user <- User_findById env uid ;;
  match user with
  | None => throw (new_Error "User not found")
  | Some user =>
      let balance := totalXP user + delta in
      if balance <? 0 then throw (new_Error "Insufficient XP balance")
      else
        await entry <- XPLedger_create env uid eid delta balance rsn desc meta ;;
        await! User_findByIdAndUpdate_totalXP env uid balance ;;
        ret entry
  end.

(** [xpLedgerSchema.statics.calculateTotalXP]: the sum of [deltaXP] over the
    entries of a user. *)
Fixpoint calculateTotalXP (uid : ObjectId) (l : list LedgerEntry) : Z :=
  match l with
  | [] => 0
  | e :: l' => (if Nat.eqb (userId e) uid then deltaXP e else 0) + calculateTotalXP uid l'
  end.

(** ** JavaScript values: truthiness, strings, numbers *)

(** Truthiness of a string-valued field: missing and [""] are falsy. *)
Definition truthy_string (o : option string) : bool :=
  match o with
  | Some s => negb (String.eqb s "")
  | None => false
  end.

(** Truthiness of an integer-valued field: missing and [0] are falsy. *)
Definition truthy_number (o : option Z) : bool :=
  match o with
  | Some n => negb (n =? 0)
  | None => false
  end.

(** A field is present: neither [undefined] nor [null]. *)
Definition present {A} (o : option A) : bool :=
  match o with
  | Some _ => true
  | None => false
  end.

(** [String(n)] for an integer [n]. *)
Definition Number_toString (n : Z) : string := NilZero.string_of_int (Z.to_int n).

(** [String.prototype.includes]: [needle] occurs in [hay]. *)
Fixpoint includes (hay needle : string) : bool :=
  String.prefix needle hay ||
  match hay with
  | EmptyString => false
  | String _ hay' => includes hay' needle
  end.

Definition lower_ascii (c : ascii) : ascii :=
  let n := N_of_ascii c in
  if ((65 <=? n) && (n <=? 90))%N then ascii_of_N (n + 32) else c.

(** [String.prototype.toLowerCase] on ASCII text (addresses are hex). *)
Fixpoint toLowerCase (s : string) : string :=
  match s with
  | EmptyString => EmptyString
  | String c s' => String (lower_ascii c) (toLowerCase s')
  end.

(** *** [parseFloat]

    The longest prefix of the trimmed string that is a StrDecimalLiteral is
    read as an exact decimal [sign * digits * 10^exponent] and rounded to
    the nearest binary64 value (ties to even) with the Standard Library's
    specification of IEEE 754 arithmetic.  Strings are sequences of bytes;
    the white space that is trimmed is the ASCII one. *)

Definition prec : Z := 53.
Definition emax : Z := 1024.

(** A JavaScript number: a binary64 value. *)
Definition Number := spec_float.

Definition digit_of (c : ascii) : option Z :=
  let n := Z.of_N (N_of_ascii c) in
  if (48 <=? n) && (n <=? 57) then Some (n - 48) else None.

(** Reads the decimal digits at the head of [s]: their value after [acc],
    how many there are, and the rest. *)
Fixpoint read_digits (s : string) (acc : Z) (count : nat) : Z * nat * string :=
  match s with
  | String c s' =>
      match digit_of c with
      | Some d => read_digits s' (10 * acc + d) (S count)
      | None => (acc, count, s)
      end
  | EmptyString => (acc, count, s)
  end.

Definition is_whitespace (c : ascii) : bool :=
  let n := N_of_ascii c in
  ((9 <=? n) && (n <=? 13) || (n =? 32))%N.

Fixpoint trimStart (s : string) : string :=
  match s with
  | String c s' => if is_whitespace c then trimStart s' else s
  | EmptyString => s
  end.

(** The numeric literal at the head of a string. *)
Inductive Literal :=
| LitNone
| LitInfinity (negative : bool)
| LitDecimal (negative : bool) (digits : Z) (exponent : Z).

(** ExponentPart: [e] or [E], an optional sign, at least one digit;
    otherwise the literal ends before it. *)
Definition read_exponent (s : string) : Z :=
  match s with
  | String c s1 =>
      if Ascii.eqb c "e" || Ascii.eqb c "E" then
        let '(neg, s2) :=
          match s1 with
          | String "+" s2 => (false, s2)
          | String "-" s2 => (true, s2)
          | _ => (false, s1)
          end in
        let '(v, n, _) := read_digits s2 0 0%nat in
        match n with
        | O => 0
        | _ => if neg then - v else v
        end
      else 0
  | EmptyString => 0
  end.

Definition read_unsigned (neg : bool) (s : string) : Literal :=
  if String.prefix "Infinity" s then LitInfinity neg
  else
    let '(int_v, int_n, s1) := read_digits s 0 0%nat in
    match s1 with
    | String "." s2 =>
        let '(v, frac_n, s3) := read_digits s2 int_v 0%nat in
        match int_n, frac_n with
        | O, O => LitNone
        | _, _ => LitDecimal neg v (read_exponent s3 - Z.of_nat frac_n)
        end
    | _ =>
        match int_n with
        | O => LitNone
        | _ => LitDecimal neg int_v (read_exponent s1)
        end
    end.

Definition read_literal (s : string) : Literal :=
  match trimStart s with
  | String "+" s' => read_unsigned false s'
  | String "-" s' => read_unsigned true s'
  | s' => read_unsigned false s'
  end.

(** The binary64 value nearest to [digits * 10^exponent]. *)
Definition round_decimal (neg : bool) (digits exponent : Z) : Number :=
  match digits with
  | Zpos m =>
      if 0 <=? exponent then
        binary_round prec emax neg (m * Z.to_pos (10 ^ exponent))%positive 0
      else
        let '(q, e, l) := SFdiv_core_binary prec emax (Zpos m) 0 (10 ^ (- exponent)) 0 in
        binary_round_aux prec emax neg q e l
  | _ => S754_zero neg
  end.

Definition parseFloat (s : string) : Number :=
  match read_literal s with
  | LitNone => S754_nan
  | LitInfinity neg => S754_infinity neg
  | LitDecimal neg digits exponent => round_decimal neg digits exponent
  end.

(** [x < y] on numbers. *)
Definition Number_lt (x y : Number) : bool := SFltb x y.

(** The comparison the specification asks for: the two amounts as exact
    decimals.  [None] when one of them is not a finite decimal literal. *)
Definition exact_decimal_lt (a b : string) : option bool :=
  match read_literal a, read_literal b with
  | LitDecimal na da ea, LitDecimal nb db eb =>
      let va := (if na then - da else da) * 10 ^ (ea - Z.min ea eb) in
      let vb := (if nb then - db else db) * 10 ^ (eb - Z.min ea eb) in
      Some (va <? vb)
  | _, _ => None
  end.

(** ** models/Event.js *)

(** The error the driver raises on a unique-index violation of the
    [(userId, dedupKey)] index. *)
Definition duplicate_key_error : Error :=
  mkError "E11000 duplicate key error collection: events index: userId_1_dedupKey_1"
          (Some 11000).

Definition same_submission (uid : ObjectId) (key : string) (e : Event) : bool :=
  Nat.eqb (event_userId e) uid && String.eqb (event_dedupKey e) key.

(** Modelled from the spec: Event.createEvent (models/Event.js is not part of
    the sources).  "Record the Event with its dedup key. If a duplicate key
    exists for this user, abort [...] a uniqueness constraint, not a
    read-then-write race": the insert runs against the unique index on
    (user, dedup key) and rejects with the driver's duplicate-key error; a
    new event starts in status [recorded]. *)
Definition Event_createEvent (env : Env) (uid : ObjectId) (type : string)
    (meta : Metadata) (dedupKey : option string) : M Event :=
  calling env OpEventCreate
    (fun s =>
       let key := match dedupKey with
                  | Some k => k
                  | None => deriveDedupKey env uid type meta
                  end in
       if existsb (same_submission uid key) (events s) then
         (Throw duplicate_key_error, s)
       else
         let ev := mkEvent (nextId s) uid type meta key st_recorded None (now env) in
         (Return ev, bump_nextId (set_events (fun l => l ++ [ev]) s))).

(** [doc.save()] on an event: the stored document with the same [_id] is
    replaced. *)
Definition Event_save (env : Env) (ev : Event) : M unit :=
  calling env OpEventSave
    (modify (set_events
               (map (fun e => if Nat.eqb (event_id e) (event_id ev) then ev else e)))).

Definition with_status (ev : Event) (st : EventStatus) (why : option string) : Event :=
  mkEvent (event_id ev) (event_userId ev) (event_type ev) (event_metadata ev)
          (event_dedupKey ev) st why (event_occurredAt ev).

(** Modelled from the spec: [event.markProcessed()] (models/Event.js is not
    part of the sources) sets the status of the event, which "transitions
    status as the pipeline advances", to [processed] and saves it. *)
Definition markProcessed (env : Env) (ev : Event) : M Event :=
  let ev' := with_status ev st_processed (event_failReason ev) in
  await! Event_save env ev' ;; ret ev'.

(** Modelled from the spec: [event.markVerified()] (models/Event.js is not
    part of the sources) sets the status to [verified] and saves the event. *)
Definition markVerified (env : Env) (ev : Event) : M Event :=
  let ev' := with_status ev st_verified (event_failReason ev) in
  await! Event_save env ev' ;; ret ev'.

(** Modelled from the spec: [event.markFailed(reason)] (models/Event.js is
    not part of the sources) moves "the Event to failed with the specific
    reason" and saves it. *)
Definition markFailed (env : Env) (ev : Event) (why : string) : M Event :=
  let ev' := with_status ev st_failed (Some why) in
  await! Event_save env ev' ;; ret ev'.

(** [status: { $in: ['verified', 'processed'] }] *)
Definition is_success_status (st : EventStatus) : bool :=
  match st with
  | st_verified | st_processed => true
  | _ => false
  end.

(** The filter of both rule checks:
    [{ userId, type, status: {$in: [...]}, occurredAt: {$gte: since} }]. *)
Definition counts_for (uid : ObjectId) (type : string) (since : Z) (e : Event) : bool :=
  Nat.eqb (event_userId e) uid && String.eqb (event_type e) type &&
  is_success_status (event_status e) && (since <=? event_occurredAt e).

(** [.sort({ occurredAt: -1 })] followed by taking the first document. *)
Fixpoint latest (l : list Event) : option Event :=
  match l with
  | [] => None
  | e :: l' =>
      match latest l' with
      | Some e' => if event_occurredAt e <? event_occurredAt e' then Some e' else Some e
      | None => Some e
      end
  end.

Definition Event_findOne_latest (env : Env) (uid : ObjectId) (type : string) (since : Z)
  : M (option Event) :=
  calling env OpEventFind
    (fun s => (Return (latest (List.filter (counts_for uid type since) (events s))), s)).

Definition Event_countDocuments (env : Env) (uid : ObjectId) (type : string) (since : Z)
  : M Z :=
  calling env OpEventCount
    (fun s => (Return (Z.of_nat (length (List.filter (counts_for uid type since) (events s)))), s)).

(** ** models/XPRule.js *)

(** [xpRuleSchema.statics.getRuleByAction]:
    [findOne({ actionType, isActive: true })]. *)
Definition getRuleByAction (env : Env) (type : string) : M (option XPRule) :=
  calling env OpRuleFind
    (fun s => (Return (find (fun r => String.eqb (actionType r) type && isActive r) (rules s)), s)).

(** The result of [validateEvent]: [{ valid: true, rule }] or
    [{ valid: false, reason }]. *)
Inductive Validation :=
| Valid (rule : XPRule)
| Invalid (why : string).

Definition valid (v : Validation) : bool :=
  match v with Valid _ => true | Invalid _ => false end.

Definition includes_number (l : list Z) (o : option Z) : bool :=
  match o with
  | Some n => existsb (Z.eqb n) l
  | None => false
  end.

Definition includes_string (l : list string) (o : option string) : bool :=
  match o with
  | Some x => existsb (String.eqb x) l
  | None => false
  end.

(** The body of [validateEvent] after the rule was found: three guarded
    checks, each returning early when it fails. *)
Definition validate_against (rule : XPRule) (eventMetadata : Metadata) : Validation :=
  let chainCheck :=
    if (0 <? length (validChains rule))%nat && truthy_number (chainId eventMetadata) then
      if negb (includes_number (validChains rule) (chainId eventMetadata))
      then Some (Invalid "Invalid chain ID") else None
    else None in
  let protocolCheck :=
    if (0 <? length (validProtocols rule))%nat && truthy_string (protocol eventMetadata) then
      if negb (includes_string (validProtocols rule) (protocol eventMetadata))
      then Some (Invalid "Invalid protocol") else None
    else None in
  let amountCheck :=
    if truthy_string (minAmount rule) && truthy_string (amount eventMetadata) then
      let minAmount_ := parseFloat (default "" (minAmount rule)) in
      let eventAmount := parseFloat (default "" (amount eventMetadata)) in
      if Number_lt eventAmount minAmount_
      then Some (Invalid ("Minimum amount is " +:+ default "" (minAmount rule))) else None
    else None in
  match chainCheck, protocolCheck, amountCheck with
  | Some r, _, _ => r
  | None, Some r, _ => r
  | None, None, Some r => r
  | None, None, None => Valid rule
  end.

(** [xpRuleSchema.statics.validateEvent] *)
Definition validateEvent (env : Env) (type : string) (eventMetadata : Metadata)
  : M Validation :=
  await rule <- getRuleByAction env type ;;
  match rule with
  | None => ret (Invalid "No active rule found for this action")
  | Some rule => ret (validate_against rule eventMetadata)
  end.

(** The result of [canUserEarnXP]. *)
Record CooldownCheck := mkCooldown {
  canEarn : bool;
  cooldown_reason : option string;
  cooldown_nextAvailableAt : option Z
}.

(** [Math.ceil(ms / 60000)] *)
Definition ceil_minutes (ms : Z) : Z := - ((- ms) / 60000).

(** [xpRuleSchema.methods.canUserEarnXP] *)
Definition canUserEarnXP (env : Env) (this : XPRule) (uid : ObjectId) : M CooldownCheck :=
  if cooldownMinutes this =? 0 then ret (mkCooldown true None None)
  else
    let cooldownMs := cooldownMinutes this * 60 * 1000 in
    let cutoffTime := now env - cooldownMs in
    await recentEvent <- Event_findOne_latest env uid (actionType this) cutoffTime ;;
    match recentEvent with
    | Some recentEvent =>
        let remainingMs := cooldownMs - (now env - event_occurredAt recentEvent) in
        let remainingMinutes := ceil_minutes remainingMs in
        ret (mkCooldown false
               (Some ("Cooldown active. Try again in " +:+ Number_toString remainingMinutes
                      +:+ " minutes."))
               (Some (event_occurredAt recentEvent + cooldownMs)))
    | None => ret (mkCooldown true None None)
    end.

(** The result of [checkDailyLimit]. *)
Record LimitCheck := mkLimit {
  withinLimit : bool;
  limit_reason : option string;
  currentCount : option Z;
  remaining : option Z
}.

(** [xpRuleSchema.methods.checkDailyLimit] *)
Definition checkDailyLimit (env : Env) (this : XPRule) (uid : ObjectId) : M LimitCheck :=
  if negb (truthy_number (dailyLimit this)) then ret (mkLimit true None None None)
  else
    let limit := default 0 (dailyLimit this) in
    await todayCount <- Event_countDocuments env uid (actionType this) (startOfDay env (now env)) ;;
    if limit <=? todayCount then
      ret (mkLimit false (Some ("Daily limit of " +:+ Number_toString limit +:+ " reached"))
             (Some todayCount) None)
    else
      ret (mkLimit true None (Some todayCount) (Some (limit - todayCount))).

(** ** utils/contractRegistry.js *)

(** [this.contracts[key]] *)
Definition contract_at (env : Env) (key : string) : option string :=
  match find (fun kv => String.eqb (fst kv) key) (contracts env) with
  | Some (_, addr) => addr
  | None => None
  end.

Definition getFaucet (env : Env) : option string := contract_at env "faucet".
Definition getVault (env : Env) (token : string) : option string :=
  contract_at env ("vault" +:+ token).
Definition getStrategy (env : Env) (token : string) : option string :=
  contract_at env ("strategy" +:+ token).

(** [ContractRegistry.isNuviaContract] *)
Definition isNuviaContract (env : Env) (address : option string) : bool :=
  if negb (truthy_string address) then false
  else
    let normalizedAddress := toLowerCase (default "" address) in
    let allContracts := map (fun kv => option_map toLowerCase (snd kv)) (contracts env) in
    existsb (fun a => match a with
                      | Some a => String.eqb a normalizedAddress
                      | None => false
                      end) allContracts.

(** [ContractRegistry.getExpectedContract] *)
Definition getExpectedContract (env : Env) (type : string) (meta : Metadata) : option string :=
  if String.eqb type "claim_faucet" then getFaucet env
  else if String.eqb type "deposit" || String.eqb type "withdraw" then
    (if truthy_string (tokenSymbol meta) then getVault env (default "" (tokenSymbol meta)) else None)
  else if String.eqb type "supply" then
    (if truthy_string (tokenSymbol meta) then getStrategy env (default "" (tokenSymbol meta)) else None)
  else None.

(** ** services/web3.service.js *)

(** The result of a verification:
    [{ verified, reason?, receipt? }]. *)
Record Verification := mkVerification {
  verified : bool;
  verification_reason : option string;
  verification_receipt : option Receipt
}.

Definition rejected (why : string) : Verification := mkVerification false (Some why) None.

(** [Web3Service.getProvider] followed by
    [provider.getTransactionReceipt(txHash)]. *)
Definition getTransactionReceipt (env : Env) (hash : option string) (chain_id : option Z)
  : M (option Receipt) :=
  if negb (includes_number (providers env) chain_id) then
    throw (new_Error ("No provider configured for chain ID: " +:+
                      match chain_id with
                      | Some c => Number_toString c
                      | None => "undefined"
                      end))
  else
    calling env OpReceipt
      (ret (match hash, chain_id with
            | Some h, Some c => chain env h c
            | _, _ => None
            end)).

(** [Web3Service.verifyTransaction] *)
Definition verifyTransaction (env : Env) (hash : option string) (chain_id : option Z)
    (expectedContract : option string) : M Verification :=
  try_catch
    (await receipt <- getTransactionReceipt env hash chain_id ;;
     match receipt with
     | None => ret (rejected "Transaction not found or not confirmed")
     | Some receipt =>
         if negb (receipt_status receipt =? 1) then ret (rejected "Transaction failed")
         else if truthy_string expectedContract
                 && negb (match option_map toLowerCase (receipt_to receipt) with
                          | Some normalizedActual =>
                              String.eqb normalizedActual
                                         (toLowerCase (default "" expectedContract))
                          | None => false
                          end)
         then ret (rejected "Transaction not sent to expected contract")
         else ret (mkVerification true None (Some receipt))
     end)
    (fun error => ret (rejected (message error))).

(** ** services/xp.service.js *)

(** [XPService.verifyOnchainEvent] *)
Definition verifyOnchainEvent (env : Env) (meta : Metadata) : M Verification :=
  try_catch
    (let expectedContract :=
       if negb (truthy_string (contractAddress meta)) && truthy_string (tokenSymbol meta) then
         let type := if truthy_string (eventType meta) then default "" (eventType meta)
                     else "deposit" in
         getExpectedContract env type meta
       else contractAddress meta in
     await verification <- verifyTransaction env (txHash meta) (chainId meta) expectedContract ;;
     let receipt_to_ := match verification_receipt verification with
                        | Some r => receipt_to r
                        | None => None
                        end in
     if verified verification && truthy_string receipt_to_ then
       if negb (isNuviaContract env receipt_to_) then
         ret (rejected "Transaction not sent to a valid Nuvia contract")
       else ret verification
     else ret verification)
    (fun error => ret (rejected (message error))).

(** [Quest.find({ isActive: true, 'rules.type': 'event_count',
    'rules.eventType': eventType })] *)
Definition Quest_find_active (env : Env) (type : string) : M (list Quest) :=
  calling env OpQuestFind
    (fun s => (Return (List.filter (fun q => quest_isActive q && quest_ruleIsEventCount q
                                             && String.eqb (quest_eventType q) type)
                                   (quests s)), s)).

Definition same_progress (uid qid : ObjectId) (periodStart : option Z) (p : QuestProgress) : bool :=
  Nat.eqb (qp_userId p) uid && Nat.eqb (qp_questId p) qid &&
  match qp_periodStart p, periodStart with
  | Some a, Some b => a =? b
  | None, None => true
  | _, _ => false
  end.

(** Modelled from the spec: QuestProgress.getOrCreate (models/QuestProgress.js
    is not part of the sources).  "getOrCreate(user, quest, periodStart,
    periodEnd) → progress (idempotent — returns the existing row for the
    period if present)". *)
Definition QuestProgress_getOrCreate (env : Env) (uid qid : ObjectId)
    (periodStart periodEnd : option Z) : M QuestProgress :=
  calling env OpProgressGetOrCreate
    (fun s =>
       match find (same_progress uid qid periodStart) (progress s) with
       | Some p => (Return p, s)
       | None =>
           let p := mkProgress uid qid periodStart periodEnd 0 false in
           (Return p, set_progress (fun l => l ++ [p]) s)
       end).

(** Modelled from the spec: progress.updateProgress (models/QuestProgress.js
    is not part of the sources).  "updateProgress(progress, delta, eventRef)
    increments progressValue and sets isCompleted once it reaches the quest's
    target count". *)
Definition QuestProgress_updateProgress (env : Env) (p : QuestProgress) (target : Z)
    (delta : Z) : M QuestProgress :=
  calling env OpProgressUpdate
    (fun s =>
       let value := progressValue p + delta in
       let p' := mkProgress (qp_userId p) (qp_questId p) (qp_periodStart p) (qp_periodEnd p)
                            value (isCompleted p || (target <=? value)) in
       (Return p',
        set_progress (map (fun q => if same_progress (qp_userId p) (qp_questId p)
                                                     (qp_periodStart p) q
                                    then p' else q)) s)).

(** The loop of [updateQuestProgress] over the matching quests. *)
Fixpoint advance_quests (env : Env) (uid : ObjectId) (activeQuests : list Quest) : M unit :=
  match activeQuests with
  | [] => ret tt
  | quest :: rest =>
      let '(periodStart, periodEnd) :=
        match cadence quest with
        | one_time => (None, None)
        | c => periodOf env c (now env)
        end in
      await p <- QuestProgress_getOrCreate env uid (quest_id quest) periodStart periodEnd ;;
      await! QuestProgress_updateProgress env p (quest_targetCount quest) 1 ;;
      advance_quests env uid rest
  end.

(** [XPService.updateQuestProgress]: its [catch] logs and does not throw. *)
Definition updateQuestProgress (env : Env) (uid : ObjectId) (type : string)
    (eid : ObjectId) : M unit :=
  try_catch
    (await activeQuests <- Quest_find_active env type ;;
     advance_quests env uid activeQuests)
    (fun error => ret tt).

(** The object [processEvent] resolves to. *)
Record Result := mkResult {
  success : bool;
  result_event : option Event;
  xpAwarded : Z;
  result_message : string;
  nextAvailableAt : option Z
}.

(** The outcome of the [catch] branch for a duplicate. *)
Definition duplicate_outcome : Result :=
  mkResult false None 0 "Event already processed (duplicate)" None.

(** The [try] block of [processEvent] from the rule lookup on, for the
    event that was recorded. *)
Definition processEvent_recorded (env : Env) (uid : ObjectId) (type : string)
    (meta : Metadata) (event : Event) : M Result :=
  await rule <- getRuleByAction env type ;;
  match rule with
  | None =>
      await event <- markProcessed env event ;;
      ret (mkResult true (Some event) 0 "Event recorded but no XP rule configured" None)
  | Some rule =>
      await validation <- validateEvent env type meta ;;
      match validation with
      | Invalid why =>
          await event <- markFailed env event why ;;
          ret (mkResult false (Some event) 0 why None)
      | Valid _ =>
          await cooldownCheck <- canUserEarnXP env rule uid ;;
          if negb (canEarn cooldownCheck) then
            let why := default "undefined" (cooldown_reason cooldownCheck) in
            await event <- markFailed env event why ;;
            ret (mkResult false (Some event) 0 why (cooldown_nextAvailableAt cooldownCheck))
          else
            await limitCheck <- checkDailyLimit env rule uid ;;
            if negb (withinLimit limitCheck) then
              let why := default "undefined" (limit_reason limitCheck) in
              await event <- markFailed env event why ;;
              ret (mkResult false (Some event) 0 why None)
            else
              let award (event : Event) : M Result :=
                let xpAmount := xpAmount rule in
                await! addXP env uid xpAmount type ("XP from " +:+ type)
                             (mkLedgerMeta (Some (event_id event)) None)
                             (Some (event_id event)) ;;
                await event <- markProcessed env event ;;
                await! updateQuestProgress env uid type (event_id event) ;;
                ret (mkResult true (Some event) xpAmount
                       ("Successfully earned " +:+ Number_toString xpAmount +:+ " XP") None) in
              if truthy_string (txHash meta) && truthy_number (chainId meta) then
                await verification <- verifyOnchainEvent env meta ;;
                if negb (verified verification) then
                  let why := default "undefined" (verification_reason verification) in
                  await event <- markFailed env event why ;;
                  ret (mkResult false (Some event) 0
                         ("Onchain verification failed: " +:+ why) None)
                else
                  await event <- markVerified env event ;;
                  award event
              else award event
      end
  end.

(** The [try] block of [processEvent]. *)
Definition processEvent_try (env : Env) (uid : ObjectId) (type : string)
    (meta : Metadata) (dedupKey : option string) : M Result :=
  await event <- Event_createEvent env uid type meta dedupKey ;;
  processEvent_recorded env uid type meta event.

(** [XPService.processEvent]: the [try] block under its [catch]. *)
Definition processEvent (env : Env) (uid : ObjectId) (type : string)
    (meta : Metadata) (dedupKey : option string) : M Result :=
  try_catch (processEvent_try env uid type meta dedupKey)
    (fun error =>
       if includes (message error) "duplicate" then ret duplicate_outcome
       else throw error).

(** ** models/Referral.js *)

(** [Referral.findOne({ inviteeUserId })] *)
Definition Referral_findOne_invitee (env : Env) (invitee : ObjectId) : M (option Referral) :=
  calling env OpReferralFind
    (fun s => (Return (find (fun r => Nat.eqb (inviteeUserId r) invitee) (referrals s)), s)).

(** The error of the unique index on [inviteeUserId]. *)
Definition referral_index_error : Error :=
  mkError "E11000 duplicate key error collection: referrals index: inviteeUserId_1"
          (Some 11000).

(** [Referral.create({ inviterUserId, inviteeUserId, referralCode, metadata })]:
    the insert under the unique index on [inviteeUserId]; the schema
    defaults give status [pending] and no reward. *)
Definition Referral_create (env : Env) (inviter invitee : ObjectId) (refCode : string)
  : M Referral :=
  calling env OpReferralCreate
    (fun s =>
       if existsb (fun r => Nat.eqb (inviteeUserId r) invitee) (referrals s) then
         (Throw referral_index_error, s)
       else
         let r := mkReferral (nextId s) inviter invitee refCode ref_pending
                             (mkCriteria false false false 100) 0 0 None None in
         (Return r, bump_nextId (set_referrals (fun l => l ++ [r]) s))).

(** [this.save()] on a referral. *)
Definition Referral_save (env : Env) (this : Referral) : M unit :=
  calling env OpReferralSave
    (modify (set_referrals
               (map (fun r => if Nat.eqb (referral_id r) (referral_id this) then this else r)))).

(** [referralSchema.statics.createReferral] *)
Definition createReferral (env : Env) (inviter invitee : ObjectId) (refCode : string)
  : M Referral :=
  try_catch
    (await existing <- Referral_findOne_invitee env invitee ;;
     match existing with
     | Some _ => throw (new_Error "User has already been referred")
     | None =>
         await referral <- Referral_create env inviter invitee refCode ;;
         ret referral
     end)
    (fun error =>
       if has_code error 11000 then throw (new_Error "User has already been referred")
       else throw error).

Definition is_ref_verified (st : ReferralStatus) : bool :=
  match st with ref_verified => true | _ => false end.

(** [referralSchema.methods.distributeRewards]; the defaults of its
    arguments are 500 and 100.  It resolves to the updated document. *)
Definition distributeRewards (env : Env) (this : Referral) (inviterXP inviteeXP : Z)
  : M Referral :=
  if negb (is_ref_verified (status this)) then
    throw (new_Error "Referral must be verified before distributing rewards")
  else
    await! addXP env (inviterUserId this) inviterXP "referral_reward_inviter"
                 "Referral reward for inviting user"
                 (mkLedgerMeta None (Some (referral_id this))) None ;;
    await! addXP env (inviteeUserId this) inviteeXP "referral_reward_invitee"
                 "Referral reward for joining"
                 (mkLedgerMeta None (Some (referral_id this))) None ;;
    let this' := mkReferral (referral_id this) (inviterUserId this) (inviteeUserId this)
                            (referralCode this) ref_rewarded (verificationCriteria this)
                            inviterXP inviteeXP (verifiedAt this) (Some (now env)) in
    await! Referral_save env this' ;;
    ret this'.

(** [Event.findOne({ userId, 'metadata.txHash': { $exists: true, $ne: null },
    status: { $in: ['verified', 'processed'] } })] *)
Definition Event_findOne_onchain (env : Env) (uid : ObjectId) : M (option Event) :=
  calling env OpEventFind
    (fun s => (Return (find (fun e => Nat.eqb (event_userId e) uid
                                      && present (txHash (event_metadata e))
                                      && is_success_status (event_status e))
                            (events s)), s)).

Definition is_ref_pending (st : ReferralStatus) : bool :=
  match st with ref_pending => true | _ => false end.

(** [referralSchema.methods.checkVerification]: resolves to [verified] and
    the document with the criteria it found met; the document is saved only
    when it moves to status [verified]. *)
Definition checkVerification (env : Env) (this : Referral) : M (bool * Referral) :=
  await invitee <- User_findById env (inviteeUserId this) ;;
  match invitee with
  | None => ret (false, this)
  | Some invitee =>
      let criteria := verificationCriteria this in
      let firstLogin_ :=
        if negb (firstLogin criteria) && present (firstLoginAt invitee)
        then true else firstLogin criteria in
      await firstOnchainAction_ <-
        (if negb (firstOnchainAction criteria) then
           await onchainEvent <- Event_findOne_onchain env (inviteeUserId this) ;;
           ret (if present onchainEvent then true else firstOnchainAction criteria)
         else ret (firstOnchainAction criteria)) ;;
      let minXPReached_ :=
        if negb (minXPReached criteria) && (minXPThreshold criteria <=? totalXP invitee)
        then true else minXPReached criteria in
      let criteria' := mkCriteria firstLogin_ firstOnchainAction_ minXPReached_
                                  (minXPThreshold criteria) in
      let allMet := firstLogin_ && firstOnchainAction_ && minXPReached_ in
      if allMet && is_ref_pending (status this) then
        let this' := mkReferral (referral_id this) (inviterUserId this) (inviteeUserId this)
                                (referralCode this) ref_verified criteria'
                                (rewardDistributed_inviterXP this)
                                (rewardDistributed_inviteeXP this)
                                (Some (now env)) (rewardedAt this) in
        await! Referral_save env this' ;;
        ret (true, this')
      else
        ret (false,
             mkReferral (referral_id this) (inviterUserId this) (inviteeUserId this)
                        (referralCode this) (status this) criteria'
                        (rewardDistributed_inviterXP this)
                        (rewardDistributed_inviteeXP this)
                        (verifiedAt this) (rewardedAt this))
  end.

(** [Referral.findById]: the stored document of a referral. *)
Definition stored_referral (s : Store) (rid : ObjectId) : option Referral :=
  find (fun r => Nat.eqb (referral_id r) rid) (referrals s).

(** ** Concurrent callers of [addXP]

    Node runs the callers on one thread: a caller runs until its next
    [await], and the database applies the awaited request at some later
    moment, between the steps of other callers.  A call of [addXP] is
    therefore at one of three awaits or settled. *)
Inductive Call :=
| AwaitFindById (uid : ObjectId) (delta : Z) (rsn desc : string) (meta : LedgerMeta)
                (eid : option ObjectId)
| AwaitCreate (uid : ObjectId) (eid : option ObjectId) (delta balance : Z)
              (rsn desc : string) (meta : LedgerMeta)
| AwaitUpdate (uid : ObjectId) (balance : Z) (entry : LedgerEntry)
| Settled (o : Outcome LedgerEntry).

(** The database serves the awaited request of a call and the call runs to
    its next [await], as the body of [addXP] says. *)
Definition resume (env : Env) (c : Call) (s : Store) : Call * Store :=
  match c with
  | AwaitFindById uid delta rsn desc meta eid =>
      match User_findById env uid s with
      | (Throw e, s') => (Settled (Throw e), s')
      | (Return None, s') => (Settled (Throw (new_Error "User not found")), s')
      | (Return (Some user), s') =>
          let balance := totalXP user + delta in
          if balance <? 0 then (Settled (Throw (new_Error "Insufficient XP balance")), s')
          else (AwaitCreate uid eid delta balance rsn desc meta, s')
      end
  | AwaitCreate uid eid delta balance rsn desc meta =>
      match XPLedger_create env uid eid delta balance rsn desc meta s with
      | (Throw e, s') => (Settled (Throw e), s')
      | (Return entry, s') => (AwaitUpdate uid balance entry, s')
      end
  | AwaitUpdate uid balance entry =>
      match User_findByIdAndUpdate_totalXP env uid balance s with
      | (Throw e, s') => (Settled (Throw e), s')
      | (Return _, s') => (Settled (Return entry), s')
      end
  | Settled o => (c, s)
  end.

(** The callers in flight and the store they share. *)
Definition Pool : Type := list Call * Store.

(** One scheduling decision: caller [i] is resumed. *)
Definition resume_at (env : Env) (i : nat) (p : Pool) : Pool :=
  match fst p !! i with
  | Some c => let '(c', s') := resume env c (snd p) in (<[i := c']> (fst p), s')
  | None => p
  end.

(** A schedule: the callers in the order the database serves them. *)
Definition run_schedule (env : Env) (schedule : list nat) (p : Pool) : Pool :=
  fold_left (fun p i => resume_at env i p) schedule p.

Definition is_settled (c : Call) : bool :=
  match c with Settled _ => true | _ => false end.

Definition is_fulfilled (c : Call) : bool :=
  match c with Settled (Return _) => true | _ => false end.

(** The schedule that runs the callers of [order] one after the other, each
    to completion. *)
Definition serial (order : list nat) : list nat :=
  flat_map (fun i => [i; i; i]) order.

(** The schedule of [n] callers started together: every read is served,
    then every insert, then every update. *)
Definition lockstep (n : nat) : list nat := seq 0 n ++ seq 0 n ++ seq 0 n.

(** One round over the callers in flight, from the first to the last: each
    is resumed once. *)
Fixpoint sweep (env : Env) (cs : list Call) (s : Store) : list Call * Store :=
  match cs with
  | [] => ([], s)
  | c :: cs' =>
      let '(c', s1) := resume env c s in
      let '(cs'', s2) := sweep env cs' s1 in
      (c' :: cs'', s2)
  end.

(** [n] callers awarding [delta] XP to the same user. *)
Definition callers (n : nat) (uid : ObjectId) (delta : Z) (rsn : string) : list Call :=
  replicate n (AwaitFindById uid delta rsn "" (mkLedgerMeta None None) None).

(** The cached balance of a user, 0 when the user is unknown. *)
Definition balance_of (s : Store) (uid : ObjectId) : Z :=
  match users s !! uid with
  | Some u => totalXP u
  | None => 0
  end.

(** ** Environments and stores for examples *)

(** An environment in which no collaborator fails: one provider (Base
    Sepolia), the given chain and registry. *)
Definition quiet_env (t : Z) (receipts : string → Z → option Receipt)
    (registry : list (string * option string)) : Env :=
  mkEnv t (fun t => t - t mod 86400000)
        (fun c t => match c with
                    | daily => (Some (t - t mod 86400000), Some (t - t mod 86400000 + 86399999))
                    | _ => (Some (t - t mod 604800000), Some (t - t mod 604800000 + 604799999))
                    end)
        (fun _ => None) [84532] receipts registry
        (fun uid type _ => type +:+ "_" +:+ Number_toString t).

Definition no_receipts : string → Z → option Receipt := fun _ _ => None.

(** The environment of [env] in which the call [op] rejects with [e]. *)
Definition failing (env : Env) (op : Op) (e : Error) : Env :=
  mkEnv (now env) (startOfDay env) (periodOf env)
        (fun o => if Op_eqb o op then Some e else fault env o)
        (providers env) (chain env) (contracts env) (deriveDedupKey env).

Definition empty_store : Store := mkStore ∅ [] [] [] [] [] [] 0%nat.

(** [new User(...)] saved: a new user starts with the schema default
    [totalXP: 0]. *)
Definition createUser (uid : ObjectId) (s : Store) : Store :=
  match users s !! uid with
  | Some _ => s
  | None => set_users (insert uid (mkUser 0 None)) s
  end.

(** The first successful login of a user (the verification of the wallet
    signature in controllers/auth.controller.js) stamps
    [metadata.firstLoginAt]. *)
Definition login (env : Env) (uid : ObjectId) (s : Store) : Store :=
  set_users (alter (fun u => mkUser (totalXP u)
                                    (if present (firstLoginAt u) then firstLoginAt u
                                     else Some (now env)))
                   uid) s.

(** One round of the loop of [seedDefaultRules]: the rule is created unless
    one exists for its action type. *)
Definition seedRule (rule : XPRule) (s : Store) : Store :=
  if existsb (fun r => String.eqb (actionType r) (actionType rule)) (rules s) then s
  else set_rules (fun l => l ++ [rule]) s.

(** The default rule for deposits of [seedDefaultRules]. *)
Definition deposit_rule : XPRule :=
  mkRule "deposit" 100 None (Some "10") [84532] [] 0 true.

Definition no_metadata : Metadata := mkMetadata None None None None None None None.

(** ** The ledger invariant *)

(** The cached balance of every user is the sum of the user's ledger
    deltas, and every entry records the running sum of its user up to and
    including itself. *)
Definition ledger_consistent (s : Store) : Prop :=
  (∀ uid u, users s !! uid = Some u → totalXP u = calculateTotalXP uid (ledger s)) ∧
  (∀ pre e post, ledger s = pre ++ e :: post →
                 balanceAfter e = calculateTotalXP (userId e) pre + deltaXP e).

(** Every ledger entry belongs to a user of the store. *)
Definition entries_owned (s : Store) : Prop :=
  ∀ e, In e (ledger s) → is_Some (users s !! userId e).

Definition ledger_sound (s : Store) : Prop := ledger_consistent s ∧ entries_owned s.

(** The requests a client can make of the core. *)
Inductive Request :=
| ReqCreateUser (uid : ObjectId)
| ReqLogin (uid : ObjectId)
| ReqSeedRule (rule : XPRule)
| ReqCheckVerification (rid : ObjectId)
| ReqAddXP (uid : ObjectId) (delta : Z) (rsn desc : string) (meta : LedgerMeta)
           (eid : option ObjectId)
| ReqProcessEvent (uid : ObjectId) (type : string) (meta : Metadata) (dedupKey : option string)
| ReqCreateReferral (inviter invitee : ObjectId) (refCode : string)
| ReqDistributeRewards (rid : ObjectId) (inviterXP inviteeXP : Z).

(** Serving a request in its environment: the store it leaves, whether the
    request was fulfilled or rejected. *)
Definition serve (s : Store) (er : Env * Request) : Store :=
  let '(env, r) := er in
  match r with
  | ReqCreateUser uid => createUser uid s
  | ReqLogin uid => login env uid s
  | ReqSeedRule rule => seedRule rule s
  | ReqCheckVerification rid =>
      match stored_referral s rid with
      | Some r => snd (checkVerification env r s)
      | None => s
      end
  | ReqAddXP uid delta rsn desc meta eid => snd (addXP env uid delta rsn desc meta eid s)
  | ReqProcessEvent uid type meta dedupKey => snd (processEvent env uid type meta dedupKey s)
  | ReqCreateReferral inviter invitee refCode => snd (createReferral env inviter invitee refCode s)
  | ReqDistributeRewards rid inviterXP inviteeXP =>
      match stored_referral s rid with
      | Some r => snd (distributeRewards env r inviterXP inviteeXP s)
      | None => s
      end
  end.

Definition serve_all (trace : list (Env * Request)) (s : Store) : Store :=
  fold_left serve trace s.

(** ** What a computation keeps, returns and throws *)

(** [m] keeps [P]: whatever it returns or throws, a store that satisfies
    [P] before satisfies it after. *)
Definition keeps {A : Type} (P : Store → Prop) (m : M A) : Prop :=
  ∀ s o s', m s = (o, s') → P s → P s'.

(** What a property of the store reads: the users and the ledger, the
    events, or at most these three collections. *)
Definition ledger_only (P : Store → Prop) : Prop :=
  ∀ s s', users s' = users s → ledger s' = ledger s → P s → P s'.

Definition events_only (P : Store → Prop) : Prop :=
  ∀ s s', events s' = events s → P s → P s'.

Definition core_only (P : Store → Prop) : Prop :=
  ∀ s s', users s' = users s → ledger s' = ledger s → events s' = events s → P s → P s'.

(** The store holds an event of the user with the dedup key. *)
Definition submitted (uid : ObjectId) (key : string) (s : Store) : Prop :=
  existsb (same_submission uid key) (events s) = true.

(** [m] started in a store with [P] ends in a store with [P], and what it
    returns satisfies [φ]. *)
Definition returns {A} (P : Store → Prop) (m : M A) (φ : A → Prop) : Prop :=
  ∀ s o s', m s = (o, s') → P s → P s' ∧ ∀ a, o = Return a → φ a.

(** What [processEvent] resolves to when it awards nothing: the duplicate
    outcome, the record of an event without rule, or a refusal with the
    event marked failed. *)
Definition nothing_awarded (r : Result) : Prop :=
  xpAwarded r = 0 ∧
  (r = duplicate_outcome ∨
   (∃ ev, result_event r = Some ev ∧ event_status ev = st_processed ∧
          result_message r = "Event recorded but no XP rule configured") ∨
   (∃ ev, result_event r = Some ev ∧ event_status ev = st_failed ∧ success r = false)).

(** The awaited calls of [processEvent] that are not wrapped in a [try]
    of their own. *)
Definition escaping_ops : list Op :=
  [OpEventCreate; OpRuleFind; OpEventFind; OpEventCount; OpEventSave;
   OpUserFind; OpLedgerCreate; OpUserUpdate].

(** The errors that can leave the [try] block of [processEvent] for an
    action type: a rejection of one of the calls of [escaping_ops], the
    duplicate-key error of the events, and the three errors of the ledger
    append. *)
Inductive Escapes (env : Env) (type : string) : Error → Prop :=
| escapes_rejection op e :
    In op escaping_ops → fault env op = Some e → Escapes env type e
| escapes_duplicate_key : Escapes env type duplicate_key_error
| escapes_user_not_found : Escapes env type (new_Error "User not found")
| escapes_insufficient : Escapes env type (new_Error "Insufficient XP balance")
| escapes_reason :
    Escapes env type
      (new_Error ("XPLedger validation failed: reason: `" +:+ type +:+
                  "` is not a valid enum value for path `reason`.")).

(** Every error [m] throws satisfies [E]. *)
Definition throws {A : Type} (E : Error → Prop) (m : M A) : Prop :=
  ∀ s e s', m s = (Throw e, s') → E e.

(** ** The steps of the ledger append, the rule checks *)

(** The entry [addXP] appends and the store after the append. *)
Definition appended_entry (s : Store) (uid : ObjectId) (delta : Z) (rsn desc : string)
    (meta : LedgerMeta) (eid : option ObjectId) : LedgerEntry :=
  mkEntry (nextId s) uid eid delta (balance_of s uid + delta) rsn desc meta.

Definition after_append (s : Store) (entry : LedgerEntry) : Store :=
  bump_nextId (set_ledger (fun l => l ++ [entry]) s).

Definition after_update (s : Store) (uid : ObjectId) (balance : Z) : Store :=
  set_users (alter (fun u => mkUser balance (firstLoginAt u)) uid) s.

(** The rule without its chain allow-list. *)
Definition without_chains (rule : XPRule) : XPRule :=
  mkRule (actionType rule) (xpAmount rule) (dailyLimit rule) (minAmount rule) []
         (validProtocols rule) (cooldownMinutes rule) (isActive rule).

(** The events that can count for a cooldown or a daily limit: those with a
    success status. *)
Definition successful (l : list Event) : list Event :=
  List.filter (fun e => is_success_status (event_status e)) l.

(** ** The stores, chains and environments of the worked requests *)

(** A store with one user (id 1, balance 0) and the default deposit rule. *)
Definition demo_store : Store :=
  mkStore (<[1%nat := mkUser 0 None]> ∅) [] [deposit_rule] [] [] [] [] 0%nat.

(** A deposit on Base Sepolia with transaction ["0xabc"]. *)
Definition deposit_of (amt : string) : Metadata :=
  mkMetadata (Some "0xabc") (Some 84532) None None (Some amt) None None.

Definition vault_address : string := "0x1111111111111111111111111111111111111111".

Definition demo_registry : list (string * option string) :=
  [("faucet", Some "0x2222222222222222222222222222222222222222");
   ("vaultUSDC", Some vault_address)].

(** The chain on which ["0xabc"] succeeded with the given destination. *)
Definition chain_with (dest : option string) : string → Z → option Receipt :=
  fun h c => if String.eqb h "0xabc" && (c =? 84532)
             then Some (mkReceipt 1 "0x9999999999999999999999999999999999999999" dest)
             else None.

Definition demo_env (dest : option string) : Env :=
  quiet_env 1700000000000 (chain_with dest) demo_registry.

(** A unique-index violation as the driver reports it for a collection. *)
Definition index_violation (collection : string) : Error :=
  mkError ("E11000 duplicate key error collection: nuvia." +:+ collection) (Some 11000).

(** The environment in which the ledger's own unique index rejects the
    append. *)
Definition ledger_fault_env : Env :=
  failing (demo_env (Some vault_address)) OpLedgerCreate (index_violation "xpledgers").

(** The calls of the pipeline, in the order a fulfilled on-chain submission
    makes them. *)
Definition pipeline_ops : list Op :=
  [OpEventCreate; OpRuleFind; OpEventFind; OpEventCount; OpReceipt; OpEventSave;
   OpUserFind; OpLedgerCreate; OpUserUpdate;
   OpQuestFind; OpProgressGetOrCreate; OpProgressUpdate].

(** A store with a user, a deposit rule with a cooldown and a daily limit,
    and a daily quest on deposits. *)
Definition quest_store : Store :=
  mkStore (<[1%nat := mkUser 0 None]> ∅) []
          [mkRule "deposit" 100 (Some 5) (Some "10") [84532] [] 60 true]
          [] [] [mkQuest 7%nat true true "deposit" 3 daily] [] 0%nat.

(** How [processEvent] answers: with the duplicate outcome, with another
    result, or by throwing. *)
Inductive Answer := AnsweredDuplicate | Answered (ok : bool) (xp : Z) | Thrown.

Definition answer (o : Outcome Result) : Answer :=
  match o with
  | Return r =>
      if String.eqb (result_message r) "Event already processed (duplicate)"
      then AnsweredDuplicate else Answered (success r) (xpAwarded r)
  | Throw _ => Thrown
  end.

(** A day of requests: two users sign up, the deposit rule is seeded, user 2
    logs in and deposits, is referred by user 1, the referral is verified
    and rewarded, user 1 is penalised twice (the second penalty exceeds the
    balance), and the deposit is submitted again. *)
Definition demo_trace : list (Env * Request) :=
  let env := demo_env (Some vault_address) in
  [ (env, ReqCreateUser 1%nat); (env, ReqCreateUser 2%nat);
    (env, ReqSeedRule deposit_rule);
    (env, ReqLogin 2%nat);
    (env, ReqProcessEvent 2%nat "deposit" (deposit_of "15") (Some "deposit-1"));
    (env, ReqCreateReferral 1%nat 2%nat "NUV-ABC123");
    (env, ReqCheckVerification 2%nat);
    (env, ReqDistributeRewards 2%nat 500 100);
    (env, ReqDistributeRewards 2%nat 500 100);
    (env, ReqAddXP 1%nat (-30) "penalty" "late" (mkLedgerMeta None None) None);
    (env, ReqAddXP 1%nat (-5000) "penalty" "too much" (mkLedgerMeta None None) None);
    (env, ReqProcessEvent 2%nat "deposit" (deposit_of "15") (Some "deposit-1")) ].

(** The events of a user who claimed the faucet at instant 1000000 after a
    failed attempt, and tried again but failed 20 minutes later. *)
Definition faucet_events : list Event :=
  [ mkEvent 0%nat 1%nat "claim_faucet" no_metadata "k0" st_failed (Some "rpc") 900000;
    mkEvent 1%nat 1%nat "claim_faucet" no_metadata "k1" st_processed None 1000000;
    mkEvent 2%nat 1%nat "claim_faucet" no_metadata "k2" st_failed (Some "rpc") 2200000 ].

Definition faucet_rule : XPRule := mkRule "claim_faucet" 25 None None [] [] 60 true.

Definition faucet_store : Store :=
  mkStore (<[1%nat := mkUser 25 None]> ∅) faucet_events [faucet_rule]
          [mkEntry 3%nat 1%nat (Some 1%nat) 25 25 "claim_faucet" "XP from claim_faucet"
                   (mkLedgerMeta (Some 1%nat) None)]
          [] [] [] 4%nat.

Definition stray_address : string := "0x3333333333333333333333333333333333333333".

(** A store in which user 2, referred by user 1, has a verified referral. *)
Definition referral_store : Store :=
  mkStore (<[1%nat := mkUser 0 None]> (<[2%nat := mkUser 100 (Some 5)]> ∅)) [] [] []
          [mkReferral 9%nat 1%nat 2%nat "NUV-ABC123" ref_verified
                      (mkCriteria true true true 100) 0 0 (Some 7) None]
          [] [] 10%nat.

(** ** Further operations of the models *)

(** *** models/XPLedger.js: the summary of a user's XP by reason *)

(** A row of [getXPSummary]: [{ _id: reason, totalXP, count }]. *)
Record SummaryRow := mkSummaryRow {
  summary_reason : string;
  summary_totalXP : Z;
  summary_count : Z
}.

(** [$group: { _id: '$reason', totalXP: { $sum: '$deltaXP' }, count: { $sum: 1 } }]
    for one more entry: it is added to the row of its reason, or opens a
    row. *)
Fixpoint group_entry (e : LedgerEntry) (rows : list SummaryRow) : list SummaryRow :=
  match rows with
  | [] => [mkSummaryRow (reason e) (deltaXP e) 1]
  | r :: rows' =>
      if String.eqb (summary_reason r) (reason e)
      then mkSummaryRow (summary_reason r) (summary_totalXP r + deltaXP e) (summary_count r + 1)
             :: rows'
      else r :: group_entry e rows'
  end.

Definition group_by_reason (l : list LedgerEntry) : list SummaryRow :=
  fold_left (fun rows e => group_entry e rows) l [].

(** The order of [$sort: { totalXP: -1 }]. *)
Definition by_totalXP_desc (a b : SummaryRow) : Prop :=
  summary_totalXP b ≤ summary_totalXP a.

#[global] Instance by_totalXP_desc_dec a b : Decision (by_totalXP_desc a b) :=
  Z_le_dec (summary_totalXP b) (summary_totalXP a).

(** [xpLedgerSchema.statics.getXPSummary]: the entries of the user, grouped
    by reason, the rows sorted by their total, largest first.  The database
    leaves the order of rows with equal totals open; here they keep the order
    in which their reasons first appear. *)
Definition getXPSummary (uid : ObjectId) (l : list LedgerEntry) : list SummaryRow :=
  merge_sort by_totalXP_desc
    (group_by_reason (List.filter (fun e => Nat.eqb (userId e) uid) l)).

Definition sum_of {A} (f : A → Z) (l : list A) : Z :=
  fold_right (fun a acc => f a + acc) 0 l.

(** ** Invariants of the users and the ledger *)

(** No cached balance and no recorded balance is negative. *)
Definition balances_nonneg (s : Store) : Prop :=
  (∀ uid u, users s !! uid = Some u → 0 ≤ totalXP u) ∧
  Forall (fun e => 0 ≤ balanceAfter e) (ledger s).

(** The store extends the ledger [L] at its end and has the users of [U]. *)
Definition grown_from (U : gmap ObjectId User) (L : list LedgerEntry) (s : Store) : Prop :=
  (∃ l, ledger s = L ++ l) ∧ ∀ uid, is_Some (U !! uid) → is_Some (users s !! uid).

(** The users and the ledger are [U] and [L]. *)
Definition unchanged (U : gmap ObjectId User) (L : list LedgerEntry) (s : Store) : Prop :=
  users s = U ∧ ledger s = L.

(** Against the users [U] and the ledger [L], the store holds one more
    entry, for [delta] XP of the user with the reason and the event, and the
    balance of the user moved by [delta]; nothing else differs. *)
Definition credited (U : gmap ObjectId User) (L : list LedgerEntry) (uid : ObjectId)
    (delta : Z) (rsn : string) (eid : option ObjectId) (s : Store) : Prop :=
  ∃ u entry,
    U !! uid = Some u ∧ 0 ≤ totalXP u + delta ∧
    users s = <[uid := mkUser (totalXP u + delta) (firstLoginAt u)]> U ∧
    ledger s = L ++ [entry] ∧
    userId entry = uid ∧ deltaXP entry = delta ∧ balanceAfter entry = totalXP u + delta ∧
    reason entry = rsn ∧ eventId entry = eid.

(** What a row says, against the entries it was built from. *)
Definition row_sums (l : list LedgerEntry) (r : SummaryRow) : Prop :=
  summary_totalXP r =
    sum_of deltaXP (List.filter (fun e => String.eqb (reason e) (summary_reason r)) l) ∧
  summary_count r =
    Z.of_nat (length (List.filter (fun e => String.eqb (reason e) (summary_reason r)) l)) ∧
  0 < summary_count r.

(** The entries of a user with a reason. *)
Definition entries_with (uid : ObjectId) (rsn : string) (l : list LedgerEntry)
  : list LedgerEntry :=
  List.filter (fun e => Nat.eqb (userId e) uid && String.eqb (reason e) rsn) l.

(** ** The checks before an award *)

(** The checks [processEvent] makes before it awards XP for an action, all
    passed in a store: [rule] is the active rule of the action type, the
    metadata are valid against it, no event of the user counts within its
    cooldown, fewer events than its daily limit count since local midnight,
    and, when the metadata name a transaction and a chain, the transaction
    is on the chain, succeeded, and its destination, if it has one, is a
    contract of the registry. *)
Definition checks_passed (env : Env) (uid : ObjectId) (type : string) (meta : Metadata)
    (s : Store) (rule : XPRule) : Prop :=
  find (fun r => String.eqb (actionType r) type && isActive r) (rules s) = Some rule ∧
  validate_against rule meta = Valid rule ∧
  (cooldownMinutes rule = 0 ∨
   List.filter (counts_for uid (actionType rule) (now env - cooldownMinutes rule * 60 * 1000))
               (events s) = []) ∧
  (truthy_number (dailyLimit rule) = false ∨
   Z.of_nat (length (List.filter (counts_for uid (actionType rule) (startOfDay env (now env)))
                                 (events s)))
   < default 0 (dailyLimit rule)) ∧
  (truthy_string (txHash meta) && truthy_number (chainId meta) = true →
   ∃ h c r, txHash meta = Some h ∧ chainId meta = Some c ∧ chain env h c = Some r ∧
            receipt_status r = 1 ∧
            (truthy_string (receipt_to r) = true → isNuviaContract env (receipt_to r) = true)).

(** The result of an award. *)
Definition awarded (event : Event) (xp : Z) : Result :=
  mkResult true (Some event) xp ("Successfully earned " +:+ Number_toString xp +:+ " XP") None.

(** The event a submission records. *)
Definition recorded_event (env : Env) (s : Store) (uid : ObjectId) (type : string)
    (meta : Metadata) (dedupKey : option string) : Event :=
  mkEvent (nextId s) uid type meta
          (match dedupKey with Some k => k | None => deriveDedupKey env uid type meta end)
          st_recorded None (now env).

(** What the [catch] of [processEvent] makes of an error. *)
Definition caught (e : Error) : Outcome Result :=
  if includes (message e) "duplicate" then Return duplicate_outcome else Throw e.

(** A store with one user and an active rule for withdrawals, an action
    type that is not among the reasons of the ledger. *)
Definition withdraw_store : Store :=
  mkStore (<[1%nat := mkUser 0 None]> ∅) []
          [mkRule "withdraw" 40 None None [] [] 0 true] [] [] [] [] 0%nat.

(** *** models/Referral.js: rejection and statistics *)

Definition with_referral_status (this : Referral) (st : ReferralStatus) : Referral :=
  mkReferral (referral_id this) (inviterUserId this) (inviteeUserId this)
             (referralCode this) st (verificationCriteria this)
             (rewardDistributed_inviterXP this) (rewardDistributed_inviteeXP this)
             (verifiedAt this) (rewardedAt this).

(** [referralSchema.methods.reject]: the status becomes [rejected],
    whatever it was, and the document is saved.  [rejectedAt] and
    [rejectionReason], which no other function reads, are not among the
    fields of the modelled document. *)
Definition reject (env : Env) (this : Referral) (why : string) : M Referral :=
  let this' := with_referral_status this ref_rejected in
  await! Referral_save env this' ;;
  ret this'.

(** The store after [doc.save()] of a referral. *)
Definition after_referral_save (s : Store) (doc : Referral) : Store :=
  set_referrals (map (fun r => if Nat.eqb (referral_id r) (referral_id doc) then doc else r)) s.

(** The first on-chain action of a user: an event with a transaction hash
    in status [verified] or [processed]. *)
Definition has_onchain_action (s : Store) (uid : ObjectId) : Prop :=
  ∃ e, In e (events s) ∧ event_userId e = uid ∧ present (txHash (event_metadata e)) = true ∧
       is_success_status (event_status e) = true.

(** The criteria of a referral hold for the invitee in the store, each
    either noted on the document or met now. *)
Definition criteria_met (s : Store) (this : Referral) (invitee : User) : Prop :=
  (firstLogin (verificationCriteria this) = true ∨ present (firstLoginAt invitee) = true) ∧
  (firstOnchainAction (verificationCriteria this) = true ∨
   has_onchain_action s (inviteeUserId this)) ∧
  (minXPReached (verificationCriteria this) = true ∨
   minXPThreshold (verificationCriteria this) ≤ totalXP invitee).

(** The store of the worked day after the referral of user 2 by user 1 was
    created: user 2 has logged in and deposited. *)
Definition referred_store : Store := serve_all (firstn 6 demo_trace) empty_store.

(** A store in which the inviter of a verified referral exists and the
    invitee does not. *)
Definition orphan_store : Store :=
  mkStore (<[1%nat := mkUser 0 None]> ∅) [] [] []
          [mkReferral 9%nat 1%nat 2%nat "NUV-ABC123" ref_verified
                      (mkCriteria true true true 100) 0 0 (Some 7) None]
          [] [] 10%nat.

(** The store at the end of the worked day: the referral of user 2 is
    rewarded. *)
Definition rewarded_store : Store := serve_all demo_trace empty_store.

(** *** utils/contractRegistry.js: the type of a contract *)

Inductive ContractType := ct_faucet | ct_vault | ct_strategy.

(** [contractAddress?.toLowerCase() === normalizedAddress] *)
Definition address_is (contractAddress : option string) (normalizedAddress : string) : bool :=
  match option_map toLowerCase contractAddress with
  | Some a => String.eqb a normalizedAddress
  | None => false
  end.

(** The loop of [getContractType] over [Object.entries(this.contracts)]: an
    entry with the address decides the type when its key is [faucet] or
    starts with [vault] or [strategy]; otherwise the loop goes on. *)
Fixpoint contract_type_in (entries : list (string * option string))
    (normalizedAddress : string) : option ContractType :=
  match entries with
  | [] => None
  | (key, contractAddress) :: rest =>
      if address_is contractAddress normalizedAddress then
        if String.eqb key "faucet" then Some ct_faucet
        else if String.prefix "vault" key then Some ct_vault
        else if String.prefix "strategy" key then Some ct_strategy
        else contract_type_in rest normalizedAddress
      else contract_type_in rest normalizedAddress
  end.

(** [ContractRegistry.getContractType] *)
Definition getContractType (env : Env) (address : option string) : option ContractType :=
  if negb (truthy_string address) then None
  else contract_type_in (contracts env) (toLowerCase (default "" address)).

(** The contract [verifyOnchainEvent] expects a transaction to have
    reached: the address of the metadata, or, without one and with a token
    symbol, the contract of the registry for the event type of the metadata
    ([deposit] when the metadata name none). *)
Definition expected_contract (env : Env) (meta : Metadata) : option string :=
  if negb (truthy_string (contractAddress meta)) && truthy_string (tokenSymbol meta) then
    getExpectedContract env (if truthy_string (eventType meta) then default "" (eventType meta)
                             else "deposit") meta
  else contractAddress meta.

Definition strategy_address : string := "0x4444444444444444444444444444444444444444".

(** A registry with the vault and the strategy of USDC, and a contract
    under a key of no known type. *)
Definition full_registry : list (string * option string) :=
  [("vaultUSDC", Some vault_address); ("strategyUSDC", Some strategy_address);
   ("router", Some stray_address)].

(** A supply of USDC: the transaction went to the strategy; the metadata
    name the token and no event type. *)
Definition supply_meta : Metadata :=
  mkMetadata (Some "0xabc") (Some 84532) None (Some "USDC") (Some "15") None None.

(** ** The referrals of a store *)

(** No user is the invitee of two referrals; the ids of the referrals are
    distinct and below the next id. *)
Definition referrals_wf (s : Store) : Prop :=
  NoDup (map inviteeUserId (referrals s)) ∧
  NoDup (map referral_id (referrals s)) ∧
  ∀ r, In r (referrals s) → (referral_id r < nextId s)%nat.

(** The referrals are [R] and the next id is at least [n]. *)
Definition id_frame (R : list Referral) (n : ObjectId) (s : Store) : Prop :=
  referrals s = R ∧ (n ≤ nextId s)%nat.

(** *** models/XPRule.js, services/xp.service.js and
    controllers/admin.controller.js: creating, seeding and deleting rules *)

(** [String.prototype.trim] on ASCII text. *)
Fixpoint trimEnd (s : string) : string :=
  match s with
  | EmptyString => EmptyString
  | String c s' =>
      match trimEnd s' with
      | EmptyString => if is_whitespace c then EmptyString else String c EmptyString
      | t => String c t
      end
  end.

Definition trim (s : string) : string := trimEnd (trimStart s).

(** The setters of the path [actionType] ([trim: true, lowercase: true]);
    Mongoose applies the setters of a path to the values of documents and to
    the values of query filters alike. *)
Definition actionType_setter (s : string) : string := toLowerCase (trim s).

(** The store has a rule, active or not, with the action type. *)
Definition has_rule (s : Store) (type : string) : bool :=
  existsb (fun r => String.eqb (actionType r) type) (rules s).

(** [XPRule.findOne({ actionType })] *)
Definition XPRule_findOne (env : Env) (type : string) : M (option XPRule) :=
  calling env OpRuleFind
    (fun s => (Return (find (fun r => String.eqb (actionType r) (actionType_setter type))
                            (rules s)), s)).

Definition rule_validation_error (path : string) : Error :=
  new_Error ("XPRule validation failed: " +:+ path).

Definition with_actionType (rule : XPRule) (type : string) : XPRule :=
  mkRule type (xpAmount rule) (dailyLimit rule) (minAmount rule) (validChains rule)
         (validProtocols rule) (cooldownMinutes rule) (isActive rule).

(** [XPRule.create(doc)]: the setters of [actionType], the validators of the
    schema ([actionType] required, [xpAmount], [dailyLimit] and
    [cooldownMinutes] at least 0), then the insert under the unique index on
    [actionType].  [rejects] is the error of the driver when the insert
    itself is rejected. *)
Definition XPRule_create (rejects : option Error) (doc : XPRule) : M XPRule :=
  match rejects with
  | Some e => throw e
  | None =>
      let rule := with_actionType doc (actionType_setter (actionType doc)) in
      if String.eqb (actionType rule) "" then
        throw (rule_validation_error "actionType: Path `actionType` is required.")
      else if xpAmount rule <? 0 then
        throw (rule_validation_error "xpAmount: Path `xpAmount` is less than minimum allowed value (0).")
      else if match dailyLimit rule with Some d => d <? 0 | None => false end then
        throw (rule_validation_error "dailyLimit: Path `dailyLimit` is less than minimum allowed value (0).")
      else if cooldownMinutes rule <? 0 then
        throw (rule_validation_error "cooldownMinutes: Path `cooldownMinutes` is less than minimum allowed value (0).")
      else
        ((fun s =>
            if has_rule s (actionType rule) then (Throw (index_violation "xprules"), s)
            else (Return rule, set_rules (fun l => l ++ [rule]) s))
         : M XPRule)
  end.

(** What [seedDefaultRules] reads of the process environment, each after
    [parseInt]; [None] is [NaN]. *)
Record SeedConfig := mkSeedConfig {
  DEFAULT_CONNECT_WALLET_XP : option Z;
  CONNECT_WALLET_DAILY_LIMIT : option Z;
  CONNECT_WALLET_COOLDOWN_MINUTES : option Z;
  FAUCET_COOLDOWN_HOURS : option Z
}.

(** [n || d] for a number [n]: [NaN] and [0] are falsy. *)
Definition or_default (n : option Z) (d : Z) : Z :=
  match n with
  | Some v => if v =? 0 then d else v
  | None => d
  end.

(** The [defaultRules] of [seedDefaultRules]; fields a rule does not name
    take the defaults of the schema. *)
Definition defaultRules (cfg : SeedConfig) : list XPRule :=
  [ mkRule "connect_wallet" (or_default (DEFAULT_CONNECT_WALLET_XP cfg) 50)
           (Some (or_default (CONNECT_WALLET_DAILY_LIMIT cfg) 1)) None [] []
           (or_default (CONNECT_WALLET_COOLDOWN_MINUTES cfg) 1440) true;
    mkRule "deposit" 100 None (Some "10") [84532] [] 0 true;
    mkRule "supply" 150 None (Some "10") [84532] [] 0 true;
    mkRule "claim_faucet" 25 (Some 1) None [] []
           (or_default (option_map (fun h => h * 60) (FAUCET_COOLDOWN_HOURS cfg)) 1440) true;
    mkRule "select_strategy" 30 (Some 1) None [] [] 0 true ].

(** The loop of [seedDefaultRules]. *)
Fixpoint seed_rules (env : Env) (rejects : option Error) (rulesData : list XPRule) : M unit :=
  match rulesData with
  | [] => ret tt
  | ruleData :: rest =>
      await existing <- XPRule_findOne env (actionType ruleData) ;;
      await! (if negb (present existing)
              then await! XPRule_create rejects ruleData ;; ret tt
              else ret tt) ;;
      seed_rules env rejects rest
  end.

(** [XPService.seedDefaultRules]: its [catch] logs and throws the error
    again. *)
Definition seedDefaultRules (env : Env) (rejects : option Error) (cfg : SeedConfig)
  : M string :=
  try_catch
    (await! seed_rules env rejects (defaultRules cfg) ;;
     ret "Default XP rules seeded")
    (fun error => throw error).

(** The body of a request to create a rule, with the fields the handler
    reads; a field the body does not have is [None]. *)
Record RuleBody := mkRuleBody {
  body_actionType : option string;
  body_xpAmount : option Z;
  body_cooldownMinutes : option Z;
  body_dailyLimit : option Z;
  body_minAmount : option string;
  body_validChains : option (list Z);
  body_isActive : option bool
}.

(** [res.status(code).json({ success, data, message })] *)
Record Response := mkResponse {
  response_status : Z;
  response_success : bool;
  response_data : option XPRule;
  response_message : string
}.

(** [exports.createXPRule] *)
Definition createXPRule (env : Env) (rejects : option Error) (body : RuleBody) : M Response :=
  try_catch
    (if negb (truthy_string (body_actionType body)) || negb (present (body_xpAmount body)) then
       ret (mkResponse 400 false None "actionType and xpAmount are required")
     else
       let type := default "" (body_actionType body) in
       await existing <- XPRule_findOne env type ;;
       if present existing then
         ret (mkResponse 400 false None
                ("XP rule for action type '" +:+ type +:+ "' already exists"))
       else
         await rule <- XPRule_create rejects
                         (mkRule type (default 0 (body_xpAmount body))
                                 (Some (or_default (body_dailyLimit body) 0))
                                 (body_minAmount body)
                                 (default [] (body_validChains body)) []
                                 (or_default (body_cooldownMinutes body) 0)
                                 (default true (body_isActive body))) ;;
         ret (mkResponse 201 true (Some rule) "XP rule created successfully"))
    (fun error => ret (mkResponse 500 false None "Failed to create XP rule")).

Definition deactivated (rule : XPRule) : XPRule :=
  mkRule (actionType rule) (xpAmount rule) (dailyLimit rule) (minAmount rule)
         (validChains rule) (validProtocols rule) (cooldownMinutes rule) false.

(** [exports.deleteXPRule]: [findByIdAndUpdate(id, { $set: { isActive: false } },
    { new: true })].  Rules are never removed from their collection, so the
    id of a rule is taken to be its position in it. *)
Definition deleteXPRule (rejects : option Error) (id : nat) : M Response :=
  try_catch
    (await rule <-
       (match rejects with
        | Some e => throw e
        | None =>
            ((fun s =>
                match rules s !! id with
                | Some r => (Return (Some (deactivated r)),
                             set_rules (fun l => <[id := deactivated r]> l) s)
                | None => (Return None, s)
                end) : M (option XPRule))
        end) ;;
     match rule with
     | None => ret (mkResponse 404 false None "XP rule not found")
     | Some rule => ret (mkResponse 200 true (Some rule) "XP rule deleted successfully")
     end)
    (fun error => ret (mkResponse 500 false None "Failed to delete XP rule")).

(** The action types of the rules are pairwise distinct. *)
Definition rules_wf (s : Store) : Prop := NoDup (map actionType (rules s)).

(** A process environment that sets the XP of the first connection to 75
    and nothing else. *)
Definition seed_config : SeedConfig := mkSeedConfig (Some 75) None None None.

(** A request body for a rule of the action type with 10 XP. *)
Definition rule_body (type : string) : RuleBody :=
  mkRuleBody (Some type) (Some 10) None None None None None.

(** *** models/User.js and controllers/auth.controller.js: the nonce of a
    wallet login *)

(** The fields of a user document that the login reads and writes. *)
Record Account := mkAccount {
  nonce : option string;
  nonceExpiry : option Z;
  account_firstLoginAt : option Z;
  lastLoginAt : option Z
}.

(** The users by wallet address; the address is stored in lower case and
    is unique. *)
Definition Accounts : Type := gmap string Account.

(** [userSchema.methods.generateNonce]; [nanoid] is what the generator
    returns at this call, [t] is [Date.now()]. *)
Definition generateNonce (nanoid : string) (t : Z) (this : Account) : string * Account :=
  (nanoid,
   mkAccount (Some nanoid) (Some (t + 5 * 60 * 1000)) (account_firstLoginAt this)
             (lastLoginAt this)).

(** [userSchema.methods.verifyNonce] at the instant [t]. *)
Definition verifyNonce (t : Z) (this : Account) (n : string) : bool :=
  if negb (truthy_string (nonce this)) || negb (present (nonceExpiry this)) then false
  else if negb (String.eqb (default "" (nonce this)) n) then false
  else if default 0 (nonceExpiry this) <? t then false
  else true.

(** [userSchema.methods.clearNonce] *)
Definition clearNonce (this : Account) : Account :=
  mkAccount None None (account_firstLoginAt this) (lastLoginAt this).

(** The library calls of the login: [ethers.isAddress], and
    [ethers.verifyMessage], which recovers the address that signed a message
    or throws ([None]). *)
Record Wallet := mkWallet {
  isAddress : string → bool;
  verifyMessage : string → string → option string
}.

(** The awaited calls of the login handlers. *)
Inductive AuthOp := AuthFindUser | AuthFindWaitlist | AuthCreateUser | AuthSaveUser.

Definition is_hex (c : ascii) : bool :=
  let n := N_of_ascii c in
  ((48 <=? n) && (n <=? 57) || (97 <=? n) && (n <=? 102) || (65 <=? n) && (n <=? 70))%N.

(** The [match] validator of [walletAddress]: [/^0x[a-fA-F0-9]{40}$/]. *)
Definition matches_wallet_pattern (s : string) : bool :=
  String.prefix "0x" s && Nat.eqb (String.length s) 42 &&
  forallb is_hex (String.list_ascii_of_string (String.substring 2 40 s)).

(** What a handler of the login responds: the status, the nonce it hands
    out, the wallet address a token was signed for. *)
Record AuthResponse := mkAuthResponse {
  auth_status : Z;
  auth_nonce : option string;
  auth_token_for : option string
}.

Definition auth_refusal (status : Z) : AuthResponse := mkAuthResponse status None None.

(** [`Sign this message to authenticate with Nuvia Finance: ${nonce}`] *)
Definition login_message (n : string) : string :=
  "Sign this message to authenticate with Nuvia Finance: " +:+ n.

(** [exports.requestNonce]; a rejected or throwing call ends in its [catch]
    with status 500. *)
Definition requestNonce (w : Wallet) (rejects : AuthOp → option Error) (nanoid : string)
    (t : Z) (walletAddress : option string) (accounts : Accounts)
  : AuthResponse * Accounts :=
  if negb (truthy_string walletAddress) then (auth_refusal 400, accounts)
  else if negb (isAddress w (default "" walletAddress)) then (auth_refusal 400, accounts)
  else
    let normalizedAddress := toLowerCase (default "" walletAddress) in
    match rejects AuthFindUser with
    | Some _ => (auth_refusal 500, accounts)
    | None =>
        let found :=
          match accounts !! normalizedAddress with
          | Some user => Some (user, accounts)
          | None =>
              match rejects AuthFindWaitlist, rejects AuthCreateUser with
              | None, None =>
                  if matches_wallet_pattern normalizedAddress then
                    let user := mkAccount None None None None in
                    Some (user, <[normalizedAddress := user]> accounts)
                  else None
              | _, _ => None
              end
          end in
        match found with
        | None => (auth_refusal 500, accounts)
        | Some (user, accounts1) =>
            let '(n, user1) := generateNonce nanoid t user in
            match rejects AuthSaveUser with
            | Some _ => (auth_refusal 500, accounts1)
            | None => (mkAuthResponse 200 (Some n) None, <[normalizedAddress := user1]> accounts1)
            end
        end
    end.

(** The body of a request to verify a signature. *)
Record VerifyBody := mkVerifyBody {
  verify_walletAddress : option string;
  verify_signature : option string;
  verify_nonce : option string
}.

(** [Web3Service.verifySignature]: [isValid] of its result. *)
Definition signature_isValid (w : Wallet) (msg sig expectedAddress : string) : bool :=
  match verifyMessage w msg sig with
  | Some recoveredAddress =>
      String.eqb (toLowerCase recoveredAddress) (toLowerCase expectedAddress)
  | None => false
  end.

(** [exports.verifySignature] at the instant [t]. *)
Definition verifySignature (w : Wallet) (rejects : AuthOp → option Error) (t : Z)
    (body : VerifyBody) (accounts : Accounts) : AuthResponse * Accounts :=
  if negb (truthy_string (verify_walletAddress body))
     || negb (truthy_string (verify_signature body))
     || negb (truthy_string (verify_nonce body)) then (auth_refusal 400, accounts)
  else
    let walletAddress := default "" (verify_walletAddress body) in
    let n := default "" (verify_nonce body) in
    let normalizedAddress := toLowerCase walletAddress in
    match rejects AuthFindUser with
    | Some _ => (auth_refusal 500, accounts)
    | None =>
        match accounts !! normalizedAddress with
        | None => (auth_refusal 404, accounts)
        | Some user =>
            if negb (verifyNonce t user n) then (auth_refusal 401, accounts)
            else if negb (signature_isValid w (login_message n)
                                            (default "" (verify_signature body)) walletAddress)
            then (auth_refusal 401, accounts)
            else
              let user1 := clearNonce user in
              let user2 :=
                mkAccount (nonce user1) (nonceExpiry user1)
                          (if present (account_firstLoginAt user1)
                           then account_firstLoginAt user1 else Some t)
                          (Some t) in
              match rejects AuthSaveUser with
              | Some _ => (auth_refusal 500, accounts)
              | None => (mkAuthResponse 200 None (Some normalizedAddress),
                         <[normalizedAddress := user2]> accounts)
              end
        end
    end.

(** A wallet library that takes every string for an address and recovers
    the signer from a signature of the form [signer|message]. *)
Definition toy_wallet : Wallet :=
  mkWallet (fun _ => true)
           (fun msg sig =>
              if String.eqb (String.substring 43 (String.length sig) sig) msg
              then Some (String.substring 0 42 sig) else None).

Definition alice : string := "0xAbCdEf0123456789aBcDeF0123456789AbCdEf01".

Definition no_rejection : AuthOp → option Error := fun _ => None.

(** *** models/Referral.js: the statistics of an inviter *)

#[global] Instance ReferralStatus_eq_dec : EqDecision ReferralStatus.
Proof. solve_decision. Defined.

(** A document of the [$group] stage of [getReferralStats]:
    [{ _id: status, count, totalXP }]. *)
Record StatusGroup := mkStatusGroup {
  group_status : ReferralStatus;
  group_count : Z;
  group_totalXP : Z
}.

Definition with_status_of (st : ReferralStatus) (l : list Referral) : list Referral :=
  List.filter (fun r => bool_decide (status r = st)) l.

(** [$match: { inviterUserId }] and [$group: { _id: '$status', count: { $sum: 1 },
    totalXP: { $sum: '$rewardDistributed.inviterXP' } }]: one document for
    each status among the referrals of the inviter. *)
Definition referral_groups (uid : ObjectId) (l : list Referral) : list StatusGroup :=
  let mine := List.filter (fun r => Nat.eqb (inviterUserId r) uid) l in
  map (fun st => mkStatusGroup st (Z.of_nat (length (with_status_of st mine)))
                               (sum_of rewardDistributed_inviterXP (with_status_of st mine)))
      (remove_dups (map status mine)).

(** The [result] of [getReferralStats]. *)
Record ReferralStats := mkReferralStats {
  stats_total : Z;
  stats_pending : Z;
  stats_verified : Z;
  stats_rewarded : Z;
  stats_rejected : Z;
  stats_totalXPEarned : Z
}.

(** One round of [stats.forEach]: [result[stat._id] = stat.count], the
    total grows by the count, and the group of the rewarded referrals gives
    [totalXPEarned]. *)
Definition add_group (result : ReferralStats) (stat : StatusGroup) : ReferralStats :=
  let total := stats_total result + group_count stat in
  match group_status stat with
  | ref_pending =>
      mkReferralStats total (group_count stat) (stats_verified result) (stats_rewarded result)
                      (stats_rejected result) (stats_totalXPEarned result)
  | ref_verified =>
      mkReferralStats total (stats_pending result) (group_count stat) (stats_rewarded result)
                      (stats_rejected result) (stats_totalXPEarned result)
  | ref_rewarded =>
      mkReferralStats total (stats_pending result) (stats_verified result) (group_count stat)
                      (stats_rejected result) (group_totalXP stat)
  | ref_rejected =>
      mkReferralStats total (stats_pending result) (stats_verified result)
                      (stats_rewarded result) (group_count stat) (stats_totalXPEarned result)
  end.

(** [referralSchema.statics.getReferralStats] *)
Definition getReferralStats (uid : ObjectId) (l : list Referral) : ReferralStats :=
  fold_left add_group (referral_groups uid l) (mkReferralStats 0 0 0 0 0 0).

(** The field of the statistics for a status. *)
Definition stats_of (result : ReferralStats) (st : ReferralStatus) : Z :=
  match st with
  | ref_pending => stats_pending result
  | ref_verified => stats_verified result
  | ref_rewarded => stats_rewarded result
  | ref_rejected => stats_rejected result
  end.

(** * Properties *)

(** ** The monad *)

Section Frames.
Context {A : Type}.

Lemma keeps_ret P (a : A) : keeps P (ret a).
Proof. intros s o s' [= <- <-]; auto. Qed.

Lemma keeps_throw P e : keeps P (throw e : M A).
Proof. intros s o s' [= <- <-]; auto. Qed.

Lemma keeps_calling P env op (m : M A) : keeps P m → keeps P (calling env op m).
Proof.
  intros Hm. unfold calling. destruct (fault env op); [apply keeps_throw | exact Hm].
Qed.

Lemma keeps_try_catch P (m : M A) h :
  keeps P m → (∀ e, keeps P (h e)) → keeps P (try_catch m h).
Proof.
  intros Hm Hh s o s' Hrun HP. unfold try_catch in Hrun.
  destruct (m s) as [[a | e] s1] eqn:E.
  - injection Hrun as <- <-. eapply Hm; eauto.
  - eapply Hh; [exact Hrun |]. eapply Hm; eauto.
Qed.

Lemma keeps_read P (f : Store → A) : keeps P (fun s => (Return (f s), s)).
Proof. intros s o s' [= <- <-]; auto. Qed.
End Frames.

Lemma keeps_bind {A B} P (m : M A) (k : A → M B) :
  keeps P m → (∀ a, keeps P (k a)) → keeps P (bind m k).
Proof.
  intros Hm Hk s o s' Hrun HP. unfold bind in Hrun.
  destruct (m s) as [[a | e] s1] eqn:E.
  - eapply Hk; [exact Hrun |]. eapply Hm; eauto.
  - injection Hrun as <- <-. eapply Hm; eauto.
Qed.

Lemma keeps_modify P (f : Store → Store) :
  (∀ s, P s → P (f s)) → keeps P (modify f).
Proof. intros Hf s o s' [= <- <-]; auto. Qed.

Lemma ledger_only_core_only P : ledger_only P → core_only P.
Proof. intros H s s' Hu Hl _. apply H; assumption. Qed.

Lemma events_only_core_only P : events_only P → core_only P.
Proof. intros H s s' _ _ He. apply H; assumption. Qed.

Lemma ledger_consistent_ledger_only : ledger_only ledger_consistent.
Proof.
  intros s s' Hu Hl [H1 H2]. unfold ledger_consistent. rewrite Hu, Hl. auto.
Qed.

Lemma ledger_sound_ledger_only : ledger_only ledger_sound.
Proof.
  intros s s' Hu Hl [[H1 H2] H3]. unfold ledger_sound, ledger_consistent, entries_owned.
  rewrite Hu, Hl. auto.
Qed.

Lemma same_ledger_ledger_only U L : ledger_only (fun s => users s = U ∧ ledger s = L).
Proof. intros s s' Hu Hl [H1 H2]. split; congruence. Qed.

Lemma submitted_events_only uid key : events_only (submitted uid key).
Proof. intros s s' He. unfold submitted. rewrite He. auto. Qed.

Create HintDb keeps.

(** The event a [mark...] call resolves to is the one it saved, so the
    rest of the computation can be followed with that event. *)
Lemma keeps_after_save {B} P env (ev' : Event) (k : Event → M B) :
  keeps P (Event_save env ev') → keeps P (k ev') →
  keeps P (bind (bind (Event_save env ev') (fun _ => ret ev')) k).
Proof.
  intros Hsave Hk s o s' Hrun Hs. unfold bind at 1 2 in Hrun.
  destruct (Event_save env ev' s) as [[[] | e] s1] eqn:E.
  - eapply Hk; [exact Hrun |]. eapply Hsave; eauto.
  - injection Hrun as <- <-. eapply Hsave; eauto.
Qed.

(** Walks through the control flow of a computation: binds, early returns
    and case distinctions; the calls are left to the hints. *)
Ltac keeps_flow :=
  cbv zeta;
  repeat first
    [ apply keeps_ret
    | apply keeps_throw
    | apply keeps_read
    | apply keeps_after_save; [solve [auto with keeps] |]
    | apply keeps_bind; [solve [auto with keeps] | intros ?]
    | match goal with
      | |- keeps _ (if ?b then _ else _) => destruct b
      | |- keeps _ (match ?x with _ => _ end) => destruct x
      end ].

Section Primitives.
Variable env : Env.
Variable P : Store → Prop.
Hypothesis HP : core_only P.

Lemma keeps_set_progress f s : P s → P (set_progress f s).
Proof. apply HP; reflexivity. Qed.

Lemma keeps_set_referrals f s : P s → P (set_referrals f s).
Proof. apply HP; reflexivity. Qed.

Lemma keeps_Event_findOne_latest uid type since :
  keeps P (Event_findOne_latest env uid type since).
Proof. apply keeps_calling, keeps_read. Qed.

Lemma keeps_Event_countDocuments uid type since :
  keeps P (Event_countDocuments env uid type since).
Proof. apply keeps_calling, keeps_read. Qed.

Lemma keeps_getRuleByAction type : keeps P (getRuleByAction env type).
Proof. apply keeps_calling, keeps_read. Qed.

Hint Resolve keeps_Event_findOne_latest keeps_Event_countDocuments
  keeps_getRuleByAction : keeps.

Lemma keeps_validateEvent type meta : keeps P (validateEvent env type meta).
Proof. unfold validateEvent. keeps_flow. Qed.

Lemma keeps_canUserEarnXP rule uid : keeps P (canUserEarnXP env rule uid).
Proof. unfold canUserEarnXP. keeps_flow. Qed.

Lemma keeps_checkDailyLimit rule uid : keeps P (checkDailyLimit env rule uid).
Proof. unfold checkDailyLimit. keeps_flow. Qed.

Lemma keeps_getTransactionReceipt hash chain_id :
  keeps P (getTransactionReceipt env hash chain_id).
Proof.
  unfold getTransactionReceipt. destruct (negb _); [apply keeps_throw |].
  apply keeps_calling, keeps_ret.
Qed.
Hint Resolve keeps_getTransactionReceipt : keeps.

Lemma keeps_verifyTransaction hash chain_id expected :
  keeps P (verifyTransaction env hash chain_id expected).
Proof.
  apply keeps_try_catch; [| intros; apply keeps_ret]. keeps_flow.
Qed.
Hint Resolve keeps_verifyTransaction : keeps.

Lemma keeps_verifyOnchainEvent meta : keeps P (verifyOnchainEvent env meta).
Proof.
  apply keeps_try_catch; [| intros; apply keeps_ret]. keeps_flow.
Qed.

Lemma keeps_Quest_find_active type : keeps P (Quest_find_active env type).
Proof. apply keeps_calling, keeps_read. Qed.

Lemma keeps_QuestProgress_getOrCreate uid qid a b :
  keeps P (QuestProgress_getOrCreate env uid qid a b).
Proof.
  apply keeps_calling. intros s o s' Hrun Hs. cbv zeta in Hrun.
  destruct (find _ (progress s)); injection Hrun as <- <-; auto using keeps_set_progress.
Qed.

Lemma keeps_QuestProgress_updateProgress p target delta :
  keeps P (QuestProgress_updateProgress env p target delta).
Proof.
  apply keeps_calling. intros s o s' [= <- <-] Hs. auto using keeps_set_progress.
Qed.

Lemma keeps_advance_quests uid l : keeps P (advance_quests env uid l).
Proof.
  induction l as [| q l IH]; simpl; [apply keeps_ret |].
  destruct (match cadence q with one_time => _ | _ => _ end) as [a b].
  apply keeps_bind; [apply keeps_QuestProgress_getOrCreate |]. intros p.
  apply keeps_bind; [apply keeps_QuestProgress_updateProgress |]. intros _.
  exact IH.
Qed.

Lemma keeps_updateQuestProgress uid type eid :
  keeps P (updateQuestProgress env uid type eid).
Proof.
  apply keeps_try_catch; [| intros; apply keeps_ret].
  apply keeps_bind; [apply keeps_Quest_find_active |].
  intros l. apply keeps_advance_quests.
Qed.

Lemma keeps_Referral_findOne_invitee invitee :
  keeps P (Referral_findOne_invitee env invitee).
Proof. apply keeps_calling, keeps_read. Qed.

Lemma keeps_Referral_create inviter invitee refCode :
  keeps P (Referral_create env inviter invitee refCode).
Proof.
  apply keeps_calling. intros s o s' Hrun Hs. cbv zeta in Hrun.
  destruct (existsb _ (referrals s)); injection Hrun as <- <-; [assumption |].
  revert Hs. apply HP; reflexivity.
Qed.

Lemma keeps_Referral_save r : keeps P (Referral_save env r).
Proof. apply keeps_calling, keeps_modify. auto using keeps_set_referrals. Qed.

Lemma keeps_createReferral inviter invitee refCode :
  keeps P (createReferral env inviter invitee refCode).
Proof.
  apply keeps_try_catch.
  - apply keeps_bind; [apply keeps_Referral_findOne_invitee |].
    intros [r |]; [apply keeps_throw |].
    apply keeps_bind; [apply keeps_Referral_create | intros; apply keeps_ret].
  - intros e. destruct (has_code e 11000); apply keeps_throw.
Qed.
End Primitives.

(** Writes to the events keep what reads the users and the ledger. *)
Section EventWrites.
Variable env : Env.
Variable P : Store → Prop.
Hypothesis HP : ledger_only P.

Lemma keeps_Event_createEvent uid type meta key :
  keeps P (Event_createEvent env uid type meta key).
Proof.
  apply keeps_calling. intros s o s' Hrun Hs. cbv zeta in Hrun.
  destruct (existsb _ (events s)); injection Hrun as <- <-; [assumption |].
  revert Hs. apply HP; reflexivity.
Qed.

Lemma keeps_Event_save ev : keeps P (Event_save env ev).
Proof. apply keeps_calling, keeps_modify. intros s. apply HP; reflexivity. Qed.
End EventWrites.

(** Writes to the users and the ledger keep what reads the events. *)
Lemma keeps_addXP_events env P uid delta rsn desc meta eid :
  events_only P → keeps P (addXP env uid delta rsn desc meta eid).
Proof.
  intros HP. unfold addXP.
  apply keeps_bind; [apply keeps_calling, keeps_read |]. intros [u |]; [| apply keeps_throw].
  cbv zeta. destruct (_ <? 0); [apply keeps_throw |].
  apply keeps_bind.
  { apply keeps_calling. destruct (negb _); [apply keeps_throw |].
    destruct (_ <? 0); [apply keeps_throw |].
    intros s o s' [= <- <-]. apply HP; reflexivity. }
  intros entry. apply keeps_bind; [| intros; apply keeps_ret].
  apply keeps_calling, keeps_modify. intros s. apply HP; reflexivity.
Qed.

#[export] Hint Resolve keeps_Event_createEvent keeps_Event_save
  keeps_Event_findOne_latest keeps_Event_countDocuments keeps_getRuleByAction
  keeps_validateEvent keeps_canUserEarnXP keeps_checkDailyLimit
  keeps_verifyOnchainEvent keeps_updateQuestProgress keeps_Referral_save
  keeps_createReferral keeps_addXP_events
  ledger_only_core_only events_only_core_only
  ledger_consistent_ledger_only ledger_sound_ledger_only same_ledger_ledger_only
  submitted_events_only : keeps.

(** ** The ledger append *)

Lemma calculateTotalXP_app uid l1 l2 :
  calculateTotalXP uid (l1 ++ l2) = calculateTotalXP uid l1 + calculateTotalXP uid l2.
Proof. induction l1 as [| e l1 IH]; simpl; [reflexivity | rewrite IH; lia]. Qed.

(** [addXP], path by path. *)
Lemma addXP_paths env uid delta rsn desc meta eid s :
  addXP env uid delta rsn desc meta eid s =
  match fault env OpUserFind with
  | Some e => (Throw e, s)
  | None =>
      match users s !! uid with
      | None => (Throw (new_Error "User not found"), s)
      | Some u =>
          if totalXP u + delta <? 0 then (Throw (new_Error "Insufficient XP balance"), s)
          else
            match fault env OpLedgerCreate with
            | Some e => (Throw e, s)
            | None =>
                if in_enum rsn reason_enum then
                  let entry := appended_entry s uid delta rsn desc meta eid in
                  match fault env OpUserUpdate with
                  | Some e => (Throw e, after_append s entry)
                  | None => (Return entry,
                             after_update (after_append s entry) uid (totalXP u + delta))
                  end
                else
                  (Throw (new_Error ("XPLedger validation failed: reason: `" +:+ rsn +:+
                                     "` is not a valid enum value for path `reason`.")), s)
            end
      end
  end.
Proof.
  unfold addXP, bind, User_findById, XPLedger_create, User_findByIdAndUpdate_totalXP,
    calling, appended_entry, balance_of, throw.
  destruct (fault env OpUserFind); [reflexivity |].
  destruct (users s !! uid) as [u |] eqn:Hu; [| reflexivity].
  destruct (totalXP u + delta <? 0) eqn:Hneg; [reflexivity |].
  destruct (fault env OpLedgerCreate); [reflexivity |].
  destruct (in_enum rsn reason_enum); simpl; [| reflexivity].
  destruct (fault env OpUserUpdate); reflexivity.
Qed.

Lemma split_last {A} (l pre post : list A) (x e : A) :
  l ++ [x] = pre ++ e :: post →
  (pre = l ∧ e = x ∧ post = []) ∨ (∃ post', post = post' ++ [x] ∧ l = pre ++ e :: post').
Proof.
  intros H. destruct post as [| y post _] using rev_ind.
  - left. apply app_inj_tail in H as [-> ->]. auto.
  - right. exists post.
    rewrite app_comm_cons, app_assoc in H. apply app_inj_tail in H as [-> ->]. auto.
Qed.

(** Appending the entry and writing the balance it records keeps the
    ledger consistent. *)
Lemma append_sound s uid u delta rsn desc meta eid :
  users s !! uid = Some u →
  ledger_sound s →
  ledger_sound
    (after_update (after_append s (appended_entry s uid delta rsn desc meta eid))
                  uid (totalXP u + delta)).
Proof.
  intros Hu [[Hsum Hchain] Hown]. split; [split |].
  - intros uid' u'. simpl. rewrite calculateTotalXP_app. simpl.
    destruct (decide (uid = uid')) as [<- | Hne].
    + rewrite lookup_alter_eq, Hu. simpl. intros [= <-]. simpl.
      rewrite Nat.eqb_refl, (Hsum _ _ Hu). lia.
    + rewrite lookup_alter_ne by done. intros Hu'.
      rewrite (proj2 (Nat.eqb_neq uid uid')) by done. rewrite (Hsum _ _ Hu'). lia.
  - intros pre e post. simpl. intros H.
    apply split_last in H as [(-> & -> & _) | (post' & _ & H)].
    + simpl. unfold balance_of. rewrite Hu, (Hsum _ _ Hu). reflexivity.
    + eapply Hchain; eauto.
  - intros e. simpl. rewrite in_app_iff. intros [Hin | [<- | []]].
    + destruct (decide (uid = userId e)) as [<- | Hne].
      * rewrite lookup_alter_eq, Hu. eauto.
      * rewrite lookup_alter_ne by done. auto.
    + simpl. rewrite lookup_alter_eq, Hu. eauto.
Qed.

Lemma keeps_addXP_sound env uid delta rsn desc meta eid :
  fault env OpUserUpdate = None →
  keeps ledger_sound (addXP env uid delta rsn desc meta eid).
Proof.
  intros Hquiet s o s' Hrun Hinv. rewrite addXP_paths, Hquiet in Hrun.
  destruct (fault env OpUserFind); [injection Hrun as <- <-; exact Hinv |].
  destruct (users s !! uid) as [u |] eqn:Hu; [| injection Hrun as <- <-; exact Hinv].
  destruct (_ <? 0); [injection Hrun as <- <-; exact Hinv |].
  destruct (fault env OpLedgerCreate); [injection Hrun as <- <-; exact Hinv |].
  destruct (in_enum _ _); injection Hrun as <- <-; [| exact Hinv].
  apply append_sound; assumption.
Qed.

#[export] Hint Resolve keeps_addXP_sound : keeps.

Lemma keeps_processEvent_sound env uid type meta dedupKey :
  fault env OpUserUpdate = None →
  keeps ledger_sound (processEvent env uid type meta dedupKey).
Proof.
  intros Hquiet. apply keeps_try_catch.
  - unfold processEvent_try, processEvent_recorded, markProcessed, markVerified, markFailed.
    keeps_flow.
  - intros e. keeps_flow.
Qed.

Lemma keeps_distributeRewards_sound env r inviterXP inviteeXP :
  fault env OpUserUpdate = None →
  keeps ledger_sound (distributeRewards env r inviterXP inviteeXP).
Proof. intros Hquiet. unfold distributeRewards. keeps_flow. Qed.

Lemma no_entries_no_sum uid l :
  (∀ e, In e l → userId e ≠ uid) → calculateTotalXP uid l = 0.
Proof.
  induction l as [| e l IH]; intros H; simpl; [reflexivity |].
  rewrite IH by (intros; apply H; right; assumption).
  rewrite (proj2 (Nat.eqb_neq (userId e) uid)); [reflexivity |]. apply H. left. reflexivity.
Qed.

Lemma createUser_sound uid s : ledger_sound s → ledger_sound (createUser uid s).
Proof.
  intros [[Hsum Hchain] Hown]. unfold createUser.
  destruct (users s !! uid) eqn:Hu; [repeat split; assumption |].
  split; [split; [| exact Hchain] |].
  - intros uid' u'. simpl. destruct (decide (uid = uid')) as [<- | Hne].
    + rewrite lookup_insert_eq. intros [= <-]. simpl.
      symmetry. apply no_entries_no_sum. intros e Hin Heq.
      destruct (Hown e Hin) as [u Hu']. rewrite Heq in Hu'. congruence.
    + rewrite lookup_insert_ne by done. apply Hsum.
  - intros e Hin. simpl. destruct (decide (uid = userId e)) as [<- | Hne].
    + rewrite lookup_insert_eq. eauto.
    + rewrite lookup_insert_ne by done. auto.
Qed.

Lemma login_sound env uid s : ledger_sound s → ledger_sound (login env uid s).
Proof.
  intros [[Hsum Hchain] Hown]. split; [split; [| exact Hchain] |].
  - intros uid' u'. simpl. destruct (decide (uid = uid')) as [<- | Hne].
    + rewrite lookup_alter_eq. destruct (users s !! uid) as [u |] eqn:Hu; [| discriminate].
      simpl. intros [= <-]. simpl. apply Hsum, Hu.
    + rewrite lookup_alter_ne by done. apply Hsum.
  - intros e Hin. simpl. destruct (decide (uid = userId e)) as [-> | Hne].
    + rewrite lookup_alter_eq. destruct (Hown e Hin) as [u Hu]. rewrite Hu. simpl. eauto.
    + rewrite lookup_alter_ne by done. auto.
Qed.

Lemma seedRule_sound rule s : ledger_sound s → ledger_sound (seedRule rule s).
Proof.
  unfold seedRule. destruct (existsb _ _); [auto |].
  apply ledger_sound_ledger_only; reflexivity.
Qed.

Lemma keeps_checkVerification env P r :
  core_only P → keeps P (checkVerification env r).
Proof.
  intros HP. unfold checkVerification.
  apply keeps_bind; [apply keeps_calling, keeps_read |]. intros [u |]; [| apply keeps_ret].
  cbv zeta. apply keeps_bind.
  { destruct (negb _); [| apply keeps_ret].
    apply keeps_bind; [apply keeps_calling, keeps_read | intros; apply keeps_ret]. }
  intros b. destruct (_ && is_ref_pending _); [| apply keeps_ret].
  apply keeps_bind; [auto with keeps | intros; apply keeps_ret].
Qed.

Lemma serve_sound s er :
  fault (fst er) OpUserUpdate = None → ledger_sound s → ledger_sound (serve s er).
Proof.
  destruct er as [env r]. simpl. intros Hquiet Hs. destruct r; simpl.
  - apply createUser_sound, Hs.
  - apply login_sound, Hs.
  - apply seedRule_sound, Hs.
  - destruct (stored_referral s rid); [| exact Hs].
    destruct (checkVerification _ _ s) eqn:E.
    eapply (keeps_checkVerification env ledger_sound); eauto with keeps.
  - destruct (addXP _ _ _ _ _ _ _ s) eqn:E. eapply keeps_addXP_sound; eauto.
  - destruct (processEvent _ _ _ _ _ s) eqn:E. eapply keeps_processEvent_sound; eauto.
  - destruct (createReferral _ _ _ _ s) eqn:E.
    eapply (keeps_createReferral env ledger_sound); eauto with keeps.
  - destruct (stored_referral s rid); [| exact Hs].
    destruct (distributeRewards _ _ _ _ s) eqn:E.
    eapply keeps_distributeRewards_sound; eauto.
Qed.

Lemma fresh_store_sound s : users s = ∅ → ledger s = [] → ledger_sound s.
Proof.
  intros Hu Hl. unfold ledger_sound, ledger_consistent, entries_owned.
  rewrite Hu, Hl. split; [split |].
  - intros uid u. rewrite lookup_empty. discriminate.
  - intros [| ] e post; discriminate.
  - intros e [].
Qed.

Lemma serve_all_sound trace s :
  Forall (fun er => fault (fst er) OpUserUpdate = None) trace →
  ledger_sound s → ledger_sound (serve_all trace s).
Proof.
  revert s. induction trace as [| er trace IH]; intros s Hq Hs; [exact Hs |].
  inversion Hq; subst. simpl. apply IH; [assumption |]. apply serve_sound; assumption.
Qed.


(** C3.  No negative balance: when the balance of the user plus [deltaXP]
    is negative, [addXP] throws and leaves the store as it was: no entry is
    created and [totalXP] is unchanged.  The error is "Insufficient XP
    balance" unless the read of the user itself was rejected. *)
Theorem addXP_negative_balance_rejected env s uid u delta rsn desc meta eid :
  users s !! uid = Some u →
  totalXP u + delta < 0 →
  ∃ e, addXP env uid delta rsn desc meta eid s = (Throw e, s) ∧
       (fault env OpUserFind = None → e = new_Error "Insufficient XP balance").
Proof.
  intros Hu Hneg. rewrite addXP_paths, Hu.
  rewrite (proj2 (Z.ltb_lt _ _) Hneg).
  destruct (fault env OpUserFind) as [e |]; eauto. exists e. split; [reflexivity | discriminate].
Qed.

(** ** Concurrent callers *)

Lemma run_schedule_app env a b p :
  run_schedule env (a ++ b) p = run_schedule env b (run_schedule env a p).
Proof. apply fold_left_app. Qed.

#[local] Arguments in_enum : simpl never.

(** Once a caller is settled, the further turns it is given change nothing:
    the pool keeps the settled call at its index. *)
Ltac settled_turns Hlen :=
  simpl;
  repeat (rewrite ?list_insert_insert_eq; rewrite list_lookup_insert_eq by exact Hlen; simpl);
  rewrite ?list_insert_insert_eq; reflexivity.

(** A caller that is served three times in a row, with nobody in between,
    does what [addXP] does. *)
Lemma resume_thrice env (cs : list Call) s i uid delta rsn desc meta eid :
  cs !! i = Some (AwaitFindById uid delta rsn desc meta eid) →
  run_schedule env [i; i; i] (cs, s) =
  (<[i := Settled (fst (addXP env uid delta rsn desc meta eid s))]> cs,
   snd (addXP env uid delta rsn desc meta eid s)).
Proof.
  intros Hi. assert (Hlen : (i < length cs)%nat) by (eapply lookup_lt_Some; eauto).
  rewrite addXP_paths.
  unfold run_schedule, resume_at; simpl. rewrite Hi. simpl.
  unfold User_findById, calling.
  destruct (fault env OpUserFind); [settled_turns Hlen |].
  destruct (users s !! uid) as [u |] eqn:Hu; [| settled_turns Hlen].
  destruct (totalXP u + delta <? 0) eqn:Hneg; [settled_turns Hlen |].
  simpl. rewrite list_lookup_insert_eq by done. simpl.
  unfold XPLedger_create, calling.
  destruct (fault env OpLedgerCreate); [settled_turns Hlen |].
  destruct (in_enum rsn reason_enum); simpl; [| settled_turns Hlen].
  rewrite Hneg. simpl.
  rewrite list_insert_insert_eq, list_lookup_insert_eq by done. simpl.
  unfold User_findByIdAndUpdate_totalXP, calling, appended_entry, balance_of.
  rewrite Hu.
  destruct (fault env OpUserUpdate); simpl; rewrite list_insert_insert_eq; reflexivity.
Qed.

Section Serial.
Variable env : Env.
Variables (uid : ObjectId) (rsn : string).
Hypothesis Hfind : fault env OpUserFind = None.
Hypothesis Hcreate : fault env OpLedgerCreate = None.
Hypothesis Hupdate : fault env OpUserUpdate = None.
Hypothesis Hrsn : in_enum rsn reason_enum = true.

Let fresh : Call := AwaitFindById uid 1 rsn "" (mkLedgerMeta None None) None.

(** One award of 1 XP, run alone on a non-negative balance. *)
Lemma award_one s u :
  users s !! uid = Some u → 0 ≤ totalXP u →
  ∃ entry s',
    addXP env uid 1 rsn "" (mkLedgerMeta None None) None s = (Return entry, s') ∧
    users s' !! uid = Some (mkUser (totalXP u + 1) (firstLoginAt u)).
Proof.
  intros Hu Hpos. rewrite addXP_paths, Hfind, Hu, Hcreate, Hrsn, Hupdate.
  rewrite (proj2 (Z.ltb_ge _ _)) by lia.
  eexists _, _. split; [reflexivity |].
  simpl. rewrite lookup_alter_eq, Hu. reflexivity.
Qed.

Lemma serial_awards order : ∀ (cs : list Call) s u,
  NoDup order →
  (∀ i, i ∈ order → cs !! i = Some fresh) →
  users s !! uid = Some u → 0 ≤ totalXP u →
  ∃ cs' s',
    run_schedule env (serial order) (cs, s) = (cs', s') ∧
    length cs' = length cs ∧
    (∀ i, i ∈ order → ∃ c, cs' !! i = Some c ∧ is_fulfilled c = true) ∧
    (∀ i, i ∉ order → cs' !! i = cs !! i) ∧
    balance_of s' uid = totalXP u + Z.of_nat (length order).
Proof.
  induction order as [| i order IH]; intros cs s u Hnd Hfresh Hu Hpos.
  - exists cs, s. simpl. unfold balance_of. rewrite Hu.
    repeat split; [intros i Hi; inversion Hi | lia].
  - apply NoDup_cons in Hnd as [Hi Hnd].
    assert (Hci : cs !! i = Some fresh) by (apply Hfresh; left).
    assert (Hlen : (i < length cs)%nat) by (eapply lookup_lt_Some; eauto).
    destruct (award_one s u Hu Hpos) as (entry & s1 & Hrun & Hu1).
    change (serial (i :: order)) with ([i; i; i] ++ serial order).
    rewrite run_schedule_app. unfold fresh in Hci. rewrite (resume_thrice _ _ _ _ _ _ _ _ _ _ Hci).
    rewrite Hrun. simpl fst. simpl snd.
    destruct (IH (<[i := Settled (Return entry)]> cs) s1
                 (mkUser (totalXP u + 1) (firstLoginAt u)) Hnd) as
      (cs' & s' & Hrun' & Hlen' & Hdone & Hrest & Hbal); [| exact Hu1 | simpl; lia |].
    { intros j Hj. rewrite list_lookup_insert_ne by (intros ->; contradiction).
      apply Hfresh. right. exact Hj. }
    exists cs', s'. rewrite Hrun'. split; [reflexivity |].
    split; [rewrite Hlen'; apply length_insert |].
    split; [| split].
    + intros j Hj. apply elem_of_cons in Hj as [-> | Hj]; [| apply Hdone, Hj].
      rewrite (Hrest i Hi), list_lookup_insert_eq by done. eauto.
    + intros j Hj. apply not_elem_of_cons in Hj as [Hne Hj].
      rewrite (Hrest j Hj). apply list_lookup_insert_ne. congruence.
    + rewrite Hbal. simpl totalXP. simpl length. lia.
Qed.
End Serial.

(** Serving the callers [0 .. n-1] in turn is one sweep over the pool. *)
Lemma run_seq_sweep env (cs pre : list Call) s :
  run_schedule env (seq (length pre) (length cs)) (pre ++ cs, s) =
  (pre ++ fst (sweep env cs s), snd (sweep env cs s)).
Proof.
  revert pre s. induction cs as [| c cs IH]; intros pre s; simpl.
  - reflexivity.
  - unfold resume_at at 1. simpl.
    rewrite lookup_app_r by lia. rewrite Nat.sub_diag. simpl.
    destruct (resume env c s) as [c' s1].
    replace (<[length pre := c']> (pre ++ c :: cs)) with ((pre ++ [c']) ++ cs).
    2:{ rewrite insert_app_r_alt by lia. rewrite Nat.sub_diag. simpl.
        rewrite <- app_assoc. reflexivity. }
    replace (S (length pre)) with (length (pre ++ [c'])) by (rewrite length_app; simpl; lia).
    fold (run_schedule env (seq (length (pre ++ [c'])) (length cs)) ((pre ++ [c']) ++ cs, s1)).
    rewrite IH. destruct (sweep env cs s1) as [cs'' s2]. simpl.
    rewrite <- app_assoc. reflexivity.
Qed.

Lemma sweep_length env cs s : length (fst (sweep env cs s)) = length cs.
Proof.
  revert s. induction cs as [| c cs IH]; intros s; simpl; [reflexivity |].
  destruct (resume env c s) as [c' s1]. specialize (IH s1).
  destruct (sweep env cs s1) as [cs'' s2]. simpl in *. lia.
Qed.

Lemma lockstep_sweeps env (cs : list Call) s :
  run_schedule env (lockstep (length cs)) (cs, s) =
  let '(cs1, s1) := sweep env cs s in
  let '(cs2, s2) := sweep env cs1 s1 in
  sweep env cs2 s2.
Proof.
  assert (Hround : ∀ cs0 s0, run_schedule env (seq 0 (length cs0)) (cs0, s0) = sweep env cs0 s0).
  { intros cs0 s0. pose proof (run_seq_sweep env cs0 [] s0) as H. simpl in H.
    rewrite H. destruct (sweep env cs0 s0); reflexivity. }
  unfold lockstep. rewrite !run_schedule_app, Hround.
  pose proof (sweep_length env cs s) as L1.
  destruct (sweep env cs s) as [cs1 s1]. simpl in L1. rewrite <- L1, Hround.
  pose proof (sweep_length env cs1 s1) as L2.
  destruct (sweep env cs1 s1) as [cs2 s2]. simpl in L2. rewrite <- L2, Hround.
  reflexivity.
Qed.

Section Lockstep.
Variable env : Env.
Variables (uid : ObjectId) (rsn : string) (b : Z).
Hypothesis Hfind : fault env OpUserFind = None.
Hypothesis Hcreate : fault env OpLedgerCreate = None.
Hypothesis Hupdate : fault env OpUserUpdate = None.
Hypothesis Hrsn : in_enum rsn reason_enum = true.
Hypothesis Hb : 0 ≤ b.

(** Every caller reads the same balance. *)
Lemma sweep_reads n s u :
  users s !! uid = Some u → totalXP u = b →
  sweep env (callers n uid 1 rsn) s =
  (replicate n (AwaitCreate uid None 1 (b + 1) rsn "" (mkLedgerMeta None None)), s).
Proof.
  intros Hu Hbal. induction n as [| n IH]; simpl; [reflexivity |].
  unfold User_findById, calling. rewrite Hfind, Hu, Hbal.
  rewrite (proj2 (Z.ltb_ge _ _)) by lia.
  unfold callers in IH. rewrite IH. reflexivity.
Qed.

(** Every caller appends its entry, each recording the same balance. *)
Lemma sweep_appends n : ∀ s,
  ∃ cs' s',
    sweep env (replicate n (AwaitCreate uid None 1 (b + 1) rsn "" (mkLedgerMeta None None))) s
      = (cs', s') ∧
    users s' = users s ∧ length cs' = n ∧
    Forall (fun c => ∃ e, c = AwaitUpdate uid (b + 1) e) cs' ∧
    map balanceAfter (ledger s') = map balanceAfter (ledger s) ++ replicate n (b + 1).
Proof.
  induction n as [| n IH]; intros s; simpl.
  - exists [], s. rewrite app_nil_r. auto.
  - unfold XPLedger_create, calling. rewrite Hcreate, Hrsn. simpl.
    rewrite (proj2 (Z.ltb_ge _ _)) by lia.
    match goal with |- context [sweep env _ ?s1] =>
      destruct (IH s1) as (cs' & s' & Hrun & Hu & Hlen & Hall & Hled)
    end.
    rewrite Hrun. eexists _, _. split; [reflexivity |].
    split; [rewrite Hu; reflexivity |]. split; [simpl; lia |].
    split; [constructor; eauto |].
    rewrite Hled. simpl. rewrite map_app, <- app_assoc. reflexivity.
Qed.

(** Every caller writes the balance it computed. *)
Lemma sweep_writes cs : ∀ s,
  Forall (fun c => ∃ e, c = AwaitUpdate uid (b + 1) e) cs →
  ∃ cs' s',
    sweep env cs s = (cs', s') ∧ forallb is_fulfilled cs' = true ∧
    ledger s' = ledger s ∧
    (∀ u, users s !! uid = Some u → cs ≠ [] → balance_of s' uid = b + 1).
Proof.
  induction cs as [| c cs IH]; intros s Hall; simpl.
  - exists [], s. repeat split. intros u _ H. contradiction.
  - inversion Hall as [| ? ? [e ->] Hall']; subst. simpl.
    unfold User_findByIdAndUpdate_totalXP, calling. rewrite Hupdate. simpl.
    match goal with |- context [sweep env cs ?s1] =>
      destruct (IH s1 Hall') as (cs' & s' & Hrun & Hok & Hled & Hbal)
    end.
    rewrite Hrun. eexists _, _. split; [reflexivity |].
    split; [simpl; exact Hok |]. split; [rewrite Hled; reflexivity |].
    intros u Hu _. destruct cs as [| c' cs0].
    + injection Hrun as <- <-. unfold balance_of. simpl.
      rewrite lookup_alter_eq, Hu. reflexivity.
    + eapply Hbal; [| discriminate]. simpl. rewrite lookup_alter_eq, Hu. reflexivity.
Qed.

(** Callers started together: all are fulfilled, all their entries are
    appended, and the balance ends one higher, however many they are. *)
Lemma lockstep_awards n s u :
  users s !! uid = Some u → totalXP u = b → (0 < n)%nat →
  let p := run_schedule env (lockstep n) (callers n uid 1 rsn, s) in
  forallb is_fulfilled (fst p) = true ∧
  map balanceAfter (ledger (snd p)) = map balanceAfter (ledger s) ++ replicate n (b + 1) ∧
  balance_of (snd p) uid = b + 1.
Proof.
  intros Hu Hbal Hn p. subst p.
  replace (lockstep n) with (lockstep (length (callers n uid 1 rsn)))
    by (unfold callers; rewrite length_replicate; reflexivity).
  rewrite lockstep_sweeps, (sweep_reads n s u Hu Hbal).
  destruct (sweep_appends n s) as (cs2 & s2 & Hrun2 & Hu2 & Hlen2 & Hall2 & Hled2).
  rewrite Hrun2.
  destruct (sweep_writes cs2 s2 Hall2) as (cs3 & s3 & Hrun3 & Hok & Hled3 & Hbal3).
  rewrite Hrun3. simpl. split; [exact Hok |]. split; [rewrite Hled3; exact Hled2 |].
  apply (Hbal3 u); [rewrite Hu2; exact Hu |]. destruct cs2; [simpl in Hlen2; lia | discriminate].
Qed.
End Lockstep.

(** C1, as the code has it.  [addXP] holds no lock, opens no transaction and
    does not increment atomically; callers that run one after the other, in
    any order, each to completion, lose nothing: [n] awards of 1 XP to a
    user with a non-negative balance are all fulfilled and leave the balance
    exactly [n] higher. *)
Theorem serial_awards_add_up env s uid u rsn (n : nat) (order : list nat) :
  fault env OpUserFind = None →
  fault env OpLedgerCreate = None →
  fault env OpUserUpdate = None →
  in_enum rsn reason_enum = true →
  users s !! uid = Some u →
  0 ≤ totalXP u →
  order ≡ₚ seq 0 n →
  let p := run_schedule env (serial order) (callers n uid 1 rsn, s) in
  forallb is_fulfilled (fst p) = true ∧
  balance_of (snd p) uid = totalXP u + Z.of_nat n.
Proof.
  intros Hfind Hcreate Hupdate Hrsn Hu Hpos Hperm p.
  destruct (serial_awards env uid rsn Hfind Hcreate Hupdate Hrsn order
              (callers n uid 1 rsn) s u) as (cs' & s' & Hrun & Hlen & Hdone & _ & Hbal);
    try assumption.
  { rewrite Hperm. apply NoDup_seq. }
  { intros i Hi. rewrite Hperm in Hi. apply elem_of_seq in Hi.
    apply lookup_replicate_2. lia. }
  subst p. rewrite Hrun. simpl. split.
  - apply Is_true_true, forallb_True, Forall_lookup. intros i c Hc.
    assert (Hi : (i < n)%nat).
    { apply lookup_lt_Some in Hc. rewrite Hlen in Hc.
      unfold callers in Hc. rewrite length_replicate in Hc. exact Hc. }
    destruct (Hdone i) as (c' & Hc' & Hok).
    { rewrite Hperm. apply elem_of_seq. lia. }
    rewrite Hc in Hc'. injection Hc' as <-. apply Is_true_true. exact Hok.
  - rewrite Hbal. f_equal. f_equal. rewrite Hperm. apply length_seq.
Qed.

(** ** Duplicate submissions *)

Lemma same_submission_with_status uid key ev st why :
  same_submission uid key ev = true → same_submission uid key (with_status ev st why) = true.
Proof. exact id. Qed.

Lemma keeps_Event_save_submitted env uid key ev :
  same_submission uid key ev = true → keeps (submitted uid key) (Event_save env ev).
Proof.
  intros Hev. apply keeps_calling, keeps_modify. intros s. unfold submitted. simpl.
  induction (events s) as [| e l IH]; simpl; [discriminate |].
  destruct (event_id e =? event_id ev)%nat.
  - rewrite Hev. reflexivity.
  - destruct (same_submission uid key e); [reflexivity | exact IH].
Qed.

#[export] Hint Resolve same_submission_with_status keeps_Event_save_submitted : keeps.

Lemma keeps_processEvent_recorded_submitted env uid key type meta ev :
  same_submission uid key ev = true →
  keeps (submitted uid key) (processEvent_recorded env uid type meta ev).
Proof.
  intros Hev. unfold processEvent_recorded, markProcessed, markVerified, markFailed.
  keeps_flow.
Qed.

(** A submission whose insert reaches the database leaves an event of the
    user with the key, whatever becomes of the submission. *)
Lemma submission_recorded env uid type meta key s :
  fault env OpEventCreate = None →
  submitted uid key (snd (processEvent env uid type meta (Some key) s)).
Proof.
  intros Hq. unfold processEvent, try_catch, processEvent_try, bind, Event_createEvent, calling.
  rewrite Hq. cbv zeta.
  destruct (existsb (same_submission uid key) (events s)) eqn:Hdup.
  - simpl. exact Hdup.
  - match goal with |- context [processEvent_recorded ?e ?u ?t ?m ?ev ?s0] =>
      destruct (processEvent_recorded e u t m ev s0) as [o s1] eqn:E;
      assert (Hs1 : submitted uid key s1)
    end.
    { eapply keeps_processEvent_recorded_submitted; [| exact E |].
      - unfold same_submission. simpl. rewrite Nat.eqb_refl, String.eqb_refl. reflexivity.
      - unfold submitted. simpl. rewrite existsb_app. simpl.
        unfold same_submission at 2. simpl. rewrite Nat.eqb_refl, String.eqb_refl.
        apply orb_true_r. }
    destruct o as [r | e]; [exact Hs1 |].
    destruct (includes (message e) "duplicate"); exact Hs1.
Qed.

(** A submission for a user and key that the store already holds is answered
    with the duplicate outcome and changes nothing. *)
Lemma resubmission_rejected env uid type meta key s :
  fault env OpEventCreate = None →
  submitted uid key s →
  processEvent env uid type meta (Some key) s = (Return duplicate_outcome, s).
Proof.
  intros Hq Hdup. unfold processEvent, try_catch, processEvent_try, bind, Event_createEvent, calling.
  rewrite Hq. cbv zeta. unfold submitted in Hdup. rewrite Hdup. reflexivity.
Qed.

(** C4.  Idempotent duplicate submission: when the same user and dedup key
    are submitted twice (both inserts reach the database), the second
    submission resolves to the duplicate outcome (success false, no XP, the
    duplicate message) and leaves the store exactly as the first one left
    it: no ledger entry is added, no balance changes, no side effect runs
    again. *)
Theorem duplicate_submission_awards_once env1 env2 uid type1 meta1 type2 meta2 key s :
  fault env1 OpEventCreate = None →
  fault env2 OpEventCreate = None →
  let s1 := snd (processEvent env1 uid type1 meta1 (Some key) s) in
  processEvent env2 uid type2 meta2 (Some key) s1 = (Return duplicate_outcome, s1) ∧
  success duplicate_outcome = false ∧ xpAwarded duplicate_outcome = 0 ∧
  result_message duplicate_outcome = "Event already processed (duplicate)".
Proof.
  intros H1 H2 s1. split; [| repeat split].
  apply resubmission_rejected; [exact H2 |]. apply submission_recorded. exact H1.
Qed.

(** ** Rule validation *)

Lemma validateEvent_found env type meta s rule :
  fault env OpRuleFind = None →
  find (fun r => String.eqb (actionType r) type && isActive r) (rules s) = Some rule →
  validateEvent env type meta s = (Return (validate_against rule meta), s).
Proof.
  intros Hq Hfind. unfold validateEvent, bind, getRuleByAction, calling.
  rewrite Hq, Hfind. reflexivity.
Qed.

Lemma includes_number_In l c : includes_number l (Some c) = true ↔ In c l.
Proof.
  unfold includes_number. rewrite existsb_exists. split.
  - intros (x & Hin & Heq). apply Z.eqb_eq in Heq. subst. exact Hin.
  - intros Hin. exists c. split; [exact Hin | apply Z.eqb_refl].
Qed.

(** C6, as the code has it.  Under an active rule with a non-empty chain
    allow-list, an event that carries a chain id outside the list is
    rejected with "Invalid chain ID", so a valid event that carries a chain
    id carries one of the list; the check is guarded by the presence of the
    chain id, and an event without one (or with 0) is validated as if the
    rule had no allow-list. *)
Theorem validateEvent_chain_allowlist env s type rule meta :
  fault env OpRuleFind = None →
  find (fun r => String.eqb (actionType r) type && isActive r) (rules s) = Some rule →
  validChains rule ≠ [] →
  (∀ c, chainId meta = Some c → c ≠ 0 → ¬ In c (validChains rule) →
        validateEvent env type meta s = (Return (Invalid "Invalid chain ID"), s)) ∧
  (∀ c v, chainId meta = Some c → c ≠ 0 →
          validateEvent env type meta s = (Return v, s) → valid v = true →
          In c (validChains rule)) ∧
  (truthy_number (chainId meta) = false →
   ∃ v, validateEvent env type meta s = (Return v, s) ∧
        valid v = valid (validate_against (without_chains rule) meta)).
Proof.
  intros Hq Hfind Hne.
  assert (Hlen : (0 <? length (validChains rule))%nat = true).
  { destruct (validChains rule); [contradiction | reflexivity]. }
  assert (Hout : ∀ c, chainId meta = Some c → c ≠ 0 → ¬ In c (validChains rule) →
                      validate_against rule meta = Invalid "Invalid chain ID").
  { intros c Hc Hc0 Hnin. unfold validate_against. rewrite Hlen, Hc. simpl.
    rewrite (proj2 (Z.eqb_neq c 0) Hc0). simpl.
    destruct (existsb (Z.eqb c) (validChains rule)) eqn:Hex; [| reflexivity].
    exfalso. apply Hnin. apply includes_number_In. exact Hex. }
  rewrite (validateEvent_found _ _ _ _ _ Hq Hfind). split; [| split].
  - intros c Hc Hc0 Hnin. rewrite (Hout c Hc Hc0 Hnin). reflexivity.
  - intros c v Hc Hc0 [= <-] Hv.
    destruct (in_dec Z.eq_dec c (validChains rule)) as [Hin | Hnin]; [exact Hin |].
    rewrite (Hout c Hc Hc0 Hnin) in Hv. discriminate.
  - intros Hfalsy. eexists. split; [reflexivity |].
    unfold validate_against. rewrite Hfalsy, andb_false_r. simpl.
    destruct (_ && truthy_string (protocol meta)); [destruct (negb _) |];
      try reflexivity;
      (destruct (_ && truthy_string (amount meta)); [destruct (Number_lt _ _) |]; reflexivity).
Qed.

(** ** Cooldown *)

Lemma latest_spec l :
  match latest l with
  | Some e => In e l ∧ ∀ e', In e' l → event_occurredAt e' ≤ event_occurredAt e
  | None => l = []
  end.
Proof.
  induction l as [| x l IH]; simpl; [reflexivity |].
  destruct (latest l) as [e |].
  - destruct IH as [Hin Hmax].
    destruct (event_occurredAt x <? event_occurredAt e) eqn:Hlt.
    + apply Z.ltb_lt in Hlt. split; [right; exact Hin |].
      intros e' [<- | He']; [lia | auto].
    + apply Z.ltb_ge in Hlt. split; [left; reflexivity |].
      intros e' [<- | He']; [lia |]. specialize (Hmax e' He'). lia.
  - subst l. split; [left; reflexivity |]. intros e' [<- | []]. lia.
Qed.

Lemma counts_for_successful uid type since l :
  List.filter (counts_for uid type since) (successful l) =
  List.filter (counts_for uid type since) l.
Proof.
  unfold successful. induction l as [| e l IH]; simpl; [reflexivity |].
  destruct (is_success_status (event_status e)) eqn:Hs; simpl.
  - rewrite IH. reflexivity.
  - rewrite IH. unfold counts_for. rewrite Hs, andb_false_r. reflexivity.
Qed.


(** ** Worked requests *)

(** The scenario of the specification: a deposit of 15 to the vault earns
    100 XP, a deposit of 5 is refused. *)
Example deposit_scenario :
  (∃ ev s', processEvent (demo_env (Some vault_address)) 1%nat "deposit" (deposit_of "15") None
                         demo_store
            = (Return (mkResult true (Some ev) 100 "Successfully earned 100 XP" None), s')
            ∧ balance_of s' 1%nat = 100) ∧
  (∃ ev s', processEvent (demo_env (Some vault_address)) 1%nat "deposit" (deposit_of "5") None
                         demo_store
            = (Return (mkResult false (Some ev) 0 "Minimum amount is 10" None), s')
            ∧ balance_of s' 1%nat = 0).
Proof. split; eexists _, _; split; vm_compute; reflexivity. Qed.

(** C1, as stated, fails: fifty callers started together each read the
    balance 0 before any of them writes; all fifty are fulfilled, fifty
    entries are appended, and the balance ends at 1, not 50. *)
Lemma concurrent_awards_lose_updates :
  let p := run_schedule (demo_env None) (lockstep 50)
                        (callers 50 1%nat 1 "other", demo_store) in
  forallb is_fulfilled (fst p) = true ∧
  length (ledger (snd p)) = 50%nat ∧
  balance_of (snd p) 1%nat = 1 ∧
  balance_of (snd p) 1%nat ≠ balance_of demo_store 1%nat + 50.
Proof. vm_compute. repeat split. discriminate. Qed.

(** C5 at an input on which the code and the claim part: the rule asks for
    at least "10"; the amount "9.9999999999999999999" is below it as a
    decimal, but [parseFloat] rounds it to the double 10 and the event
    passes. *)
Theorem validateEvent_minimum_is_floating_point :
  validateEvent (demo_env None) "deposit" (deposit_of "9.9999999999999999999") demo_store
    = (Return (Valid deposit_rule), demo_store) ∧
  exact_decimal_lt "9.9999999999999999999" "10" = Some true ∧
  parseFloat "9.9999999999999999999" = parseFloat "10".
Proof. vm_compute. repeat split. Qed.

(** The same on amounts in base units: with a minimum of
    1000000000000000001 the amount 1000000000000000000 passes, both being
    the double 1e18. *)
Example validateEvent_minimum_in_base_units :
  validate_against (mkRule "deposit" 100 None (Some "1000000000000000001") [] [] 0 true)
                   (deposit_of "1000000000000000000")
    = Valid (mkRule "deposit" 100 None (Some "1000000000000000001") [] [] 0 true) ∧
  exact_decimal_lt "1000000000000000000" "1000000000000000001" = Some true.
Proof. vm_compute. split; reflexivity. Qed.

(** C6, as stated, fails: under the deposit rule, whose allow-list is
    [84532], an event without a chain id passes validation. *)
Lemma validateEvent_missing_chain_passes :
  validChains deposit_rule ≠ [] ∧ chainId no_metadata = None ∧
  validateEvent (demo_env None) "deposit" no_metadata demo_store
    = (Return (Valid deposit_rule), demo_store).
Proof. vm_compute. repeat split. discriminate. Qed.

(** ** On-chain verification *)

Lemma returns_ret {A} P (a : A) (φ : A → Prop) : φ a → returns P (ret a) φ.
Proof. intros Ha s o s' [= <- <-] Hs. split; [exact Hs |]. intros a' [= <-]. exact Ha. Qed.

Lemma returns_throw {A} P e (φ : A → Prop) : returns P (throw e) φ.
Proof. intros s o s' [= <- <-] Hs. split; [exact Hs | discriminate]. Qed.

Lemma returns_bind {A B} P (m : M A) (k : A → M B) (φ : B → Prop) :
  keeps P m → (∀ a, returns P (k a) φ) → returns P (bind m k) φ.
Proof.
  intros Hm Hk s o s' Hrun Hs. unfold bind in Hrun.
  destruct (m s) as [[a | e] s1] eqn:E.
  - eapply Hk; [exact Hrun |]. eapply Hm; eauto.
  - injection Hrun as <- <-. split; [eapply Hm; eauto | discriminate].
Qed.

Lemma returns_after_save {B} P env (ev' : Event) (k : Event → M B) (φ : B → Prop) :
  keeps P (Event_save env ev') → returns P (k ev') φ →
  returns P (bind (bind (Event_save env ev') (fun _ => ret ev')) k) φ.
Proof.
  intros Hsave Hk s o s' Hrun Hs. unfold bind at 1 2 in Hrun.
  destruct (Event_save env ev' s) as [[[] | e] s1] eqn:E.
  - eapply Hk; [exact Hrun |]. eapply Hsave; eauto.
  - injection Hrun as <- <-. split; [eapply Hsave; eauto | discriminate].
Qed.

(** A call that always resolves, without writing, to a value with [ψ]. *)
Lemma returns_bind_pure {A B} P (m : M A) (k : A → M B) (ψ : A → Prop) (φ : B → Prop) :
  (∀ s, ∃ a, m s = (Return a, s) ∧ ψ a) →
  (∀ a, ψ a → returns P (k a) φ) → returns P (bind m k) φ.
Proof.
  intros Hm Hk s o s' Hrun Hs. unfold bind in Hrun.
  destruct (Hm s) as (a & Ea & Ha). rewrite Ea in Hrun. eapply Hk; eauto.
Qed.

Lemma returns_try_catch {A} P (m : M A) h (φ : A → Prop) :
  returns P m φ → (∀ e, returns P (h e) φ) → returns P (try_catch m h) φ.
Proof.
  intros Hm Hh s o s' Hrun Hs. unfold try_catch in Hrun.
  destruct (m s) as [[a | e] s1] eqn:E.
  - injection Hrun as <- <-. eapply Hm; eauto.
  - eapply Hh; [exact Hrun |]. eapply Hm; eauto.
Qed.

(** [verifyTransaction] always resolves and writes nothing; when it
    verifies, the receipt is the one of the chain, the transaction
    succeeded, and its destination is the expected contract if one was
    given. *)
Lemma verifyTransaction_resolves env hash chain_id expected s :
  ∃ v, verifyTransaction env hash chain_id expected s = (Return v, s) ∧
       (verified v = true →
        ∃ h c r, hash = Some h ∧ chain_id = Some c ∧ chain env h c = Some r ∧
                 verification_receipt v = Some r ∧ receipt_status r = 1).
Proof.
  unfold verifyTransaction, try_catch, bind, getTransactionReceipt, calling.
  destruct (negb (includes_number (providers env) chain_id)).
  { eexists. split; [reflexivity | discriminate]. }
  destruct (fault env OpReceipt).
  { eexists. split; [reflexivity | discriminate]. }
  unfold ret.
  destruct hash as [h |], chain_id as [c |];
    try (eexists; split; [reflexivity | discriminate]).
  destruct (chain env h c) as [r |] eqn:Hr; [| eexists; split; [reflexivity | discriminate]].
  destruct (receipt_status r =? 1) eqn:Hst; simpl;
    [| eexists; split; [reflexivity | discriminate]].
  apply Z.eqb_eq in Hst.
  destruct (truthy_string expected && _);
    eexists; (split; [reflexivity |]); [discriminate |].
  intros _. exists h, c, r. auto.
Qed.

(** [verifyOnchainEvent] always resolves and writes nothing; when it
    verifies, the transaction is on the chain, it succeeded, and its
    destination, if the receipt has one, is a contract of the registry. *)
Lemma verifyOnchainEvent_resolves env meta s :
  ∃ v, verifyOnchainEvent env meta s = (Return v, s) ∧
       (verified v = true →
        ∃ h c r, txHash meta = Some h ∧ chainId meta = Some c ∧ chain env h c = Some r ∧
                 receipt_status r = 1 ∧
                 (truthy_string (receipt_to r) = true →
                  isNuviaContract env (receipt_to r) = true)).
Proof.
  unfold verifyOnchainEvent, try_catch, bind. cbv zeta.
  match goal with |- context [verifyTransaction ?e ?h ?c ?x s] =>
    destruct (verifyTransaction_resolves e h c x s) as (v & Ev & Hv); rewrite Ev
  end.
  destruct (verified v) eqn:Hver; simpl.
  - destruct (Hv eq_refl) as (h & c & r & Hh & Hc & Hr & Hrec & Hst).
    rewrite Hrec.
    destruct (truthy_string (receipt_to r)) eqn:Hto.
    + destruct (isNuviaContract env (receipt_to r)) eqn:Hn; simpl.
      * eexists. split; [reflexivity |]. intros _. exists h, c, r. auto.
      * eexists. split; [reflexivity | discriminate].
    + eexists. split; [reflexivity |]. rewrite Hver. intros _. exists h, c, r.
      do 4 (split; [assumption |]). rewrite Hto. discriminate.
  - eexists. split; [reflexivity |]. rewrite Hver. discriminate.
Qed.



(** ** Referrals *)

(** What a fulfilled [addXP] did. *)
Lemma addXP_fulfilled env uid delta rsn desc meta eid s entry s' :
  addXP env uid delta rsn desc meta eid s = (Return entry, s') →
  referrals s' = referrals s ∧
  ledger s' = ledger s ++ [entry] ∧ deltaXP entry = delta ∧ userId entry = uid ∧
  ∀ x, balance_of s' x = balance_of s x + (if Nat.eqb x uid then delta else 0).
Proof.
  rewrite addXP_paths.
  destruct (fault env OpUserFind); [discriminate |].
  destruct (users s !! uid) as [u |] eqn:Hu; [| discriminate].
  destruct (_ <? 0); [discriminate |].
  destruct (fault env OpLedgerCreate); [discriminate |].
  destruct (in_enum _ _); [| discriminate]. cbv zeta.
  destruct (fault env OpUserUpdate); [discriminate |].
  intros [= <- <-]. repeat split.
  intros x. unfold balance_of. simpl. destruct (Nat.eqb_spec x uid) as [-> | Hne].
  - rewrite lookup_alter_eq, Hu. simpl. reflexivity.
  - rewrite lookup_alter_ne by congruence. destruct (users s !! x); lia.
Qed.

Lemma find_some_exists {A} (f : A → bool) l x :
  find f l = Some x → existsb f l = true.
Proof.
  intros H. apply find_some in H as [Hin Hf]. apply existsb_exists. eauto.
Qed.

(** A creation for an invitee who has a referral in the store is refused
    with the error of [createReferral] and writes nothing. *)
Lemma createReferral_again env inviter invitee refCode s :
  fault env OpReferralFind = None →
  existsb (fun r => Nat.eqb (inviteeUserId r) invitee) (referrals s) = true →
  createReferral env inviter invitee refCode s =
  (Throw (new_Error "User has already been referred"), s).
Proof.
  intros Hq Hex. unfold createReferral, try_catch, bind, Referral_findOne_invitee, calling.
  rewrite Hq.
  destruct (find _ (referrals s)) as [r |] eqn:Hfind; [reflexivity |].
  apply existsb_exists in Hex as (r & Hin & Hr).
  pose proof (find_none _ _ Hfind r Hin) as Hno. simpl in Hno. congruence.
Qed.

Lemma createReferral_fulfilled env inviter invitee refCode s r s' :
  createReferral env inviter invitee refCode s = (Return r, s') →
  existsb (fun r => Nat.eqb (inviteeUserId r) invitee) (referrals s') = true ∧
  referrals s' = referrals s ++ [r] ∧ status r = ref_pending ∧
  existsb (fun r => Nat.eqb (inviteeUserId r) invitee) (referrals s) = false.
Proof.
  unfold createReferral, try_catch, bind, Referral_findOne_invitee, Referral_create, calling.
  destruct (fault env OpReferralFind).
  { simpl. destruct (has_code _ _); discriminate. }
  destruct (find _ (referrals s)) as [r0 |] eqn:Hfind.
  { simpl. discriminate. }
  destruct (fault env OpReferralCreate).
  { simpl. destruct (has_code _ _); discriminate. }
  cbv zeta. destruct (existsb _ (referrals s)) eqn:Hex.
  { simpl. discriminate. }
  simpl. intros [= <- <-]. simpl. rewrite existsb_app. simpl.
  rewrite Nat.eqb_refl, orb_true_r. auto.
Qed.

Lemma distributeRewards_unverified env r inviterXP inviteeXP s :
  status r ≠ ref_verified →
  distributeRewards env r inviterXP inviteeXP s =
  (Throw (new_Error "Referral must be verified before distributing rewards"), s).
Proof.
  intros Hst. unfold distributeRewards. destruct (status r); try reflexivity. contradiction.
Qed.

Lemma stored_after_save (l : list Referral) r' :
  find (fun r => Nat.eqb (referral_id r) (referral_id r')) l ≠ None →
  find (fun r => Nat.eqb (referral_id r) (referral_id r'))
       (map (fun r => if Nat.eqb (referral_id r) (referral_id r') then r' else r) l) = Some r'.
Proof.
  induction l as [| x l IH]; simpl; [contradiction |].
  destruct (referral_id x =? referral_id r')%nat eqn:Hx; simpl.
  - rewrite Nat.eqb_refl. reflexivity.
  - rewrite Hx. exact IH.
Qed.


(** ** The [catch] of [processEvent] *)

Lemma updateQuestProgress_resolves env uid type eid s :
  ∃ s', updateQuestProgress env uid type eid s = (Return tt, s').
Proof.
  unfold updateQuestProgress, try_catch.
  destruct (bind _ _ s) as [[[] | e] s1]; eauto.
Qed.

Section Throws.
Context {A : Type}.
Variable E : Error → Prop.

Lemma throws_ret (a : A) : throws E (ret a).
Proof. intros s e s' H. discriminate. Qed.

Lemma throws_throw e : E e → throws E (throw e : M A).
Proof. intros He s e' s' [= <- _]. exact He. Qed.

Lemma throws_read (f : Store → A) : throws E (fun s => (Return (f s), s)).
Proof. intros s e s' H. discriminate. Qed.

Lemma throws_calling env op (m : M A) :
  (∀ e, fault env op = Some e → E e) → throws E m → throws E (calling env op m).
Proof.
  intros Hop Hm. unfold calling. destruct (fault env op) as [e |]; [| exact Hm].
  apply throws_throw. auto.
Qed.

Lemma throws_resolves (m : M A) :
  (∀ s, ∃ a s', m s = (Return a, s')) → throws E m.
Proof. intros Hm s e s' H. destruct (Hm s) as (a & s1 & Ha). congruence. Qed.
End Throws.

Lemma throws_bind {A B} E (m : M A) (k : A → M B) :
  throws E m → (∀ a, throws E (k a)) → throws E (bind m k).
Proof.
  intros Hm Hk s e s' Hrun. unfold bind in Hrun.
  destruct (m s) as [[a | e0] s1] eqn:Em.
  - eapply Hk; eauto.
  - injection Hrun as <- <-. eapply Hm; eauto.
Qed.

Lemma throws_modify E f : throws E (modify f).
Proof. intros s e s' H. discriminate. Qed.

Create HintDb throws.

Ltac throws_flow :=
  cbv zeta;
  repeat first
    [ apply throws_ret
    | apply throws_read
    | apply throws_bind; [solve [auto with throws] | intros ?]
    | match goal with
      | |- throws _ (if ?b then _ else _) => destruct b
      | |- throws _ (match ?x with _ => _ end) => destruct x
      end ].

Section Escaping.
Variable env : Env.
Variable type : string.

Lemma escapes_call op e : In op escaping_ops → fault env op = Some e → Escapes env type e.
Proof. intros. eapply escapes_rejection; eauto. Qed.

Lemma throws_Event_createEvent uid meta key :
  throws (Escapes env type) (Event_createEvent env uid type meta key).
Proof.
  apply throws_calling; [intros e; apply escapes_call; simpl; tauto |].
  intros s e s' H. cbv zeta in H.
  destruct (existsb _ (events s)); inversion H. apply escapes_duplicate_key.
Qed.

Lemma throws_Event_save ev : throws (Escapes env type) (Event_save env ev).
Proof.
  apply throws_calling; [intros e; apply escapes_call; simpl; tauto | apply throws_modify].
Qed.

Lemma throws_getRuleByAction t : throws (Escapes env type) (getRuleByAction env t).
Proof.
  apply throws_calling; [intros e; apply escapes_call; simpl; tauto | apply throws_read].
Qed.

Lemma throws_Event_findOne_latest uid t since :
  throws (Escapes env type) (Event_findOne_latest env uid t since).
Proof.
  apply throws_calling; [intros e; apply escapes_call; simpl; tauto | apply throws_read].
Qed.

Lemma throws_Event_countDocuments uid t since :
  throws (Escapes env type) (Event_countDocuments env uid t since).
Proof.
  apply throws_calling; [intros e; apply escapes_call; simpl; tauto | apply throws_read].
Qed.

Hint Resolve throws_Event_save throws_getRuleByAction throws_Event_findOne_latest
  throws_Event_countDocuments : throws.

Lemma throws_markProcessed ev : throws (Escapes env type) (markProcessed env ev).
Proof. unfold markProcessed. throws_flow. Qed.

Lemma throws_markVerified ev : throws (Escapes env type) (markVerified env ev).
Proof. unfold markVerified. throws_flow. Qed.

Lemma throws_markFailed ev why : throws (Escapes env type) (markFailed env ev why).
Proof. unfold markFailed. throws_flow. Qed.

Lemma throws_validateEvent t meta : throws (Escapes env type) (validateEvent env t meta).
Proof. unfold validateEvent. throws_flow. Qed.

Lemma throws_canUserEarnXP rule uid : throws (Escapes env type) (canUserEarnXP env rule uid).
Proof. unfold canUserEarnXP. throws_flow. Qed.

Lemma throws_checkDailyLimit rule uid : throws (Escapes env type) (checkDailyLimit env rule uid).
Proof. unfold checkDailyLimit. throws_flow. Qed.

Lemma throws_verifyOnchainEvent meta : throws (Escapes env type) (verifyOnchainEvent env meta).
Proof.
  apply throws_resolves. intros s.
  destruct (verifyOnchainEvent_resolves env meta s) as (v & Hv & _). eauto.
Qed.

Lemma throws_updateQuestProgress uid t eid :
  throws (Escapes env type) (updateQuestProgress env uid t eid).
Proof.
  apply throws_resolves. intros s.
  destruct (updateQuestProgress_resolves env uid t eid s) as (s' & Hs). eauto.
Qed.

Lemma throws_addXP uid delta desc meta eid :
  throws (Escapes env type) (addXP env uid delta type desc meta eid).
Proof.
  intros s e s'. rewrite addXP_paths.
  destruct (fault env OpUserFind) eqn:H1.
  { intros [= <- _]. eapply escapes_call; [| exact H1]. simpl; tauto. }
  destruct (users s !! uid); [| intros [= <- _]; apply escapes_user_not_found].
  destruct (_ <? 0); [intros [= <- _]; apply escapes_insufficient |].
  destruct (fault env OpLedgerCreate) eqn:H2.
  { intros [= <- _]. eapply escapes_call; [| exact H2]. simpl; tauto. }
  destruct (in_enum _ _); [| intros [= <- _]; apply escapes_reason]. cbv zeta.
  destruct (fault env OpUserUpdate) eqn:H3; [| discriminate].
  intros [= <- _]. eapply escapes_call; [| exact H3]. simpl; tauto.
Qed.

Hint Resolve throws_Event_createEvent throws_markProcessed throws_markVerified
  throws_markFailed throws_validateEvent throws_canUserEarnXP throws_checkDailyLimit
  throws_verifyOnchainEvent throws_updateQuestProgress throws_addXP : throws.

(** The errors that leave the [try] block. *)
Lemma throws_processEvent_try uid meta dedupKey :
  throws (Escapes env type) (processEvent_try env uid type meta dedupKey).
Proof. unfold processEvent_try, processEvent_recorded. throws_flow. Qed.
End Escaping.

(** No rejection of the receipt lookup or of a call of the quest fan-out is
    among the escaping calls. *)
Lemma caught_calls_do_not_escape op :
  In op [OpReceipt; OpQuestFind; OpProgressGetOrCreate; OpProgressUpdate] →
  ¬ In op escaping_ops.
Proof.
  simpl. intros [<- | [<- | [<- | [<- | []]]]] H;
    repeat (destruct H as [H | H]; [discriminate |]); exact H.
Qed.

(** C10, as the code has it.  Every error that leaves the [try] block of
    [processEvent] is classified by its message alone: with "duplicate" in
    it the caller gets the duplicate outcome (success false, no XP, "Event
    already processed (duplicate)") and the writes made before the error
    stay; any other error is rethrown.  The errors that leave the block are
    the rejections of its own awaited calls, the duplicate-key error of the
    events and the errors of the ledger append.  Errors raised during the
    quest fan-out or the on-chain verification do not leave it:
    [updateQuestProgress] and [verifyOnchainEvent] catch them and resolve. *)
Theorem processEvent_classifies_by_message env uid type meta dedupKey s e s' :
  processEvent_try env uid type meta dedupKey s = (Throw e, s') →
  processEvent env uid type meta dedupKey s =
    (if includes (message e) "duplicate" then Return duplicate_outcome else Throw e, s') ∧
  Escapes env type e ∧
  (∀ eid s0, ∃ s1, updateQuestProgress env uid type eid s0 = (Return tt, s1)) ∧
  (∀ s0, ∃ v, verifyOnchainEvent env meta s0 = (Return v, s0)).
Proof.
  intros Hthrow. split; [| split; [| split]].
  - unfold processEvent, try_catch. rewrite Hthrow.
    destruct (includes (message e) "duplicate"); reflexivity.
  - eapply throws_processEvent_try. exact Hthrow.
  - intros eid s0. apply updateQuestProgress_resolves.
  - intros s0. destruct (verifyOnchainEvent_resolves env meta s0) as (v & Hv & _). eauto.
Qed.

(** The same unique-index violation injected at each call of the pipeline in
    turn: at the eight calls outside the verification and the fan-out it is
    answered as a duplicate; in the receipt lookup it becomes a failed
    verification; in the three calls of the fan-out the submission succeeds
    with its 100 XP. *)
Example index_violation_at_each_call :
  map (fun op => answer (fst (processEvent
                                (failing (demo_env (Some vault_address)) op
                                         (index_violation "questprogresses"))
                                1%nat "deposit" (deposit_of "15") None quest_store)))
      pipeline_ops
  = [AnsweredDuplicate; AnsweredDuplicate; AnsweredDuplicate; AnsweredDuplicate;
     Answered false 0; AnsweredDuplicate; AnsweredDuplicate; AnsweredDuplicate;
     AnsweredDuplicate; Answered true 100; Answered true 100; Answered true 100].
Proof. vm_compute. reflexivity. Qed.

(** C10, as stated, fails for the quest fan-out: a unique-index violation
    raised there, with "duplicate" in its message, is swallowed by
    [updateQuestProgress]; [processEvent] answers with success and 100 XP,
    not with the duplicate outcome. *)
Lemma fanout_duplicate_not_classified :
  let env := failing (demo_env (Some vault_address)) OpProgressGetOrCreate
                     (index_violation "questprogresses") in
  includes (message (index_violation "questprogresses")) "duplicate" = true ∧
  ∃ ev s', processEvent env 1%nat "deposit" (deposit_of "15") None quest_store
           = (Return (mkResult true (Some ev) 100 "Successfully earned 100 XP" None), s')
           ∧ mkResult true (Some ev) 100 "Successfully earned 100 XP" None ≠ duplicate_outcome.
Proof.
  split; [reflexivity |]. eexists _, _. split; [vm_compute; reflexivity | discriminate].
Qed.

(** ** The theorems at concrete requests *)

Example demo_trace_balances :
  let s := serve_all demo_trace empty_store in
  balance_of s 1%nat = 470 ∧ balance_of s 2%nat = 200 ∧
  map deltaXP (ledger s) = [100; 500; 100; -30] ∧
  map balanceAfter (ledger s) = [100; 500; 200; 470] ∧
  map status (referrals s) = [ref_rewarded] ∧
  map event_status (events s) = [st_processed].
Proof. vm_compute. repeat split. Qed.


Lemma addXP_negative_balance_rejected_witness :
  users demo_store !! 1%nat = Some (mkUser 0 None) ∧ 0 + -20 < 0 ∧
  ∃ e, addXP (demo_env None) 1%nat (-20) "penalty" "" (mkLedgerMeta None None) None demo_store
       = (Throw e, demo_store) ∧
       (fault (demo_env None) OpUserFind = None → e = new_Error "Insufficient XP balance").
Proof.
  split; [reflexivity |]. split; [lia |].
  apply (addXP_negative_balance_rejected (demo_env None) demo_store 1%nat (mkUser 0 None));
    [reflexivity | simpl; lia].
Defined.

Lemma serial_awards_add_up_witness :
  let env := demo_env None in
  [1; 0; 2]%nat ≡ₚ seq 0 3 ∧
  let p := run_schedule env (serial [1; 0; 2]%nat) (callers 3 1%nat 1 "other", demo_store) in
  forallb is_fulfilled (fst p) = true ∧
  balance_of (snd p) 1%nat = 0 + Z.of_nat 3.
Proof.
  assert (H : [1; 0; 2]%nat ≡ₚ seq 0 3) by apply perm_swap.
  split; [exact H |].
  apply (serial_awards_add_up (demo_env None) demo_store 1%nat (mkUser 0 None) "other" 3
                              [1; 0; 2]%nat);
    [reflexivity | reflexivity | reflexivity | reflexivity | reflexivity | simpl; lia | exact H].
Defined.

Lemma duplicate_submission_awards_once_witness :
  let env := demo_env (Some vault_address) in
  let s1 := snd (processEvent env 1%nat "deposit" (deposit_of "15") (Some "deposit-1")
                              demo_store) in
  balance_of s1 1%nat = 100 ∧
  processEvent env 1%nat "deposit" (deposit_of "15") (Some "deposit-1") s1
    = (Return duplicate_outcome, s1).
Proof.
  split; [vm_compute; reflexivity |].
  exact (proj1 (duplicate_submission_awards_once
                  (demo_env (Some vault_address)) (demo_env (Some vault_address)) 1%nat
                  "deposit" (deposit_of "15") "deposit" (deposit_of "15") "deposit-1"
                  demo_store eq_refl eq_refl)).
Defined.

Lemma validateEvent_chain_allowlist_witness :
  let env := demo_env None in
  let wrong := mkMetadata None (Some 1) None None None None None in
  validChains deposit_rule ≠ [] ∧
  validateEvent env "deposit" wrong demo_store = (Return (Invalid "Invalid chain ID"), demo_store) ∧
  (∃ v, validateEvent env "deposit" no_metadata demo_store = (Return v, demo_store) ∧
        valid v = valid (validate_against (without_chains deposit_rule) no_metadata)).
Proof.
  assert (Hne : validChains deposit_rule ≠ []) by discriminate.
  split; [exact Hne |]. split.
  - refine (proj1 (validateEvent_chain_allowlist (demo_env None) demo_store "deposit"
                     deposit_rule (mkMetadata None (Some 1) None None None None None)
                     eq_refl eq_refl Hne) 1 eq_refl _ _); [discriminate |].
    simpl. intros [H | []]. discriminate.
  - exact (proj2 (proj2 (validateEvent_chain_allowlist (demo_env None) demo_store "deposit"
                           deposit_rule no_metadata eq_refl eq_refl Hne)) eq_refl).
Defined.

(** The scenario of the specification for the cooldown, through
    [processEvent]: 30 minutes after the claim the submission is refused with
    the next instant at which it is allowed, 61 minutes after it earns the
    XP. *)
Example cooldown_scenario :
  (∃ ev s', processEvent (quiet_env (1000000 + 30 * 60000) no_receipts []) 1%nat "claim_faucet"
                         no_metadata (Some "k3") faucet_store
            = (Return (mkResult false (Some ev) 0 "Cooldown active. Try again in 30 minutes."
                                (Some (1000000 + 60 * 60000))), s')
            ∧ event_status ev = st_failed ∧ balance_of s' 1%nat = 25) ∧
  (∃ ev s', processEvent (quiet_env (1000000 + 61 * 60000) no_receipts []) 1%nat "claim_faucet"
                         no_metadata (Some "k3") faucet_store
            = (Return (mkResult true (Some ev) 25 "Successfully earned 25 XP" None), s')
            ∧ balance_of s' 1%nat = 50).
Proof. split; eexists _, _; vm_compute; repeat split. Qed.




Lemma processEvent_classifies_by_message_witness :
  ∃ s', processEvent_try ledger_fault_env 1%nat "deposit" (deposit_of "15") None demo_store
          = (Throw (index_violation "xpledgers"), s') ∧
        processEvent ledger_fault_env 1%nat "deposit" (deposit_of "15") None demo_store
          = (Return duplicate_outcome, s') ∧
        map event_status (events s') = [st_verified] ∧ ledger s' = [].
Proof.
  assert (H : ∃ s', processEvent_try ledger_fault_env 1%nat "deposit" (deposit_of "15") None
                                     demo_store
                      = (Throw (index_violation "xpledgers"), s') ∧
                    map event_status (events s') = [st_verified] ∧ ledger s' = []).
  { eexists. split; [vm_compute; reflexivity | split; reflexivity]. }
  destruct H as (s' & Htry & Hev & Hl). exists s'.
  split; [exact Htry |]. split; [| split; assumption].
  exact (proj1 (processEvent_classifies_by_message ledger_fault_env 1%nat "deposit"
                  (deposit_of "15") None demo_store _ s' Htry)).
Defined.

(** ** The ledger: what every request keeps *)

(** A property of the users and the ledger that the ledger append, the
    creation of a user and the login keep is kept by every request. *)
Lemma serve_keeps (P : Store → Prop) :
  ledger_only P →
  (∀ env uid delta rsn desc meta eid, keeps P (addXP env uid delta rsn desc meta eid)) →
  (∀ uid s, P s → P (createUser uid s)) →
  (∀ env uid s, P s → P (login env uid s)) →
  ∀ s er, P s → P (serve s er).
Proof.
  intros HP Hadd Hcreate Hlogin s [env r] Hs. destruct r; simpl.
  - apply Hcreate, Hs.
  - apply Hlogin, Hs.
  - unfold seedRule. destruct (existsb _ _); [exact Hs |]. revert Hs. apply HP; reflexivity.
  - destruct (stored_referral s rid); [| exact Hs].
    destruct (checkVerification _ _ s) eqn:E.
    eapply (keeps_checkVerification env P); eauto with keeps.
  - destruct (addXP _ _ _ _ _ _ _ s) eqn:E. eapply Hadd; eauto.
  - destruct (processEvent _ _ _ _ _ s) eqn:E. simpl.
    assert (Hk : keeps P (processEvent env uid type meta dedupKey)); [| eapply Hk; eauto].
    apply keeps_try_catch.
    + unfold processEvent_try, processEvent_recorded, markProcessed, markVerified, markFailed.
      keeps_flow.
    + intros e. keeps_flow.
  - destruct (createReferral _ _ _ _ s) eqn:E.
    eapply (keeps_createReferral env P); eauto with keeps.
  - destruct (stored_referral s rid); [| exact Hs].
    destruct (distributeRewards _ _ _ _ s) eqn:E. simpl.
    assert (Hk : keeps P (distributeRewards env r inviterXP inviteeXP)); [| eapply Hk; eauto].
    unfold distributeRewards. keeps_flow.
Qed.

Lemma serve_all_keeps (P : Store → Prop) :
  (∀ s er, P s → P (serve s er)) → ∀ trace s, P s → P (serve_all trace s).
Proof.
  intros Hserve trace. induction trace as [| er trace IH]; intros s Hs; [exact Hs |].
  simpl. apply IH, Hserve, Hs.
Qed.

Lemma balances_nonneg_ledger_only : ledger_only balances_nonneg.
Proof. intros s s' Hu Hl. unfold balances_nonneg. rewrite Hu, Hl. auto. Qed.

Lemma keeps_addXP_nonneg env uid delta rsn desc meta eid :
  keeps balances_nonneg (addXP env uid delta rsn desc meta eid).
Proof.
  intros s o s' Hrun [Hu Hl]. rewrite addXP_paths in Hrun.
  destruct (fault env OpUserFind); [injection Hrun as <- <-; split; assumption |].
  destruct (users s !! uid) as [u |] eqn:Eu; [| injection Hrun as <- <-; split; assumption].
  destruct (totalXP u + delta <? 0) eqn:Hneg; [injection Hrun as <- <-; split; assumption |].
  apply Z.ltb_ge in Hneg.
  destruct (fault env OpLedgerCreate); [injection Hrun as <- <-; split; assumption |].
  destruct (in_enum _ _); [| injection Hrun as <- <-; split; assumption].
  assert (Hentry : Forall (fun e => 0 ≤ balanceAfter e)
                     (ledger s ++ [appended_entry s uid delta rsn desc meta eid])).
  { apply Forall_app. split; [exact Hl |]. constructor; [| constructor].
    simpl. unfold balance_of. rewrite Eu. exact Hneg. }
  cbv zeta in Hrun. destruct (fault env OpUserUpdate); injection Hrun as <- <-.
  - split; [exact Hu | exact Hentry].
  - split; [| exact Hentry]. intros uid' u'. simpl.
    destruct (decide (uid = uid')) as [<- | Hne].
    + rewrite lookup_alter_eq, Eu. simpl. intros [= <-]. exact Hneg.
    + rewrite lookup_alter_ne by done. apply Hu.
Qed.

(** X1.  No balance is ever negative.  After every sequence of requests, in
    whatever environments (any call may reject), from a store without users
    and ledger entries, the cached [totalXP] of every user and the
    [balanceAfter] of every ledger entry are at least 0. *)
Theorem balances_never_negative (s0 : Store) (trace : list (Env * Request)) :
  users s0 = ∅ → ledger s0 = [] →
  let s := serve_all trace s0 in
  (∀ uid u, users s !! uid = Some u → 0 ≤ totalXP u) ∧
  (∀ e, In e (ledger s) → 0 ≤ balanceAfter e).
Proof.
  intros Hu Hl s.
  assert (H : balances_nonneg s).
  { apply serve_all_keeps.
    - apply serve_keeps.
      + apply balances_nonneg_ledger_only.
      + apply keeps_addXP_nonneg.
      + intros uid s1 [H1 H2]. unfold createUser.
        destruct (users s1 !! uid) eqn:E; [split; assumption |].
        split; [| exact H2]. intros uid' u'. simpl.
        destruct (decide (uid = uid')) as [<- | Hne].
        * rewrite lookup_insert_eq. intros [= <-]. simpl. lia.
        * rewrite lookup_insert_ne by done. apply H1.
      + intros env uid s1 [H1 H2]. split; [| exact H2]. intros uid' u'. simpl.
        destruct (decide (uid = uid')) as [<- | Hne].
        * rewrite lookup_alter_eq. destruct (users s1 !! uid) as [u |] eqn:E; [| discriminate].
          simpl. intros [= <-]. simpl. eapply H1, E.
        * rewrite lookup_alter_ne by done. apply H1.
    - split.
      + intros uid u. rewrite Hu, lookup_empty. discriminate.
      + rewrite Hl. constructor. }
  destruct H as [H1 H2]. split; [exact H1 |].
  intros e He. rewrite List.Forall_forall in H2. apply H2, He.
Qed.

Lemma balances_never_negative_witness :
  users empty_store = ∅ ∧ ledger empty_store = [] ∧
  let s := serve_all demo_trace empty_store in
  (∀ uid u, users s !! uid = Some u → 0 ≤ totalXP u) ∧
  (∀ e, In e (ledger s) → 0 ≤ balanceAfter e).
Proof.
  split; [reflexivity |]. split; [reflexivity |].
  exact (balances_never_negative empty_store demo_trace eq_refl eq_refl).
Defined.

Lemma grown_from_ledger_only U L : ledger_only (grown_from U L).
Proof. intros s s' Hu Hl. unfold grown_from. rewrite Hu, Hl. auto. Qed.

Lemma keeps_addXP_grown env U L uid delta rsn desc meta eid :
  keeps (grown_from U L) (addXP env uid delta rsn desc meta eid).
Proof.
  intros s o s' Hrun [[l Hl] Hu]. rewrite addXP_paths in Hrun.
  destruct (fault env OpUserFind); [injection Hrun as <- <-; split; eauto |].
  destruct (users s !! uid) as [u |] eqn:Eu; [| injection Hrun as <- <-; split; eauto].
  destruct (_ <? 0); [injection Hrun as <- <-; split; eauto |].
  destruct (fault env OpLedgerCreate); [injection Hrun as <- <-; split; eauto |].
  destruct (in_enum _ _); [| injection Hrun as <- <-; split; eauto].
  cbv zeta in Hrun. destruct (fault env OpUserUpdate); injection Hrun as <- <-.
  - split; [| exact Hu]. simpl. rewrite Hl, <- app_assoc. eauto.
  - split.
    + simpl. rewrite Hl, <- app_assoc. eauto.
    + intros uid' Hin. simpl. destruct (decide (uid = uid')) as [<- | Hne].
      * rewrite lookup_alter_eq, Eu. simpl. eauto.
      * rewrite lookup_alter_ne by done. auto.
Qed.

(** X2.  The ledger is append-only and users are never removed: whatever
    requests are served, in whatever environments (any call may reject),
    the ledger before is a prefix of the ledger after, entry for entry, and
    every user of the store before is a user of the store after. *)
Theorem ledger_append_only (s : Store) (trace : list (Env * Request)) :
  (∃ l, ledger (serve_all trace s) = ledger s ++ l) ∧
  (∀ uid, is_Some (users s !! uid) → is_Some (users (serve_all trace s) !! uid)).
Proof.
  change (grown_from (users s) (ledger s) (serve_all trace s)).
  apply serve_all_keeps.
  - apply serve_keeps.
    + apply grown_from_ledger_only.
    + intros. apply keeps_addXP_grown.
    + intros uid s1 [H1 H2]. unfold createUser.
      destruct (users s1 !! uid) eqn:E; [split; assumption |].
      split; [exact H1 |]. intros uid' Hin. simpl.
      destruct (decide (uid = uid')) as [<- | Hne].
      * rewrite lookup_insert_eq. eauto.
      * rewrite lookup_insert_ne by done. auto.
    + intros env uid s1 [H1 H2]. split; [exact H1 |]. intros uid' Hin. simpl.
      destruct (decide (uid = uid')) as [<- | Hne].
      * rewrite lookup_alter_eq. destruct (H2 uid Hin) as [u ->]. simpl. eauto.
      * rewrite lookup_alter_ne by done. auto.
  - split; [exists []; rewrite app_nil_r; reflexivity | auto].
Qed.

(** X3.  The ledger append is all or nothing except at its last step: when
    [addXP] throws, the store is exactly as before, unless the error is the
    rejection of the balance write; then the entry has been appended (with
    the balance the user would have had) and the balance of the user is the
    old one. *)
Theorem addXP_throws_before_writing env uid delta rsn desc meta eid s e s' :
  addXP env uid delta rsn desc meta eid s = (Throw e, s') →
  s' = s ∨
  (fault env OpUserUpdate = Some e ∧ users s' = users s ∧
   ledger s' = ledger s ++ [appended_entry s uid delta rsn desc meta eid] ∧
   in_enum rsn reason_enum = true ∧ 0 ≤ balance_of s uid + delta).
Proof.
  rewrite addXP_paths.
  destruct (fault env OpUserFind); [intros [= _ <-]; left; reflexivity |].
  destruct (users s !! uid) as [u |] eqn:Eu; [| intros [= _ <-]; left; reflexivity].
  destruct (totalXP u + delta <? 0) eqn:Hneg; [intros [= _ <-]; left; reflexivity |].
  destruct (fault env OpLedgerCreate); [intros [= _ <-]; left; reflexivity |].
  destruct (in_enum _ _); [| intros [= _ <-]; left; reflexivity].
  cbv zeta. destruct (fault env OpUserUpdate) as [e' |]; [| discriminate].
  intros [= <- <-]. right. repeat split. unfold balance_of. rewrite Eu.
  apply Z.ltb_ge, Hneg.
Qed.

Lemma addXP_throws_before_writing_witness :
  let env := failing (demo_env None) OpUserUpdate (new_Error "write concern timeout") in
  ∃ s', addXP env 1%nat 40 "other" "" (mkLedgerMeta None None) None demo_store
          = (Throw (new_Error "write concern timeout"), s') ∧
        balance_of s' 1%nat = 0 ∧ map balanceAfter (ledger s') = [40].
Proof.
  assert (H : ∃ s', addXP (failing (demo_env None) OpUserUpdate
                             (new_Error "write concern timeout"))
                          1%nat 40 "other" "" (mkLedgerMeta None None) None demo_store
                    = (Throw (new_Error "write concern timeout"), s'))
    by (eexists; vm_compute; reflexivity).
  destruct H as [s' H]. exists s'. split; [exact H |].
  destruct (addXP_throws_before_writing _ _ _ _ _ _ _ _ _ _ H) as [-> | (_ & Hu & Hl & _)].
  - exfalso. revert H. vm_compute. discriminate.
  - unfold balance_of. rewrite Hu, Hl. split; reflexivity.
Defined.

(** ** The summary by reason *)

Lemma group_entry_reasons e rows :
  map summary_reason (group_entry e rows) =
  if existsb (String.eqb (reason e)) (map summary_reason rows)
  then map summary_reason rows
  else map summary_reason rows ++ [reason e].
Proof.
  induction rows as [| r rows IH]; simpl; [reflexivity |].
  rewrite (String.eqb_sym (reason e)).
  destruct (String.eqb (summary_reason r) (reason e)); simpl; [reflexivity |].
  rewrite IH. destruct (existsb _ _); reflexivity.
Qed.

Lemma existsb_eqb_In x (l : list string) : existsb (String.eqb x) l = true ↔ In x l.
Proof.
  rewrite existsb_exists. split.
  - intros (y & Hy & Heq). apply String.eqb_eq in Heq. congruence.
  - intros H. exists x. split; [exact H | apply String.eqb_refl].
Qed.

Lemma group_entry_NoDup e rows :
  NoDup (map summary_reason rows) → NoDup (map summary_reason (group_entry e rows)).
Proof.
  intros H. rewrite group_entry_reasons.
  destruct (existsb _ _) eqn:E; [exact H |].
  apply NoDup_app. split; [exact H |]. split; [| apply NoDup_singleton].
  intros x Hx Hx'. apply list_elem_of_singleton in Hx'. subst x.
  apply list_elem_of_In, existsb_eqb_In in Hx. congruence.
Qed.

Lemma sum_of_app {A} (f : A → Z) l1 l2 : sum_of f (l1 ++ l2) = sum_of f l1 + sum_of f l2.
Proof. induction l1 as [| a l1 IH]; simpl; [reflexivity | rewrite IH; lia]. Qed.

Lemma sum_of_Permutation {A} (f : A → Z) l1 l2 : l1 ≡ₚ l2 → sum_of f l1 = sum_of f l2.
Proof. induction 1; simpl; lia. Qed.

Lemma group_entry_total e rows :
  sum_of summary_totalXP (group_entry e rows) = sum_of summary_totalXP rows + deltaXP e.
Proof.
  induction rows as [| r rows IH]; simpl; [lia |].
  destruct (String.eqb _ _); simpl; [lia | rewrite IH; lia].
Qed.

Lemma group_by_reason_snoc l e :
  group_by_reason (l ++ [e]) = group_entry e (group_by_reason l).
Proof. unfold group_by_reason. rewrite fold_left_app. reflexivity. Qed.

Lemma row_sums_other l e r :
  summary_reason r ≠ reason e → row_sums l r → row_sums (l ++ [e]) r.
Proof.
  intros Hne. unfold row_sums. rewrite List.filter_app. simpl.
  destruct (String.eqb_spec (reason e) (summary_reason r)); [congruence |].
  rewrite app_nil_r. auto.
Qed.

Lemma group_entry_rows l e rows :
  NoDup (map summary_reason rows) →
  (¬ In (reason e) (map summary_reason rows) →
   List.filter (fun x => String.eqb (reason x) (reason e)) l = []) →
  Forall (row_sums l) rows → Forall (row_sums (l ++ [e])) (group_entry e rows).
Proof.
  induction rows as [| r rows IH]; intros Hnd Hnew Hrows; simpl.
  - constructor; [| constructor]. unfold row_sums. simpl.
    rewrite List.filter_app, Hnew by (intros []). simpl. rewrite String.eqb_refl. simpl.
    repeat split; lia.
  - apply Forall_cons in Hrows as [Hr Hrows]. simpl in Hnd. apply NoDup_cons in Hnd as [Hr' Hnd].
    destruct (String.eqb_spec (summary_reason r) (reason e)) as [Heq | Hne].
    + constructor.
      * destruct Hr as (Ht & Hc & Hpos). unfold row_sums. simpl.
        rewrite List.filter_app. simpl. rewrite Heq, String.eqb_refl.
        rewrite sum_of_app, length_app. simpl. rewrite <- Heq, <- Ht.
        repeat split; lia.
      * rewrite Forall_forall in Hrows. apply Forall_forall. intros r0 Hr0.
        apply row_sums_other; [| apply Hrows, Hr0].
        intros Heq0. apply Hr'. rewrite Heq, <- Heq0.
        apply list_elem_of_fmap. exists r0. split; [reflexivity | exact Hr0].
    + constructor; [apply row_sums_other; assumption |].
      apply IH; [exact Hnd | | exact Hrows].
      intros Hnot. apply Hnew. simpl. intros [H | H]; [congruence | contradiction].
Qed.

Lemma filter_none {A} (f : A → bool) l : (∀ x, In x l → f x = false) → List.filter f l = [].
Proof.
  induction l as [| a l IH]; intros H; simpl; [reflexivity |].
  rewrite (H a) by (left; reflexivity). apply IH. intros x Hx. apply H. right. exact Hx.
Qed.

Lemma group_by_reason_spec l :
  let rows := group_by_reason l in
  NoDup (map summary_reason rows) ∧
  Forall (row_sums l) rows ∧
  (∀ e, In e l → In (reason e) (map summary_reason rows)) ∧
  sum_of summary_totalXP rows = sum_of deltaXP l.
Proof.
  induction l as [| e l IH] using rev_ind.
  - simpl. repeat split; [constructor | constructor | intros e [] ].
  - destruct IH as (Hnd & Hrows & Hall & Hsum). cbv zeta. rewrite group_by_reason_snoc.
    split; [apply group_entry_NoDup, Hnd |]. split; [| split].
    + apply group_entry_rows; [exact Hnd | | exact Hrows].
      intros Hnot. apply filter_none. intros x Hx.
      destruct (String.eqb_spec (reason x) (reason e)) as [Heq |]; [| reflexivity].
      exfalso. apply Hnot. rewrite <- Heq. apply Hall, Hx.
    + intros x Hx. rewrite group_entry_reasons.
      apply in_app_iff in Hx as [Hx | [<- | []]].
      * destruct (existsb _ _); [| apply in_app_iff; left]; apply Hall, Hx.
      * destruct (existsb _ _) eqn:E; [apply existsb_eqb_In, E |].
        apply in_app_iff. right. left. reflexivity.
    + rewrite group_entry_total, Hsum, sum_of_app. simpl. lia.
Qed.

Lemma calculateTotalXP_filter uid l :
  calculateTotalXP uid l = sum_of deltaXP (List.filter (fun e => Nat.eqb (userId e) uid) l).
Proof.
  induction l as [| e l IH]; simpl; [reflexivity |].
  destruct (userId e =? uid)%nat; simpl; rewrite IH; reflexivity.
Qed.

Lemma filter_filter_and {A} (f g : A → bool) l :
  List.filter g (List.filter f l) = List.filter (fun x => f x && g x) l.
Proof.
  induction l as [| a l IH]; simpl; [reflexivity |].
  destruct (f a); simpl; [destruct (g a); rewrite IH; reflexivity | exact IH].
Qed.

Lemma by_totalXP_desc_total : Total by_totalXP_desc.
Proof. intros a b. unfold by_totalXP_desc. lia. Qed.

Lemma by_totalXP_desc_trans : Transitive by_totalXP_desc.
Proof. intros a b c. unfold by_totalXP_desc. lia. Qed.

Lemma getXPSummary_total uid l :
  sum_of summary_totalXP (getXPSummary uid l) = calculateTotalXP uid l.
Proof.
  unfold getXPSummary.
  rewrite (sum_of_Permutation _ _ _ (merge_sort_Permutation _ _)).
  rewrite calculateTotalXP_filter. apply group_by_reason_spec.
Qed.

(** X4.  The XP summary of a user is the aggregation its pipeline
    describes: one row for each reason among the entries of the user and no
    other row, no reason twice; the row of a reason holds the sum of the
    [deltaXP] and the number of the user's entries with the reason (so no
    row counts 0 entries); the rows are sorted by total, largest first; and
    the totals of the rows add up to [calculateTotalXP] of the user. *)
Theorem getXPSummary_aggregates (uid : ObjectId) (l : list LedgerEntry) :
  let rows := getXPSummary uid l in
  NoDup (map summary_reason rows) ∧
  StronglySorted by_totalXP_desc rows ∧
  (∀ r, In r rows →
     summary_totalXP r = sum_of deltaXP (entries_with uid (summary_reason r) l) ∧
     summary_count r = Z.of_nat (length (entries_with uid (summary_reason r) l)) ∧
     0 < summary_count r) ∧
  (∀ e, In e l → userId e = uid → In (reason e) (map summary_reason rows)) ∧
  sum_of summary_totalXP rows = calculateTotalXP uid l.
Proof.
  cbv zeta. split; [| split; [| split; [| split]]].
  - unfold getXPSummary. rewrite merge_sort_Permutation. apply group_by_reason_spec.
  - apply (@StronglySorted_merge_sort _ _ _ by_totalXP_desc_trans by_totalXP_desc_total).
  - intros r Hr. unfold getXPSummary in Hr.
    apply list_elem_of_In in Hr. rewrite merge_sort_Permutation in Hr.
    destruct (group_by_reason_spec (List.filter (fun e => Nat.eqb (userId e) uid) l))
      as (_ & Hrows & _).
    rewrite Forall_forall in Hrows. specialize (Hrows r Hr).
    unfold row_sums in Hrows. rewrite filter_filter_and in Hrows. exact Hrows.
  - intros e He Hu. unfold getXPSummary.
    apply list_elem_of_In. rewrite merge_sort_Permutation. apply list_elem_of_In.
    apply group_by_reason_spec. apply filter_In. split; [exact He |].
    apply Nat.eqb_eq, Hu.
  - apply getXPSummary_total.
Qed.

(** X5.  The breakdown adds up to the balance: after every sequence of
    requests from a store without users and entries (every balance write of
    [addXP] goes through), the totals of the rows of a user's XP summary add
    up to the cached [totalXP] of the user, the two figures
    [getUserXPSummary] reports side by side. *)
Theorem summary_adds_up_to_balance (s0 : Store) (trace : list (Env * Request)) uid u :
  users s0 = ∅ → ledger s0 = [] →
  Forall (fun er => fault (fst er) OpUserUpdate = None) trace →
  users (serve_all trace s0) !! uid = Some u →
  sum_of summary_totalXP (getXPSummary uid (ledger (serve_all trace s0))) = totalXP u.
Proof.
  intros Hu Hl Hq Huser. rewrite getXPSummary_total. symmetry.
  apply (proj1 (proj1 (serve_all_sound trace s0 Hq (fresh_store_sound s0 Hu Hl)))), Huser.
Qed.

Lemma summary_adds_up_to_balance_witness :
  map (fun r => (summary_reason r, summary_totalXP r, summary_count r))
      (getXPSummary 1%nat (ledger (serve_all demo_trace empty_store)))
    = [("referral_reward_inviter", 500, 1); ("penalty", -30, 1)] ∧
  sum_of summary_totalXP (getXPSummary 1%nat (ledger (serve_all demo_trace empty_store)))
    = 470.
Proof.
  split; [vm_compute; reflexivity |].
  apply (summary_adds_up_to_balance empty_store demo_trace 1%nat (mkUser 470 None));
    [reflexivity | reflexivity | repeat constructor | vm_compute; reflexivity].
Defined.

(** ** The pipeline, step by step *)

Lemma bind_inv {A B} (m : M A) (k : A → M B) s o s' :
  bind m k s = (o, s') →
  (∃ a s1, m s = (Return a, s1) ∧ k a s1 = (o, s')) ∨ (∃ e, m s = (Throw e, s') ∧ o = Throw e).
Proof.
  unfold bind. destruct (m s) as [[a | e] s1]; intros H.
  - left. eauto.
  - injection H as <- <-. right. eauto.
Qed.

Lemma calling_read_inv {A} env op (f : Store → A) s o s' :
  calling env op (fun s => (Return (f s), s)) s = (o, s') →
  s' = s ∧ ∀ a, o = Return a → a = f s.
Proof.
  unfold calling, throw. destruct (fault env op); intros [= <- <-];
    (split; [reflexivity |]); [discriminate | intros a [= <-]; reflexivity].
Qed.

Lemma validateEvent_inv env type meta s o s' :
  validateEvent env type meta s = (o, s') →
  s' = s ∧ ∀ v, o = Return v →
    v = match find (fun r => String.eqb (actionType r) type && isActive r) (rules s) with
        | Some rule => validate_against rule meta
        | None => Invalid "No active rule found for this action"
        end.
Proof.
  unfold validateEvent, getRuleByAction. intros H.
  apply bind_inv in H as [(a & s1 & H1 & H2) | (e & H1 & ->)];
    apply calling_read_inv in H1 as [-> Ha]; [| split; [reflexivity | discriminate]].
  rewrite (Ha _ eq_refl) in H2.
  destruct (find _ (rules s)); injection H2 as <- <-; (split; [reflexivity |]);
    intros v [= <-]; reflexivity.
Qed.

Lemma latest_none l : latest l = None → l = [].
Proof. intros H. pose proof (latest_spec l) as Hs. rewrite H in Hs. exact Hs. Qed.

Lemma canUserEarnXP_inv env rule uid s o s' :
  canUserEarnXP env rule uid s = (o, s') →
  s' = s ∧ ∀ c, o = Return c → canEarn c = true →
    cooldownMinutes rule = 0 ∨
    List.filter (counts_for uid (actionType rule) (now env - cooldownMinutes rule * 60 * 1000))
                (events s) = [].
Proof.
  unfold canUserEarnXP. destruct (cooldownMinutes rule =? 0) eqn:Hz.
  - intros [= <- <-]. split; [reflexivity |]. intros. left. apply Z.eqb_eq, Hz.
  - cbv zeta. unfold Event_findOne_latest. intros H.
    apply bind_inv in H as [(a & s1 & H1 & H2) | (e & H1 & ->)];
      apply calling_read_inv in H1 as [-> Ha]; [| split; [reflexivity | discriminate]].
    rewrite (Ha _ eq_refl) in H2.
    destruct (latest _) eqn:El; injection H2 as <- <-; (split; [reflexivity |]);
      intros c [= <-]; simpl; [discriminate |].
    intros _. right. apply latest_none, El.
Qed.

Lemma checkDailyLimit_inv env rule uid s o s' :
  checkDailyLimit env rule uid s = (o, s') →
  s' = s ∧ ∀ c, o = Return c → withinLimit c = true →
    truthy_number (dailyLimit rule) = false ∨
    Z.of_nat (length (List.filter (counts_for uid (actionType rule) (startOfDay env (now env)))
                                  (events s)))
    < default 0 (dailyLimit rule).
Proof.
  unfold checkDailyLimit. destruct (truthy_number (dailyLimit rule)) eqn:Ht; simpl.
  - unfold Event_countDocuments. intros H.
    apply bind_inv in H as [(a & s1 & H1 & H2) | (e & H1 & ->)];
      apply calling_read_inv in H1 as [-> Ha]; [| split; [reflexivity | discriminate]].
    rewrite (Ha _ eq_refl) in H2.
    destruct (_ <=? _) eqn:Hle; injection H2 as <- <-; (split; [reflexivity |]);
      intros c [= <-]; simpl; [discriminate |].
    intros _. right. apply Z.leb_gt in Hle. exact Hle.
  - intros [= <- <-]. split; [reflexivity |]. intros. left. reflexivity.
Qed.

(** What saving an event can do. *)
Lemma mark_inv env ev' s o s' :
  bind (Event_save env ev') (fun _ => ret ev') s = (o, s') →
  users s' = users s ∧ ledger s' = ledger s ∧ rules s' = rules s ∧ nextId s' = nextId s ∧
  (o = Return ev' ∨ ∃ e, o = Throw e ∧ fault env OpEventSave = Some e).
Proof.
  unfold bind, Event_save, calling, modify, throw, ret.
  destruct (fault env OpEventSave); intros [= <- <-]; repeat split; eauto.
Qed.

(** The exits of [processEvent] that mark the event and resolve. *)
Lemma mark_ret_inv env ev' (f : Event → Result) s o s' :
  bind (bind (Event_save env ev') (fun _ => ret ev')) (fun event => ret (f event)) s = (o, s') →
  users s' = users s ∧ ledger s' = ledger s ∧ ∀ r, o = Return r → r = f ev'.
Proof.
  intros H. apply bind_inv in H as [(a & s1 & H1 & H2) | (e & H1 & ->)];
    apply mark_inv in H1 as (Hu & Hl & _ & _ & Ho).
  - injection H2 as <- <-. repeat split; [assumption | assumption |].
    intros r [= <-]. destruct Ho as [[= ->] | (e & [=] & _)]. reflexivity.
  - repeat split; [assumption | assumption | discriminate].
Qed.

Lemma updateQuestProgress_inv env uid type eid s o s' :
  updateQuestProgress env uid type eid s = (o, s') →
  o = Return tt ∧ users s' = users s ∧ ledger s' = ledger s.
Proof.
  intros H. split.
  - destruct (updateQuestProgress_resolves env uid type eid s) as [s1 H1]. congruence.
  - refine (keeps_updateQuestProgress env (unchanged (users s) (ledger s)) _ uid type eid
              s o s' H _).
    + intros s1 s2 Hu Hl _ [H1 H2]. split; congruence.
    + split; reflexivity.
Qed.

(** The award: the ledger append, then the mark and the quest fan-out,
    which leave the users and the ledger as the append left them. *)
Lemma award_inv env uid type ev delta s o s' :
  bind (addXP env uid delta type ("XP from " +:+ type)
              (mkLedgerMeta (Some (event_id ev)) None) (Some (event_id ev)))
       (fun _ => bind (markProcessed env ev)
                   (fun event => bind (updateQuestProgress env uid type (event_id event))
                                   (fun _ => ret (awarded event delta)))) s = (o, s') →
  ∃ oa sa,
    addXP env uid delta type ("XP from " +:+ type)
          (mkLedgerMeta (Some (event_id ev)) None) (Some (event_id ev)) s = (oa, sa) ∧
    match oa with
    | Throw e => o = Throw e ∧ s' = sa
    | Return _ =>
        users s' = users sa ∧ ledger s' = ledger sa ∧
        (o = Return (awarded (with_status ev st_processed (event_failReason ev)) delta) ∨
         ∃ e, o = Throw e ∧ fault env OpEventSave = Some e)
    end.
Proof.
  intros H. apply bind_inv in H as [(entry & sa & H1 & H2) | (e & H1 & ->)].
  2:{ exists (Throw e), s'. split; [exact H1 | split; reflexivity]. }
  exists (Return entry), sa. split; [exact H1 |].
  unfold markProcessed in H2. cbv zeta in H2.
  apply bind_inv in H2 as [(ev' & s1 & H2 & H3) | (e & H2 & ->)];
    apply mark_inv in H2 as (Hu & Hl & _ & _ & Ho).
  - destruct Ho as [[= ->] | (e & [=] & _)].
    apply bind_inv in H3 as [([] & s2 & H3 & H4) | (e & H3 & ->)];
      apply updateQuestProgress_inv in H3 as (Hq & Hu' & Hl'); [| discriminate].
    injection H4 as <- <-. split; [congruence |]. split; [congruence |]. left. reflexivity.
  - destruct Ho as [[=] | (e' & [= <-] & He)]. repeat split; eauto.
Qed.

Lemma validate_against_valid rule meta rule' :
  validate_against rule meta = Valid rule' → rule' = rule.
Proof.
  unfold validate_against.
  destruct (_ && truthy_number (chainId meta)); [destruct (negb _) |];
    try discriminate;
    (destruct (_ && truthy_string (protocol meta)); [destruct (negb _) |];
     try discriminate;
     (destruct (_ && truthy_string (amount meta)); [destruct (Number_lt _ _) |];
      try discriminate; intros [= <-]; reflexivity)).
Qed.

Ltac thrown_early :=
  left; split; [reflexivity | split; [reflexivity | discriminate]].

Ltac marked_exit Hrun :=
  let Hu := fresh "Hu" in
  let Hl := fresh "Hl" in
  let Hres := fresh "Hres" in
  let r := fresh "r" in
  let Hr := fresh "Hr" in
  cbv zeta in Hrun; apply mark_ret_inv in Hrun as (Hu & Hl & Hres);
  left; split; [exact Hu | split; [exact Hl |]];
  intros r Hr; rewrite (Hres r Hr); reflexivity.

(** What becomes of a recorded submission: either the users and the ledger
    stay as they are and no XP is reported, or every check passed and
    [addXP] ran for the amount of the rule; after a fulfilled [addXP] only
    the save of the event can make the call throw. *)
Lemma processEvent_recorded_cases env uid type meta ev s o s' :
  processEvent_recorded env uid type meta ev s = (o, s') →
  (users s' = users s ∧ ledger s' = ledger s ∧ ∀ r, o = Return r → xpAwarded r = 0) ∨
  (∃ rule ev1 s2 oa sa,
     checks_passed env uid type meta s rule ∧
     users s2 = users s ∧ ledger s2 = ledger s ∧
     event_id ev1 = event_id ev ∧
     addXP env uid (xpAmount rule) type ("XP from " +:+ type)
           (mkLedgerMeta (Some (event_id ev)) None) (Some (event_id ev)) s2 = (oa, sa) ∧
     match oa with
     | Throw e => o = Throw e ∧ s' = sa
     | Return _ =>
         users s' = users sa ∧ ledger s' = ledger sa ∧
         (o = Return (awarded (with_status ev1 st_processed (event_failReason ev1))
                              (xpAmount rule)) ∨
          ∃ e, o = Throw e ∧ fault env OpEventSave = Some e)
     end).
Proof.
  intros Hrun. unfold processEvent_recorded in Hrun.
  apply bind_inv in Hrun as [(orule & s1 & H1 & Hrun) | (e & H1 & ->)];
    unfold getRuleByAction in H1; apply calling_read_inv in H1 as [-> Hr]; [| thrown_early].
  rewrite (Hr _ eq_refl) in Hrun. clear Hr.
  destruct (find _ (rules s)) as [rule |] eqn:Hfind.
  2:{ unfold markProcessed in Hrun. marked_exit Hrun. }
  apply bind_inv in Hrun as [(v & s1 & H1 & Hrun) | (e & H1 & ->)];
    apply validateEvent_inv in H1 as [-> Hv]; [| thrown_early].
  rewrite Hfind in Hv. rewrite (Hv _ eq_refl) in Hrun. clear Hv.
  destruct (validate_against rule meta) as [rule' | why] eqn:Hval.
  2:{ unfold markFailed in Hrun. marked_exit Hrun. }
  apply validate_against_valid in Hval as Hsame. subst rule'.
  apply bind_inv in Hrun as [(c & s1 & H1 & Hrun) | (e & H1 & ->)];
    apply canUserEarnXP_inv in H1 as [-> Hcool]; [| thrown_early].
  specialize (Hcool _ eq_refl).
  destruct (canEarn c) eqn:Hc; simpl in Hrun.
  2:{ unfold markFailed in Hrun. marked_exit Hrun. }
  specialize (Hcool eq_refl).
  apply bind_inv in Hrun as [(lim & s1 & H1 & Hrun) | (e & H1 & ->)];
    apply checkDailyLimit_inv in H1 as [-> Hlim]; [| thrown_early].
  specialize (Hlim _ eq_refl).
  destruct (withinLimit lim) eqn:Hw; simpl in Hrun.
  2:{ unfold markFailed in Hrun. marked_exit Hrun. }
  specialize (Hlim eq_refl).
  destruct (truthy_string (txHash meta) && truthy_number (chainId meta)) eqn:Honchain.
  - destruct (verifyOnchainEvent_resolves env meta s) as (w & Ew & Hver).
    apply bind_inv in Hrun as [(w' & s1 & H1 & Hrun) | (e & H1 & ->)];
      rewrite Ew in H1; [| discriminate].
    injection H1 as <- <-.
    destruct (verified w) eqn:Hw'; simpl in Hrun.
    2:{ unfold markFailed in Hrun. marked_exit Hrun. }
    apply bind_inv in Hrun as [(ev1 & s1 & H1 & Hrun) | (e & H1 & ->)];
      unfold markVerified in H1; cbv zeta in H1;
      apply mark_inv in H1 as (Hu & Hl & _ & _ & Ho).
    2:{ left. split; [exact Hu | split; [exact Hl | discriminate]]. }
    destruct Ho as [[= ->] | (e & [=] & _)].
    apply award_inv in Hrun as (oa & sa & Hadd & Hrest).
    right. exists rule, (with_status ev st_verified (event_failReason ev)), s1, oa, sa.
    split; [| split; [exact Hu | split; [exact Hl | split; [reflexivity |]]]].
    + repeat split; try assumption. intros _. apply Hver. reflexivity.
    + split; [exact Hadd | exact Hrest].
  - apply award_inv in Hrun as (oa & sa & Hadd & Hrest).
    right. exists rule, ev, s, oa, sa.
    split; [| split; [reflexivity | split; [reflexivity | split; [reflexivity |]]]].
    + repeat split; try assumption. rewrite Honchain. discriminate.
    + split; [exact Hadd | exact Hrest].
Qed.

Lemma alter_as_insert (f : User → User) uid (U : gmap ObjectId User) u :
  U !! uid = Some u → alter f uid U = <[uid := f u]> U.
Proof.
  intros H. apply map_eq. intros i. destruct (decide (uid = i)) as [<- | Hne].
  - rewrite lookup_alter_eq, lookup_insert_eq, H. reflexivity.
  - rewrite lookup_alter_ne, lookup_insert_ne by done. reflexivity.
Qed.

(** [addXP] either throws before it writes, or appends its entry and then
    writes the balance, unless that write is rejected. *)
Lemma addXP_cases env uid delta rsn desc meta eid s o s' :
  addXP env uid delta rsn desc meta eid s = (o, s') →
  (s' = s ∧ ∃ e, o = Throw e) ∨
  (∃ u, users s !! uid = Some u ∧ 0 ≤ totalXP u + delta ∧ in_enum rsn reason_enum = true ∧
        ledger s' = ledger s ++ [appended_entry s uid delta rsn desc meta eid] ∧
        ((users s' = users s ∧ ∃ e, o = Throw e ∧ fault env OpUserUpdate = Some e) ∨
         (users s' = <[uid := mkUser (totalXP u + delta) (firstLoginAt u)]> (users s) ∧
          o = Return (appended_entry s uid delta rsn desc meta eid) ∧
          fault env OpUserUpdate = None))).
Proof.
  rewrite addXP_paths.
  destruct (fault env OpUserFind); [intros [= <- <-]; left; eauto |].
  destruct (users s !! uid) as [u |] eqn:Eu; [| intros [= <- <-]; left; eauto].
  destruct (totalXP u + delta <? 0) eqn:Hneg; [intros [= <- <-]; left; eauto |].
  apply Z.ltb_ge in Hneg.
  destruct (fault env OpLedgerCreate); [intros [= <- <-]; left; eauto |].
  destruct (in_enum _ _); [| intros [= <- <-]; left; eauto].
  cbv zeta. destruct (fault env OpUserUpdate) as [e |]; intros [= <- <-];
    right; exists u; (do 4 (split; [eauto |])).
  - left. eauto.
  - right. simpl. rewrite (alter_as_insert _ _ _ _ Eu). auto.
Qed.

Lemma Event_createEvent_inv env uid type meta dedupKey s o s1 :
  Event_createEvent env uid type meta dedupKey s = (o, s1) →
  (s1 = s ∧ ∃ e, o = Throw e) ∨
  (o = Return (recorded_event env s uid type meta dedupKey) ∧
   existsb (same_submission uid (event_dedupKey (recorded_event env s uid type meta dedupKey)))
           (events s) = false ∧
   s1 = bump_nextId (set_events (fun l => l ++ [recorded_event env s uid type meta dedupKey]) s)).
Proof.
  unfold Event_createEvent, calling, throw.
  destruct (fault env OpEventCreate); [intros [= <- <-]; left; eauto |].
  cbv zeta. simpl. destruct (existsb _ (events s)) eqn:Hdup; intros [= <- <-].
  - left. eauto.
  - right. auto.
Qed.

(** An event that was recorded and nothing more counts for no check. *)
Lemma filter_counts_recorded uid type since l ev :
  event_status ev = st_recorded →
  List.filter (counts_for uid type since) (l ++ [ev]) = List.filter (counts_for uid type since) l.
Proof.
  intros Hst. rewrite List.filter_app. simpl. unfold counts_for at 2. rewrite Hst. simpl.
  rewrite andb_false_r. simpl. apply app_nil_r.
Qed.

Lemma checks_passed_recorded env uid type meta s s1 ev rule :
  rules s1 = rules s → events s1 = events s ++ [ev] → event_status ev = st_recorded →
  checks_passed env uid type meta s1 rule → checks_passed env uid type meta s rule.
Proof.
  intros Hr He Hst (H1 & H2 & H3 & H4 & H5). unfold checks_passed.
  rewrite Hr in H1. rewrite He in H3, H4.
  rewrite filter_counts_recorded in H3, H4 by exact Hst. auto.
Qed.

(** What becomes of a submission.  Either the users and the ledger stay as
    they are and no XP is reported; or the submission was new, every check
    passed in the store it met, and [addXP] ran for the amount of the rule on
    the same users and ledger, with the new event as its event. *)
Lemma processEvent_cases env uid type meta dedupKey s o s' :
  processEvent env uid type meta dedupKey s = (o, s') →
  (users s' = users s ∧ ledger s' = ledger s ∧ ∀ r, o = Return r → xpAwarded r = 0) ∨
  (∃ rule ev1 s2 oa sa,
     existsb (same_submission uid (event_dedupKey (recorded_event env s uid type meta dedupKey)))
             (events s) = false ∧
     checks_passed env uid type meta s rule ∧
     users s2 = users s ∧ ledger s2 = ledger s ∧ event_id ev1 = nextId s ∧
     addXP env uid (xpAmount rule) type ("XP from " +:+ type)
           (mkLedgerMeta (Some (nextId s)) None) (Some (nextId s)) s2 = (oa, sa) ∧
     users s' = users sa ∧ ledger s' = ledger sa ∧
     match oa with
     | Throw e => o = caught e
     | Return _ =>
         o = Return (awarded (with_status ev1 st_processed (event_failReason ev1))
                             (xpAmount rule)) ∨
         ∃ e, o = caught e ∧ fault env OpEventSave = Some e
     end).
Proof.
  unfold processEvent, try_catch, processEvent_try. intros Hrun.
  destruct (bind _ _ s) as [[r | e] s1] eqn:Htry.
  - injection Hrun as <- <-.
    apply bind_inv in Htry as [(ev & s1' & H1 & H2) | (e & _ & [=])].
    apply Event_createEvent_inv in H1 as [(_ & e & [=]) | ([= ->] & Hnew & ->)].
    apply processEvent_recorded_cases in H2
      as [H2 | (rule & ev1 & s2 & oa & sa & Hchecks & Hu & Hl & Hid & Hadd & Hrest)].
    + left. exact H2.
    + right. exists rule, ev1, s2, oa, sa. split; [exact Hnew |]. split.
      { eapply checks_passed_recorded; [| | | exact Hchecks]; reflexivity. }
      split; [exact Hu |]. split; [exact Hl |]. split; [exact Hid |]. split; [exact Hadd |].
      destruct oa as [entry | e]; [| destruct Hrest as [[=] _]].
      destruct Hrest as (Hu' & Hl' & [Ho | (e & [=] & _)]). auto.
  - apply bind_inv in Htry as [(ev & s1' & H1 & H2) | (e' & H1 & [= <-])].
    2:{ apply Event_createEvent_inv in H1 as [(-> & _) | ([=] & _)].
        left. destruct (includes _ _); injection Hrun as <- <-;
          (split; [reflexivity | split; [reflexivity |]]); [| discriminate].
        intros r [= <-]. reflexivity. }
    apply Event_createEvent_inv in H1 as [(_ & e' & [=]) | ([= ->] & Hnew & ->)].
    apply processEvent_recorded_cases in H2
      as [(Hu & Hl & _) | (rule & ev1 & s2 & oa & sa & Hchecks & Hu & Hl & Hid & Hadd & Hrest)].
    + left. destruct (includes _ _); injection Hrun as <- <-;
        (split; [exact Hu | split; [exact Hl |]]); [| discriminate].
      intros r [= <-]. reflexivity.
    + right. exists rule, ev1, s2, oa, sa. split; [exact Hnew |]. split.
      { eapply checks_passed_recorded; [| | | exact Hchecks]; reflexivity. }
      split; [exact Hu |]. split; [exact Hl |]. split; [exact Hid |]. split; [exact Hadd |].
      assert (Ho : o = caught e ∧ s' = s1).
      { unfold caught. destruct (includes _ _); injection Hrun as <- <-; auto. }
      destruct Ho as [-> ->].
      destruct oa as [entry | e0].
      * destruct Hrest as (Hu' & Hl' & [[=] | (e0 & [= <-] & He0)]). eauto 6.
      * destruct Hrest as [[= <-] ->]. auto.
Qed.

(** ** What the pipeline awards *)



(** X7.  The result and the ledger agree.  When the saves of the event and
    the balance write are not rejected, [processEvent] is all or nothing on
    the users and the ledger: if it throws, both are as before; if it
    resolves, then either both are as before and the result reports 0 XP, or
    the result is a success for an event in status [processed], exactly one
    entry was appended, for the user, the XP the result reports, the action
    type and that event, and the balance of the user moved by that amount
    and no other balance moved. *)
Theorem processEvent_result_matches_ledger env uid type meta dedupKey s o s' :
  fault env OpEventSave = None →
  fault env OpUserUpdate = None →
  processEvent env uid type meta dedupKey s = (o, s') →
  match o with
  | Return r =>
      (unchanged (users s) (ledger s) s' ∧ xpAwarded r = 0) ∨
      (∃ ev, result_event r = Some ev ∧ event_id ev = nextId s ∧
             event_status ev = st_processed ∧ success r = true ∧
             credited (users s) (ledger s) uid (xpAwarded r) type (Some (event_id ev)) s')
  | Throw _ => unchanged (users s) (ledger s) s'
  end.
Proof.
  intros Hsave Hupdate Hrun.
  apply processEvent_cases in Hrun
    as [(Hu & Hl & Hxp) | (rule & ev1 & s2 & oa & sa & Hnew & Hchecks & Hu & Hl & Hid & Hadd
                           & Hu' & Hl' & Hrest)].
  { destruct o as [r | e]; [left |]; repeat split; auto. }
  apply addXP_cases in Hadd
    as [(-> & e & ->) | (u & Eu & Hpos & Henum & Hledger & [(_ & e & _ & He) | (Husers & -> & _)])].
  - assert (Hsame : unchanged (users s) (ledger s) s') by (split; congruence).
    rewrite Hrest. unfold caught. destruct (includes _ _); [left |]; auto.
  - congruence.
  - destruct Hrest as [-> | (e & _ & He)]; [| congruence].
    right. exists (with_status ev1 st_processed (event_failReason ev1)).
    split; [reflexivity |]. split; [exact Hid |]. split; [reflexivity |].
    split; [reflexivity |].
    exists u, (appended_entry s2 uid (xpAmount rule) type ("XP from " +:+ type)
                              (mkLedgerMeta (Some (nextId s)) None) (Some (nextId s))).
    simpl. unfold balance_of. rewrite Eu, Hid.
    split; [congruence |]. split; [exact Hpos |]. split; [congruence |].
    split; [congruence |]. repeat split.
Qed.

Lemma processEvent_result_matches_ledger_witness :
  let r := processEvent (demo_env (Some vault_address)) 1%nat "deposit" (deposit_of "15") None
                        demo_store in
  ∃ res, fst r = Return res ∧ xpAwarded res = 100 ∧
         ∃ ev, credited (users demo_store) (ledger demo_store) 1%nat 100 "deposit"
                        (Some (event_id ev)) (snd r).
Proof.
  intros r.
  pose proof (processEvent_result_matches_ledger
                (demo_env (Some vault_address)) 1%nat "deposit" (deposit_of "15") None
                demo_store (fst r) (snd r) eq_refl eq_refl (surjective_pairing r)) as H.
  assert (Hr : ∃ res, fst r = Return res ∧ xpAwarded res = 100)
    by (eexists; split; vm_compute; reflexivity).
  destruct Hr as (res & Hres & Hxp). exists res. split; [exact Hres |]. split; [exact Hxp |].
  rewrite Hres in H. destruct H as [[_ H0] | (ev & _ & _ & _ & _ & Hc)].
  - exfalso. rewrite Hxp in H0. discriminate.
  - exists ev. rewrite Hxp in Hc. exact Hc.
Defined.



Lemma bind_run {A B} (m : M A) (k : A → M B) s a s1 :
  m s = (Return a, s1) → bind m k s = k a s1.
Proof. intros H. unfold bind. rewrite H. reflexivity. Qed.

Lemma mark_run env ev' s :
  fault env OpEventSave = None →
  bind (Event_save env ev') (fun _ => ret ev') s =
  (Return ev',
   set_events (map (fun e => if Nat.eqb (event_id e) (event_id ev') then ev' else e)) s).
Proof. intros Hq. unfold bind, Event_save, calling. rewrite Hq. reflexivity. Qed.

Lemma canUserEarnXP_run env rule uid s :
  fault env OpEventFind = None →
  cooldownMinutes rule = 0 ∨
  List.filter (counts_for uid (actionType rule) (now env - cooldownMinutes rule * 60 * 1000))
              (events s) = [] →
  canUserEarnXP env rule uid s = (Return (mkCooldown true None None), s).
Proof.
  intros Hq Hcool. unfold canUserEarnXP.
  destruct (cooldownMinutes rule =? 0) eqn:Hz; [reflexivity |].
  destruct Hcool as [H0 | Hnone]; [apply Z.eqb_neq in Hz; contradiction |].
  cbv zeta. unfold bind, Event_findOne_latest, calling. rewrite Hq, Hnone. reflexivity.
Qed.

Lemma checkDailyLimit_run env rule uid s :
  fault env OpEventCount = None →
  truthy_number (dailyLimit rule) = false ∨
  Z.of_nat (length (List.filter (counts_for uid (actionType rule) (startOfDay env (now env)))
                                (events s)))
  < default 0 (dailyLimit rule) →
  ∃ lim, checkDailyLimit env rule uid s = (Return lim, s) ∧ withinLimit lim = true.
Proof.
  intros Hq Hlim. unfold checkDailyLimit.
  destruct (truthy_number (dailyLimit rule)) eqn:Ht; simpl; [| eexists; split; reflexivity].
  destruct Hlim as [H0 | Hlt]; [discriminate |].
  unfold bind, Event_countDocuments, calling. rewrite Hq.
  apply Z.leb_gt in Hlt. rewrite Hlt. eexists; split; reflexivity.
Qed.

(** The award for a user with enough balance, when no call of the ledger or
    of the event is rejected. *)
Lemma award_run env uid type ev delta s u :
  fault env OpUserFind = None → fault env OpLedgerCreate = None →
  fault env OpUserUpdate = None → fault env OpEventSave = None →
  in_enum type reason_enum = true →
  users s !! uid = Some u → 0 ≤ totalXP u + delta →
  ∃ s',
    bind (addXP env uid delta type ("XP from " +:+ type)
                (mkLedgerMeta (Some (event_id ev)) None) (Some (event_id ev)))
         (fun _ => bind (markProcessed env ev)
                     (fun event => bind (updateQuestProgress env uid type (event_id event))
                                     (fun _ => ret (awarded event delta)))) s
    = (Return (awarded (with_status ev st_processed (event_failReason ev)) delta), s') ∧
    credited (users s) (ledger s) uid delta type (Some (event_id ev)) s'.
Proof.
  intros Hq1 Hq2 Hq3 Hq4 Henum Hu Hpos.
  erewrite bind_run.
  2:{ rewrite addXP_paths, Hq1, Hu, (proj2 (Z.ltb_ge _ _) Hpos), Hq2, Henum. cbv zeta.
      rewrite Hq3. reflexivity. }
  unfold markProcessed. cbv zeta.
  erewrite bind_run by (apply mark_run, Hq4).
  unfold bind.
  match goal with |- context [updateQuestProgress ?e ?a ?b ?c ?s0] =>
    destruct (updateQuestProgress e a b c s0) as [oq s'] eqn:Eq
  end.
  apply updateQuestProgress_inv in Eq as Hq. destruct Hq as (-> & Hu' & Hl').
  exists s'. split; [reflexivity |].
  exists u, (appended_entry s uid delta type ("XP from " +:+ type)
                            (mkLedgerMeta (Some (event_id ev)) None) (Some (event_id ev))).
  split; [exact Hu |]. split; [exact Hpos |].
  split; [rewrite Hu'; simpl; rewrite (alter_as_insert _ _ _ _ Hu); reflexivity |].
  split; [rewrite Hl'; reflexivity |].
  simpl. unfold balance_of. rewrite Hu. repeat split.
Qed.



(** ** Referrals: verification, rewards and rejection *)

Lemma find_onchain_spec (s : Store) uid :
  present (find (fun e => Nat.eqb (event_userId e) uid
                          && present (txHash (event_metadata e))
                          && is_success_status (event_status e)) (events s)) = true
  ↔ has_onchain_action s uid.
Proof.
  unfold has_onchain_action. split.
  - destruct (find _ _) as [e |] eqn:Hf; [| discriminate]. intros _.
    apply find_some in Hf as [Hin Hp].
    apply andb_prop in Hp as [Hp H3]. apply andb_prop in Hp as [H1 H2].
    exists e. apply Nat.eqb_eq in H1. auto.
  - intros (e & Hin & Hu & Ht & Hs).
    destruct (find _ _) eqn:Hf; [reflexivity |].
    pose proof (find_none _ _ Hf e Hin) as Hno. simpl in Hno.
    rewrite Hu, Nat.eqb_refl, Ht, Hs in Hno. discriminate.
Qed.

(** What [checkVerification] resolves to and writes, case by case. *)
Lemma checkVerification_cases env this s o s' :
  checkVerification env this s = (o, s') →
  match o with
  | Throw _ => s' = s
  | Return (false, doc) => s' = s ∧ status doc = status this
  | Return (true, doc) =>
      status this = ref_pending ∧ status doc = ref_verified ∧
      verifiedAt doc = Some (now env) ∧
      referral_id doc = referral_id this ∧ inviterUserId doc = inviterUserId this ∧
      inviteeUserId doc = inviteeUserId this ∧
      (∃ invitee, users s !! inviteeUserId this = Some invitee ∧ criteria_met s this invitee) ∧
      s' = after_referral_save s doc
  end.
Proof.
  unfold checkVerification. intros Hrun.
  apply bind_inv in Hrun as [(ou & s1 & H1 & Hrun) | (e & H1 & ->)];
    unfold User_findById in H1; apply calling_read_inv in H1 as [-> Hu]; [| reflexivity].
  specialize (Hu _ eq_refl). subst ou.
  destruct (users s !! inviteeUserId this) as [invitee |] eqn:Eu.
  2:{ injection Hrun as <- <-. auto. }
  cbv zeta in Hrun.
  apply bind_inv in Hrun as [(b & s1 & H1 & Hrun) | (e & H1 & ->)].
  2:{ destruct (negb (firstOnchainAction _)); [| discriminate].
      apply bind_inv in H1 as [(oe & s1 & H1 & H2) | (e' & H1 & _)];
        unfold Event_findOne_onchain in H1; apply calling_read_inv in H1 as [-> _];
        [discriminate | reflexivity]. }
  assert (Hb : s1 = s ∧ (b = true → firstOnchainAction (verificationCriteria this) = true ∨
                                    has_onchain_action s (inviteeUserId this))).
  { destruct (firstOnchainAction (verificationCriteria this)) eqn:Ef; simpl in H1.
    - injection H1 as <- <-. auto.
    - apply bind_inv in H1 as [(oe & s2 & H1 & H2) | (e' & H1 & [=])].
      unfold Event_findOne_onchain in H1. apply calling_read_inv in H1 as [-> Hoe].
      injection H2 as <- <-. split; [reflexivity |].
      rewrite (Hoe _ eq_refl). intros Hp. right. apply find_onchain_spec.
      revert Hp. destruct (present (find _ _)); [reflexivity | discriminate]. }
  destruct Hb as [-> Hb].
  match type of Hrun with
  | (if ?c && _ then _ else _) _ = _ => destruct c eqn:Hall; simpl in Hrun
  end.
  2:{ injection Hrun as <- <-. auto. }
  destruct (is_ref_pending (status this)) eqn:Hpend.
  2:{ injection Hrun as <- <-. auto. }
  apply andb_prop in Hall as [Hall H3]. apply andb_prop in Hall as [H1' H2'].
  assert (Hcrit : criteria_met s this invitee).
  { split; [| split].
    - destruct (firstLogin (verificationCriteria this)); [left; reflexivity |].
      simpl in H1'. destruct (present (firstLoginAt invitee)); [right; reflexivity | discriminate].
    - apply Hb, H2'.
    - destruct (minXPReached (verificationCriteria this)); [left; reflexivity |].
      simpl in H3. destruct (_ <=? _) eqn:Hle; [| discriminate].
      right. apply Z.leb_le, Hle. }
  assert (Hst : status this = ref_pending) by (destruct (status this); try discriminate; reflexivity).
  unfold bind, Referral_save, calling, modify, throw, ret in Hrun.
  destruct (fault env OpReferralSave); injection Hrun as <- <-; [reflexivity |].
  repeat split; eauto.
Qed.

(** X10.  A referral is verified only from [pending] and only on the
    criteria, and progress short of verification is not saved.  When
    [checkVerification] resolves to verified, the document was pending, each
    criterion was noted on it or holds for the invitee in the store, and the
    only write is the save of the document, now [verified] with [verifiedAt]
    the instant of the call.  When it resolves to not verified, or throws,
    the store is exactly as before, although the document it resolves to
    may note criteria that were met. *)
Theorem checkVerification_verifies_only_pending env this s o s' :
  checkVerification env this s = (o, s') →
  match o with
  | Throw _ => s' = s
  | Return (false, doc) => s' = s ∧ status doc = status this
  | Return (true, doc) =>
      status this = ref_pending ∧ status doc = ref_verified ∧
      verifiedAt doc = Some (now env) ∧
      referral_id doc = referral_id this ∧ inviterUserId doc = inviterUserId this ∧
      inviteeUserId doc = inviteeUserId this ∧
      (∃ invitee, users s !! inviteeUserId this = Some invitee ∧ criteria_met s this invitee) ∧
      s' = after_referral_save s doc
  end.
Proof. apply checkVerification_cases. Qed.

Lemma checkVerification_verifies_only_pending_witness :
  ∃ r doc s',
    stored_referral referred_store 2%nat = Some r ∧
    checkVerification (demo_env (Some vault_address)) r referred_store
      = (Return (true, doc), s') ∧
    status r = ref_pending ∧ status doc = ref_verified ∧
    s' = after_referral_save referred_store doc.
Proof.
  assert (H : ∃ r doc s',
             stored_referral referred_store 2%nat = Some r ∧
             checkVerification (demo_env (Some vault_address)) r referred_store
               = (Return (true, doc), s'))
    by (eexists _, _, _; split; vm_compute; reflexivity).
  destruct H as (r & doc & s' & Hr & Hrun). exists r, doc, s'.
  split; [exact Hr |]. split; [exact Hrun |].
  pose proof (checkVerification_verifies_only_pending _ _ _ _ _ Hrun) as H. simpl in H.
  destruct H as (H1 & H2 & _ & _ & _ & _ & _ & H3). auto.
Defined.

(** X11.  A pending referral whose criteria hold is verified, and the
    verification is stored.  When the reads and the save are not rejected,
    the document is pending, the invitee exists, and each criterion is noted
    on the document or holds in the store (the invitee has logged in, has an
    on-chain event in status verified or processed, has at least the
    threshold of XP), [checkVerification] resolves to verified; the document
    it saved has status [verified] and notes all three criteria, and it is
    what the store then holds under the id of the referral. *)
Theorem checkVerification_verifies env this s invitee :
  fault env OpUserFind = None → fault env OpEventFind = None →
  fault env OpReferralSave = None →
  status this = ref_pending →
  users s !! inviteeUserId this = Some invitee →
  criteria_met s this invitee →
  ∃ doc,
    checkVerification env this s = (Return (true, doc), after_referral_save s doc) ∧
    status doc = ref_verified ∧ referral_id doc = referral_id this ∧
    verificationCriteria doc
      = mkCriteria true true true (minXPThreshold (verificationCriteria this)) ∧
    (stored_referral s (referral_id this) ≠ None →
     stored_referral (after_referral_save s doc) (referral_id this) = Some doc).
Proof.
  intros Hq1 Hq2 Hq3 Hst Hu (Hc1 & Hc2 & Hc3).
  unfold checkVerification.
  erewrite bind_run by (unfold User_findById, calling; rewrite Hq1, Hu; reflexivity).
  cbv beta iota zeta.
  assert (Hlogin : (if negb (firstLogin (verificationCriteria this))
                       && present (firstLoginAt invitee)
                    then true else firstLogin (verificationCriteria this)) = true).
  { destruct (firstLogin (verificationCriteria this)); [reflexivity |].
    destruct Hc1 as [[=] | ->]. reflexivity. }
  assert (Hxp : (if negb (minXPReached (verificationCriteria this))
                     && (minXPThreshold (verificationCriteria this) <=? totalXP invitee)
                  then true else minXPReached (verificationCriteria this)) = true).
  { destruct (minXPReached (verificationCriteria this)); [reflexivity |].
    destruct Hc3 as [[=] | Hle]. apply Z.leb_le in Hle. rewrite Hle. reflexivity. }
  assert (Hon : ∀ s0, events s0 = events s → 
            (if negb (firstOnchainAction (verificationCriteria this))
             then await onchainEvent <- Event_findOne_onchain env (inviteeUserId this) ;;
                  ret (if present onchainEvent then true
                       else firstOnchainAction (verificationCriteria this))
             else ret (firstOnchainAction (verificationCriteria this))) s0
            = (Return true, s0)).
  { intros s0 He. destruct (firstOnchainAction (verificationCriteria this)); [reflexivity |].
    destruct Hc2 as [[=] | Hc2]. simpl.
    unfold bind, Event_findOne_onchain, calling. rewrite Hq2.
    apply find_onchain_spec in Hc2. rewrite He, Hc2. reflexivity. }
  erewrite bind_run by (apply Hon; reflexivity).
  rewrite Hlogin, Hxp, Hst. simpl.
  unfold bind, Referral_save, calling. rewrite Hq3. simpl.
  match goal with |- ∃ doc, ret (true, ?d) _ = _ ∧ _ => exists d end.
  split; [reflexivity |]. split; [reflexivity |]. split; [reflexivity |].
  split; [reflexivity |].
  intros Hstored. unfold stored_referral, after_referral_save. simpl.
  match goal with |- find _ (map (fun r => if _ then ?d else r) _) = _ =>
    exact (stored_after_save (referrals s) d Hstored)
  end.
Qed.

Lemma checkVerification_verifies_witness :
  ∃ r doc,
    stored_referral referred_store 2%nat = Some r ∧
    checkVerification (demo_env (Some vault_address)) r referred_store
      = (Return (true, doc), after_referral_save referred_store doc) ∧
    stored_referral (after_referral_save referred_store doc) 2%nat = Some doc.
Proof.
  assert (H : ∃ r, stored_referral referred_store 2%nat = Some r ∧ referral_id r = 2%nat ∧
                   status r = ref_pending ∧ inviteeUserId r = 2%nat ∧
                   verificationCriteria r = mkCriteria false false false 100)
    by (eexists; repeat split; vm_compute; reflexivity).
  destruct H as (r & Hr & Hid & Hst & Hinv & Hcrit).
  assert (Hu : users referred_store !! inviteeUserId r
               = Some (mkUser 100 (Some 1700000000000)))
    by (rewrite Hinv; vm_compute; reflexivity).
  destruct (checkVerification_verifies (demo_env (Some vault_address)) r referred_store
              (mkUser 100 (Some 1700000000000)) eq_refl eq_refl eq_refl Hst Hu)
    as (doc & Hrun & _ & _ & _ & Hstored).
  - unfold criteria_met. rewrite Hcrit, Hinv.
    split; [right; reflexivity | split; [right | right; simpl; lia]].
    apply find_onchain_spec. vm_compute. reflexivity.
  - exists r, doc. split; [exact Hr |]. split; [exact Hrun |].
    rewrite <- Hid. apply Hstored. rewrite Hid, Hr. discriminate.
Defined.

(** What [addXP] leaves alone. *)
Lemma addXP_frame env uid delta rsn desc meta eid s o s' :
  addXP env uid delta rsn desc meta eid s = (o, s') →
  referrals s' = referrals s ∧ events s' = events s ∧ rules s' = rules s ∧
  (nextId s ≤ nextId s')%nat.
Proof.
  rewrite addXP_paths.
  destruct (fault env OpUserFind); [intros [= <- <-]; auto |].
  destruct (users s !! uid) as [u |]; [| intros [= <- <-]; auto].
  destruct (_ <? 0); [intros [= <- <-]; auto |].
  destruct (fault env OpLedgerCreate); [intros [= <- <-]; auto |].
  destruct (in_enum _ _); [| intros [= <- <-]; auto].
  cbv zeta. destruct (fault env OpUserUpdate); intros [= <- <-]; simpl; auto.
Qed.

(** X12.  Rewards are not rolled back.  When [distributeRewards] throws,
    the referrals are exactly as before, so a verified referral stays
    verified and the call can be made again; but the ledger may have grown
    by up to two entries, each a reward of this referral: the reward of the
    inviter when the award of the invitee failed, both rewards when the save
    of the referral failed. *)
Theorem distributeRewards_keeps_what_it_paid env this inviterXP inviteeXP s e s' :
  distributeRewards env this inviterXP inviteeXP s = (Throw e, s') →
  referrals s' = referrals s ∧
  ∃ l, ledger s' = ledger s ++ l ∧ (length l ≤ 2)%nat ∧
       ∀ x, In x l →
            lm_referralId (metadata x) = Some (referral_id this) ∧
            ((userId x = inviterUserId this ∧ deltaXP x = inviterXP ∧
              reason x = "referral_reward_inviter") ∨
             (userId x = inviteeUserId this ∧ deltaXP x = inviteeXP ∧
              reason x = "referral_reward_invitee")).
Proof.
  unfold distributeRewards.
  destruct (is_ref_verified (status this)); simpl.
  2:{ intros [= _ <-]. split; [reflexivity |]. exists []. rewrite app_nil_r.
      split; [reflexivity |]. split; [simpl; lia | intros x []]. }
  intros Hrun.
  assert (Hstep : ∀ uid delta rsn desc s0 o0 s1,
            addXP env uid delta rsn desc (mkLedgerMeta None (Some (referral_id this))) None s0
              = (o0, s1) →
            referrals s1 = referrals s0 ∧
            ((ledger s1 = ledger s0 ∧ ∃ e0, o0 = Throw e0) ∨
             ∃ x, ledger s1 = ledger s0 ++ [x] ∧
                  lm_referralId (metadata x) = Some (referral_id this) ∧
                  userId x = uid ∧ deltaXP x = delta ∧ reason x = rsn)).
  { intros uid delta rsn desc s0 o0 s1 H. split; [apply (addXP_frame _ _ _ _ _ _ _ _ _ _ H) |].
    apply addXP_cases in H as [(-> & He) | (u & _ & _ & _ & Hl & _)]; [left; auto |].
    right. eexists. split; [exact Hl |]. repeat split. }
  apply bind_inv in Hrun as [(e1 & s1 & H1 & Hrun) | (e0 & H1 & _)];
    apply Hstep in H1 as (Hr1 & H1).
  2:{ split; [exact Hr1 |].
      destruct H1 as [(Hl & _) | (x & Hl & Hx)].
      - exists []. rewrite app_nil_r. split; [exact Hl |]. split; [simpl; lia | intros ? []].
      - exists [x]. split; [exact Hl |]. split; [simpl; lia |].
        intros ? [<- | []]. destruct Hx as (? & ? & ? & ?). auto. }
  destruct H1 as [(_ & e0 & [=]) | (x1 & Hl1 & Hm1 & Hx1)].
  apply bind_inv in Hrun as [(e2 & s2 & H2 & Hrun) | (e0 & H2 & _)];
    apply Hstep in H2 as (Hr2 & H2).
  2:{ split; [congruence |].
      destruct H2 as [(Hl & _) | (x2 & Hl2 & Hm2 & Hx2)].
      - exists [x1]. split; [congruence |]. split; [simpl; lia |].
        intros ? [<- | []]. destruct Hx1 as (? & ? & ?). auto.
      - exists [x1; x2]. split; [rewrite Hl2, Hl1, <- app_assoc; reflexivity |].
        split; [simpl; lia |].
        intros ? [<- | [<- | []]]; [destruct Hx1 as (? & ? & ?) | destruct Hx2 as (? & ? & ?)];
          auto. }
  destruct H2 as [(_ & e0 & [=]) | (x2 & Hl2 & Hm2 & Hx2)].
  unfold bind, Referral_save, calling, modify, throw, ret in Hrun.
  destruct (fault env OpReferralSave); [| discriminate].
  injection Hrun as _ <-. split; [congruence |].
  exists [x1; x2]. split; [rewrite Hl2, Hl1, <- app_assoc; reflexivity |].
  split; [simpl; lia |].
  intros ? [<- | [<- | []]]; [destruct Hx1 as (? & ? & ?) | destruct Hx2 as (? & ? & ?)]; auto.
Qed.

Lemma distributeRewards_keeps_what_it_paid_witness :
  ∃ r s' s'',
    stored_referral orphan_store 9%nat = Some r ∧
    distributeRewards (demo_env None) r 500 100 orphan_store
      = (Throw (new_Error "User not found"), s') ∧
    distributeRewards (demo_env None) r 500 100 s'
      = (Throw (new_Error "User not found"), s'') ∧
    referrals s'' = referrals orphan_store ∧
    balance_of s'' 1%nat = 1000.
Proof.
  assert (H : ∃ r s' s'',
            stored_referral orphan_store 9%nat = Some r ∧
            distributeRewards (demo_env None) r 500 100 orphan_store
              = (Throw (new_Error "User not found"), s') ∧
            distributeRewards (demo_env None) r 500 100 s'
              = (Throw (new_Error "User not found"), s'') ∧
            balance_of s'' 1%nat = 1000)
    by (eexists _, _, _; repeat split; vm_compute; reflexivity).
  destruct H as (r & s' & s'' & Hr & H1 & H2 & Hb). exists r, s', s''.
  split; [exact Hr |]. split; [exact H1 |]. split; [exact H2 |]. split; [| exact Hb].
  destruct (distributeRewards_keeps_what_it_paid _ _ _ _ _ _ _ H1) as [Hr1 _].
  destruct (distributeRewards_keeps_what_it_paid _ _ _ _ _ _ _ H2) as [Hr2 _].
  congruence.
Defined.

(** X13.  Rejection is final and touches no balance.  [reject] sets the
    status to [rejected] whatever it was, also for a referral that was
    rewarded, and saves the document; the users and the ledger are as before
    (rewards that were paid stay paid).  On the rejected document
    [distributeRewards] throws without writing and [checkVerification] never
    verifies; and when the referral is in the store, the store holds the
    rejected document under its id and a new referral for the invitee is
    still refused. *)
Theorem reject_is_final env env' this why s r' s' :
  reject env this why s = (Return r', s') →
  status r' = ref_rejected ∧ r' = with_referral_status this ref_rejected ∧
  s' = after_referral_save s r' ∧ users s' = users s ∧ ledger s' = ledger s ∧
  (∀ a b st, distributeRewards env' r' a b st =
             (Throw (new_Error "Referral must be verified before distributing rewards"), st)) ∧
  (∀ st o st', checkVerification env' r' st = (o, st') →
               st' = st ∧ ∀ b doc, o = Return (b, doc) → b = false ∧ status doc = ref_rejected) ∧
  (In this (referrals s) →
   stored_referral s' (referral_id this) = Some r' ∧
   (fault env' OpReferralFind = None →
    ∀ inviter code, createReferral env' inviter (inviteeUserId this) code s' =
                    (Throw (new_Error "User has already been referred"), s'))).
Proof.
  unfold reject. cbv zeta. unfold bind, Referral_save, calling, modify, throw, ret.
  destruct (fault env OpReferralSave); [discriminate |]. intros [= <- <-].
  split; [reflexivity |]. split; [reflexivity |]. split; [reflexivity |].
  split; [reflexivity |]. split; [reflexivity |]. split; [| split].
  - intros. apply distributeRewards_unverified. discriminate.
  - intros st o st' Hrun.
    apply checkVerification_cases in Hrun.
    destruct o as [[[] doc] | e].
    + destruct Hrun as ([=] & _).
    + destruct Hrun as [-> Hst]. split; [reflexivity |]. intros b doc' [= <- <-]. auto.
    + split; [exact Hrun | discriminate].
  - intros Hin.
    assert (Hstored : find (fun r => Nat.eqb (referral_id r) (referral_id this)) (referrals s)
                      ≠ None).
    { intros Hnone. pose proof (find_none _ _ Hnone this Hin) as Hno. simpl in Hno.
      rewrite Nat.eqb_refl in Hno. discriminate. }
    split.
    + unfold stored_referral. simpl.
      exact (stored_after_save (referrals s) (with_referral_status this ref_rejected) Hstored).
    + intros Hq inviter code. apply createReferral_again; [exact Hq |].
      simpl. apply existsb_exists.
      exists (with_referral_status this ref_rejected). split; [| simpl; apply Nat.eqb_refl].
      apply in_map_iff. exists this. split; [| exact Hin].
      simpl. rewrite Nat.eqb_refl. reflexivity.
Qed.

Lemma reject_is_final_witness :
  ∃ r r' s',
    stored_referral rewarded_store 2%nat = Some r ∧ status r = ref_rewarded ∧
    reject (demo_env None) r "sybil" rewarded_store = (Return r', s') ∧
    status r' = ref_rejected ∧ balance_of s' 1%nat = 470 ∧
    stored_referral s' 2%nat = Some r'.
Proof.
  assert (H : ∃ r r' s',
            stored_referral rewarded_store 2%nat = Some r ∧ status r = ref_rewarded ∧
            referral_id r = 2%nat ∧ In r (referrals rewarded_store) ∧
            reject (demo_env None) r "sybil" rewarded_store = (Return r', s') ∧
            balance_of s' 1%nat = 470).
  { eexists _, _, _. split; [vm_compute; reflexivity |]. split; [reflexivity |].
    split; [reflexivity |]. split; [vm_compute; left; reflexivity |].
    split; vm_compute; reflexivity. }
  destruct H as (r & r' & s' & Hr & Hst & Hid & Hin & Hrun & Hb).
  exists r, r', s'. split; [exact Hr |]. split; [exact Hst |]. split; [exact Hrun |].
  destruct (reject_is_final (demo_env None) (demo_env None) r "sybil" rewarded_store r' s' Hrun)
    as (Hst' & _ & _ & _ & _ & _ & _ & Hstored).
  split; [exact Hst' |]. split; [exact Hb |].
  rewrite <- Hid. apply Hstored, Hin.
Defined.

(** ** The registry and the verification of transactions *)

Lemma lower_ascii_idem c : lower_ascii (lower_ascii c) = lower_ascii c.
Proof. destruct c as [[] [] [] [] [] [] [] []]; reflexivity. Qed.

Lemma toLowerCase_idem a : toLowerCase (toLowerCase a) = toLowerCase a.
Proof. induction a as [| c a IH]; simpl; [reflexivity |]. rewrite lower_ascii_idem, IH. reflexivity. Qed.

Lemma truthy_toLowerCase a : truthy_string (Some (toLowerCase a)) = truthy_string (Some a).
Proof. destruct a; reflexivity. Qed.

Lemma isNuviaContract_spec env a :
  isNuviaContract env (Some a) = true ↔
  a ≠ "" ∧ ∃ key b, In (key, Some b) (contracts env) ∧ toLowerCase b = toLowerCase a.
Proof.
  unfold isNuviaContract. simpl. destruct (String.eqb_spec a "") as [-> | Hne]; simpl.
  - split; [discriminate | intros [[] _]; reflexivity].
  - rewrite existsb_exists. split.
    + intros (x & Hx & Heq). split; [exact Hne |].
      apply in_map_iff in Hx as ([key b] & <- & Hin). simpl in Heq.
      destruct b as [b |]; [| discriminate]. simpl in Heq. apply String.eqb_eq in Heq.
      exists key, b. auto.
    + intros (_ & key & b & Hin & Heq). exists (Some (toLowerCase b)). split.
      * apply in_map_iff. exists (key, Some b). auto.
      * rewrite Heq. apply String.eqb_refl.
Qed.

Lemma contract_type_in_listed entries n t :
  contract_type_in entries n = Some t →
  ∃ key b, In (key, Some b) entries ∧ toLowerCase b = n.
Proof.
  induction entries as [| [key b] rest IH]; simpl; [discriminate |].
  intros H.
  assert (Hrest : contract_type_in rest n = Some t →
                  ∃ key0 b0, In (key0, Some b0) ((key, b) :: rest) ∧ toLowerCase b0 = n).
  { intros H'. destruct (IH H') as (k & b' & Hin & Heq). exists k, b'. split; [right |]; auto. }
  destruct (address_is b n) eqn:Ha; [| auto].
  assert (Hhere : ∃ key0 b0, In (key0, Some b0) ((key, b) :: rest) ∧ toLowerCase b0 = n).
  { unfold address_is in Ha. destruct b as [b |]; [| discriminate]. simpl in Ha.
    apply String.eqb_eq in Ha. exists key, b. split; [left; reflexivity | exact Ha]. }
  destruct (String.eqb key "faucet"); [exact Hhere |].
  destruct (String.prefix "vault" key); [exact Hhere |].
  destruct (String.prefix "strategy" key); [exact Hhere | auto].
Qed.

Lemma contract_at_listed env key a :
  contract_at env key = Some a → In (key, Some a) (contracts env).
Proof.
  unfold contract_at. destruct (find _ _) as [[k b] |] eqn:Hf; [| discriminate].
  intros ->. apply find_some in Hf as [Hin Hk]. simpl in Hk.
  apply String.eqb_eq in Hk. subst k. exact Hin.
Qed.

(** X14.  The answers of the registry agree.  An address to which
    [getContractType] gives a type is a contract for [isNuviaContract]; both
    answers are the same for an address and for its lower-case form; and an
    address [getExpectedContract] resolves to (a non-empty one) is a
    contract for [isNuviaContract]. *)
Theorem registry_answers_agree env :
  (∀ address t, getContractType env address = Some t → isNuviaContract env address = true) ∧
  (∀ a, isNuviaContract env (Some (toLowerCase a)) = isNuviaContract env (Some a) ∧
        getContractType env (Some (toLowerCase a)) = getContractType env (Some a)) ∧
  (∀ type meta a, getExpectedContract env type meta = Some a → a ≠ "" →
                  isNuviaContract env (Some a) = true).
Proof.
  split; [| split].
  - intros [a |] t; unfold getContractType; [| discriminate].
    destruct (truthy_string (Some a)) eqn:Ht; simpl; [| discriminate].
    intros H. apply contract_type_in_listed in H as (key & b & Hin & Heq).
    apply isNuviaContract_spec. split; [| eauto].
    intros ->. discriminate.
  - intros a. unfold isNuviaContract, getContractType.
    rewrite truthy_toLowerCase. simpl default. rewrite toLowerCase_idem. auto.
  - intros type meta a H Hne. apply isNuviaContract_spec. split; [exact Hne |].
    unfold getExpectedContract, getFaucet, getVault, getStrategy in H.
    repeat match type of H with
           | (if ?c then _ else _) = _ => destruct c
           end;
      try discriminate; apply contract_at_listed in H; eauto.
Qed.

(** The registry can hold a contract that has no type. *)
Example contract_without_type :
  isNuviaContract (quiet_env 0 no_receipts full_registry) (Some stray_address) = true ∧
  getContractType (quiet_env 0 no_receipts full_registry) (Some stray_address) = None ∧
  getContractType (quiet_env 0 no_receipts full_registry) (Some strategy_address)
    = Some ct_strategy.
Proof. repeat split. Qed.

(** What a verified transaction is: on the chain, successful, and sent to
    the expected contract when one is given. *)
Lemma verifyTransaction_verified env hash chain_id expected s :
  ∃ v, verifyTransaction env hash chain_id expected s = (Return v, s) ∧
       (verified v = true →
        ∃ h c r, hash = Some h ∧ chain_id = Some c ∧ chain env h c = Some r ∧
                 verification_receipt v = Some r ∧ receipt_status r = 1 ∧
                 In c (providers env) ∧
                 (truthy_string expected = true →
                  ∃ dest, receipt_to r = Some dest ∧
                          toLowerCase dest = toLowerCase (default "" expected))).
Proof.
  unfold verifyTransaction, try_catch, bind, getTransactionReceipt, calling.
  destruct (includes_number (providers env) chain_id) eqn:Hprov; simpl.
  2:{ eexists. split; [reflexivity | discriminate]. }
  destruct (fault env OpReceipt).
  { eexists. split; [reflexivity | discriminate]. }
  unfold ret.
  destruct hash as [h |], chain_id as [c |];
    try (eexists; split; [reflexivity | discriminate]).
  destruct (chain env h c) as [r |] eqn:Hr; [| eexists; split; [reflexivity | discriminate]].
  destruct (receipt_status r =? 1) eqn:Hst; simpl;
    [| eexists; split; [reflexivity | discriminate]].
  apply Z.eqb_eq in Hst. apply includes_number_In in Hprov.
  destruct (truthy_string expected) eqn:Hexp; simpl.
  - destruct (receipt_to r) as [dest |] eqn:Hto; simpl.
    + destruct (String.eqb_spec (toLowerCase dest) (toLowerCase (default "" expected)));
        simpl; eexists; (split; [reflexivity |]); [| discriminate].
      intros _. exists h, c, r. repeat split; auto. intros _. eauto.
    + eexists. split; [reflexivity | discriminate].
  - eexists. split; [reflexivity |]. intros _. exists h, c, r. repeat split; auto.
    discriminate.
Qed.

(** X15.  A verified on-chain event reached the contract that was
    expected.  [verifyOnchainEvent] always resolves and writes nothing.  When
    it verifies, the chain has a provider, the transaction is on it and
    succeeded; its destination is, up to case, the expected contract if
    there is one: the contract address of the metadata, or, when the metadata
    have none but name a token, the contract of the registry for the event
    type of the metadata, which is the vault of the token when the metadata
    name no event type, whatever action was submitted; and the destination,
    if the receipt has one, is a contract of the registry. *)
Theorem verified_event_reached_expected_contract env meta s :
  ∃ v, verifyOnchainEvent env meta s = (Return v, s) ∧
       (verified v = true →
        ∃ h c r, txHash meta = Some h ∧ chainId meta = Some c ∧ chain env h c = Some r ∧
                 receipt_status r = 1 ∧ In c (providers env) ∧
                 (truthy_string (expected_contract env meta) = true →
                  ∃ dest, receipt_to r = Some dest ∧
                          toLowerCase dest
                          = toLowerCase (default "" (expected_contract env meta))) ∧
                 (truthy_string (receipt_to r) = true →
                  isNuviaContract env (receipt_to r) = true)).
Proof.
  unfold verifyOnchainEvent, try_catch, bind. cbv zeta.
  fold (expected_contract env meta).
  destruct (verifyTransaction_verified env (txHash meta) (chainId meta)
              (expected_contract env meta) s) as (v & Ev & Hv).
  rewrite Ev.
  destruct (verified v) eqn:Hver; simpl.
  - destruct (Hv eq_refl) as (h & c & r & Hh & Hc & Hr & Hrec & Hst & Hprov & Hdest).
    rewrite Hrec.
    destruct (truthy_string (receipt_to r)) eqn:Hto.
    + destruct (isNuviaContract env (receipt_to r)) eqn:Hn; simpl.
      * eexists. split; [reflexivity |]. intros _. exists h, c, r. auto 10.
      * eexists. split; [reflexivity | discriminate].
    + eexists. split; [reflexivity |]. rewrite Hver. intros _. exists h, c, r.
      do 6 (split; [assumption |]). rewrite Hto. discriminate.
  - eexists. split; [reflexivity |]. rewrite Hver. discriminate.
Qed.

(** A supply whose metadata name the token and no event type is held
    against the vault: the transaction to the strategy, a contract of the
    registry, does not verify. *)
Example supply_is_held_against_the_vault :
  let env := quiet_env 1700000000000 (chain_with (Some strategy_address)) full_registry in
  expected_contract env supply_meta = Some vault_address ∧
  isNuviaContract env (Some strategy_address) = true ∧
  ∀ s, verifyOnchainEvent env supply_meta s
       = (Return (rejected "Transaction not sent to expected contract"), s).
Proof. split; [reflexivity |]. split; [reflexivity |]. intros s. reflexivity. Qed.

(** ** The referrals over a sequence of requests *)

Section IdFrame.
Variable env : Env.
Variable R : list Referral.
Variable n : ObjectId.

Lemma keeps_Event_createEvent_frame uid type meta key :
  keeps (id_frame R n) (Event_createEvent env uid type meta key).
Proof.
  apply keeps_calling. intros s o s' Hrun [Hr Hn]. cbv zeta in Hrun.
  destruct (existsb _ (events s)); injection Hrun as <- <-; split; simpl; auto.
Qed.

Lemma keeps_Event_save_frame ev : keeps (id_frame R n) (Event_save env ev).
Proof. apply keeps_calling, keeps_modify. intros s [Hr Hn]. split; assumption. Qed.

Lemma keeps_addXP_frame uid delta rsn desc meta eid :
  keeps (id_frame R n) (addXP env uid delta rsn desc meta eid).
Proof.
  intros s o s' Hrun [Hr Hn]. apply addXP_frame in Hrun as (Hr' & _ & _ & Hn').
  split; [congruence | lia].
Qed.

Lemma keeps_updateQuestProgress_frame uid type eid :
  keeps (id_frame R n) (updateQuestProgress env uid type eid).
Proof.
  apply keeps_try_catch; [| intros; apply keeps_ret].
  apply keeps_bind; [apply keeps_Quest_find_active |]. intros l.
  induction l as [| q l IH]; simpl; [apply keeps_ret |].
  destruct (match cadence q with one_time => _ | _ => _ end) as [a b].
  apply keeps_bind.
  { apply keeps_calling. intros s o s' Hrun Hs. cbv zeta in Hrun.
    destruct (find _ (progress s)); injection Hrun as <- <-; exact Hs. }
  intros p. apply keeps_bind; [| intros _; exact IH].
  apply keeps_calling. intros s o s' [= <- <-] Hs. exact Hs.
Qed.

Lemma keeps_processEvent_frame uid type meta dedupKey :
  keeps (id_frame R n) (processEvent env uid type meta dedupKey).
Proof.
  pose proof keeps_Event_createEvent_frame. pose proof keeps_Event_save_frame.
  pose proof keeps_addXP_frame. pose proof keeps_updateQuestProgress_frame.
  apply keeps_try_catch.
  - unfold processEvent_try, processEvent_recorded, markProcessed, markVerified, markFailed.
    keeps_flow.
  - intros e. keeps_flow.
Qed.
End IdFrame.

Lemma referrals_wf_frame s s' :
  referrals s' = referrals s → (nextId s ≤ nextId s')%nat → referrals_wf s → referrals_wf s'.
Proof.
  intros Hr Hn (H1 & H2 & H3). unfold referrals_wf. rewrite Hr.
  split; [exact H1 |]. split; [exact H2 |]. intros r Hin. specialize (H3 r Hin). lia.
Qed.

(** Saving a document with the id and the invitee of a stored referral
    leaves the ids and the invitees of the referrals as they are. *)
Lemma save_keeps_keys (l : list Referral) (doc : Referral) :
  NoDup (map referral_id l) →
  (∃ r, In r l ∧ referral_id r = referral_id doc ∧ inviteeUserId r = inviteeUserId doc) →
  map referral_id (map (fun r => if Nat.eqb (referral_id r) (referral_id doc) then doc else r) l)
    = map referral_id l ∧
  map inviteeUserId
      (map (fun r => if Nat.eqb (referral_id r) (referral_id doc) then doc else r) l)
    = map inviteeUserId l.
Proof.
  intros Hnd (r0 & Hin & Hid & Hinv).
  assert (Hall : ∀ r, In r l → referral_id r = referral_id doc →
                      inviteeUserId r = inviteeUserId doc).
  { intros r Hr Hr'. 
    assert (r = r0); [| congruence].
    clear Hinv. induction l as [| x l IH]; [destruct Hin |].
    simpl in Hnd. apply NoDup_cons in Hnd as [Hx Hnd].
    destruct Hin as [-> | Hin], Hr as [-> | Hr]; [reflexivity | | | auto].
    - exfalso. apply Hx. apply list_elem_of_fmap. exists r. split; [congruence |].
      apply list_elem_of_In, Hr.
    - exfalso. apply Hx. apply list_elem_of_fmap. exists r0. split; [congruence |].
      apply list_elem_of_In, Hin. }
  clear Hnd r0 Hin Hid Hinv.
  induction l as [| x l IH]; simpl; [auto |].
  destruct IH as [IH1 IH2]; [intros r Hr; apply Hall; right; exact Hr |].
  rewrite IH1, IH2.
  destruct (Nat.eqb_spec (referral_id x) (referral_id doc)) as [Heq | Hne]; [| auto].
  rewrite <- (Hall x (or_introl eq_refl) Heq), Heq. auto.
Qed.

Lemma keeps_referral_save_wf s doc :
  referrals_wf s →
  (∃ r, In r (referrals s) ∧ referral_id r = referral_id doc ∧
        inviteeUserId r = inviteeUserId doc) →
  referrals_wf (after_referral_save s doc).
Proof.
  intros (H1 & H2 & H3) Hdoc.
  destruct (save_keeps_keys (referrals s) doc H2 Hdoc) as [Hids Hinv].
  unfold referrals_wf, after_referral_save. simpl. rewrite Hids, Hinv.
  split; [exact H1 |]. split; [exact H2 |].
  intros r Hr. apply in_map_iff in Hr as (x & Hx & Hin).
  destruct (Nat.eqb_spec (referral_id x) (referral_id doc)) as [Heq | Hne].
  - subst r. rewrite <- Heq. apply H3, Hin.
  - subst r. apply H3, Hin.
Qed.

Lemma stored_referral_In s rid r :
  stored_referral s rid = Some r → In r (referrals s) ∧ referral_id r = rid.
Proof.
  unfold stored_referral. intros H. apply find_some in H as [Hin Hid].
  apply Nat.eqb_eq in Hid. auto.
Qed.

Lemma Referral_create_wf env inviter invitee code s o s' :
  Referral_create env inviter invitee code s = (o, s') → referrals_wf s → referrals_wf s'.
Proof.
  unfold Referral_create, calling, throw. intros Hrun Hwf.
  destruct (fault env OpReferralCreate); [injection Hrun as <- <-; exact Hwf |].
  cbv zeta in Hrun.
  destruct (existsb _ (referrals s)) eqn:Hex; injection Hrun as <- <-; [exact Hwf |].
  destruct Hwf as (H1 & H2 & H3).
  unfold referrals_wf. simpl. rewrite !map_app. simpl.
  split; [| split].
  - apply NoDup_app. split; [exact H1 |]. split; [| apply NoDup_singleton].
    intros x Hx Hx'. apply list_elem_of_singleton in Hx'. subst x.
    apply list_elem_of_In, in_map_iff in Hx as (r & Hr & Hin).
    assert (existsb (fun r => Nat.eqb (inviteeUserId r) invitee) (referrals s) = true);
      [| congruence].
    apply existsb_exists. exists r. split; [exact Hin | apply Nat.eqb_eq, Hr].
  - apply NoDup_app. split; [exact H2 |]. split; [| apply NoDup_singleton].
    intros x Hx Hx'. apply list_elem_of_singleton in Hx'. subst x.
    apply list_elem_of_In, in_map_iff in Hx as (r & Hr & Hin).
    specialize (H3 r Hin). lia.
  - intros r Hr. apply in_app_iff in Hr as [Hr | [<- | []]]; [specialize (H3 r Hr); lia |].
    simpl. lia.
Qed.

Lemma createReferral_wf env inviter invitee code s o s' :
  createReferral env inviter invitee code s = (o, s') → referrals_wf s → referrals_wf s'.
Proof.
  unfold createReferral, try_catch. intros Hrun Hwf.
  destruct (bind _ _ s) as [o1 s1] eqn:Htry.
  assert (Hwf1 : referrals_wf s1).
  { apply bind_inv in Htry as [(ex & s0 & H1 & H2) | (e & H1 & _)];
      unfold Referral_findOne_invitee in H1; apply calling_read_inv in H1 as [-> _];
      [| exact Hwf].
    destruct ex; [injection H2 as _ <-; exact Hwf |].
    apply bind_inv in H2 as [(r0 & s2 & H2 & H3) | (e & H2 & _)].
    - injection H3 as _ <-. eapply Referral_create_wf; eauto.
    - eapply Referral_create_wf; eauto. }
  destruct o1 as [r | e]; [injection Hrun as _ <-; exact Hwf1 |].
  destruct (has_code e 11000); injection Hrun as _ <-; exact Hwf1.
Qed.

Lemma checkVerification_wf env r s o s' :
  In r (referrals s) →
  checkVerification env r s = (o, s') → referrals_wf s → referrals_wf s'.
Proof.
  intros Hin Hrun Hwf. apply checkVerification_cases in Hrun.
  destruct o as [[[] doc] | e]; [| destruct Hrun as [-> _]; exact Hwf | subst s'; exact Hwf].
  destruct Hrun as (_ & _ & _ & Hid & _ & Hinv & _ & ->).
  apply keeps_referral_save_wf; [exact Hwf |]. exists r. auto.
Qed.

Lemma distributeRewards_wf env r a b s o s' :
  In r (referrals s) →
  distributeRewards env r a b s = (o, s') → referrals_wf s → referrals_wf s'.
Proof.
  intros Hin Hrun Hwf. unfold distributeRewards in Hrun.
  destruct (negb (is_ref_verified (status r))); [injection Hrun as <- <-; exact Hwf |].
  assert (Hadd : ∀ uid delta rsn desc meta s0 o0 s1,
            addXP env uid delta rsn desc meta None s0 = (o0, s1) →
            referrals s0 = referrals s ∧ (nextId s ≤ nextId s0)%nat →
            referrals s1 = referrals s ∧ (nextId s ≤ nextId s1)%nat).
  { intros uid delta rsn desc meta s0 o0 s1 H [Hr Hn].
    apply addXP_frame in H as (Hr' & _ & _ & Hn'). split; [congruence | lia]. }
  apply bind_inv in Hrun as [(e1 & s1 & H1 & Hrun) | (e0 & H1 & _)];
    apply Hadd in H1 as [Hr1 Hn1]; auto;
    [| eapply referrals_wf_frame; eauto].
  apply bind_inv in Hrun as [(e2 & s2 & H2 & Hrun) | (e0 & H2 & _)];
    apply Hadd in H2 as [Hr2 Hn2]; auto;
    [| eapply referrals_wf_frame; eauto].
  assert (Hwf2 : referrals_wf s2) by (eapply referrals_wf_frame; eauto).
  unfold bind, Referral_save, calling, modify, throw, ret in Hrun.
  destruct (fault env OpReferralSave); injection Hrun as <- <-; [exact Hwf2 |].
  match goal with |- referrals_wf (set_referrals (map (fun x => if _ then ?d else x)) s2) =>
    apply (keeps_referral_save_wf s2 d Hwf2)
  end.
  exists r. rewrite Hr2. auto.
Qed.

Lemma serve_referrals_wf s er : referrals_wf s → referrals_wf (serve s er).
Proof.
  destruct er as [env r]. intros Hwf. destruct r; simpl.
  - unfold createUser. destruct (users s !! uid); [exact Hwf |].
    revert Hwf. apply referrals_wf_frame; simpl; auto.
  - revert Hwf. apply referrals_wf_frame; simpl; auto.
  - unfold seedRule. destruct (existsb _ _); [exact Hwf |].
    revert Hwf. apply referrals_wf_frame; simpl; auto.
  - destruct (stored_referral s rid) as [r |] eqn:Hr; [| exact Hwf].
    apply stored_referral_In in Hr as [Hin _].
    destruct (checkVerification env r s) as [o s'] eqn:E. simpl.
    eapply checkVerification_wf; eauto.
  - destruct (addXP env uid delta rsn desc meta eid s) as [o s'] eqn:E. simpl.
    apply addXP_frame in E as (Hr & _ & _ & Hn). eapply referrals_wf_frame; eauto.
  - destruct (processEvent env uid type meta dedupKey s) as [o s'] eqn:E. simpl.
    destruct (keeps_processEvent_frame env (referrals s) (nextId s) uid type meta dedupKey
                s o s' E) as [Hr Hn]; [split; auto |].
    eapply referrals_wf_frame; eauto.
  - destruct (createReferral env inviter invitee refCode s) as [o s'] eqn:E. simpl.
    eapply createReferral_wf; eauto.
  - destruct (stored_referral s rid) as [r |] eqn:Hr; [| exact Hwf].
    apply stored_referral_In in Hr as [Hin _].
    destruct (distributeRewards env r inviterXP inviteeXP s) as [o s'] eqn:E. simpl.
    eapply distributeRewards_wf; eauto.
Qed.

(** X16.  No user is ever the invitee of two referrals.  After every
    sequence of requests, in whatever environments (any call may reject),
    from a store without referrals, the invitees of the referrals of the
    store are pairwise distinct: creation refuses a second referral for an
    invitee, and verification and rewards save a document under the id and
    with the invitee it had. *)
Theorem invitee_is_referred_once (s0 : Store) (trace : list (Env * Request)) :
  referrals s0 = [] →
  NoDup (map inviteeUserId (referrals (serve_all trace s0))).
Proof.
  intros H0.
  assert (Hwf : referrals_wf (serve_all trace s0)); [| apply Hwf].
  apply serve_all_keeps; [intros; apply serve_referrals_wf; assumption |].
  unfold referrals_wf. rewrite H0. simpl.
  split; [constructor |]. split; [constructor |]. intros r [].
Qed.

Lemma invitee_is_referred_once_witness :
  let trace := demo_trace ++ [(demo_env None, ReqCreateReferral 2%nat 2%nat "NUV-XYZ789");
                              (demo_env None, ReqCreateReferral 2%nat 1%nat "NUV-XYZ789")] in
  map inviteeUserId (referrals (serve_all trace empty_store)) = [2; 1]%nat ∧
  NoDup (map inviteeUserId (referrals (serve_all trace empty_store))).
Proof.
  intros trace. split; [vm_compute; reflexivity |].
  apply (invitee_is_referred_once empty_store trace). reflexivity.
Defined.

(** ** The rules: seeding, creation and deletion *)

Lemma find_none_existsb {A} (f : A → bool) l : find f l = None ↔ existsb f l = false.
Proof.
  induction l as [| a l IH]; simpl; [tauto |].
  destruct (f a); simpl; [split; discriminate | exact IH].
Qed.

Lemma with_actionType_same r : with_actionType r (actionType r) = r.
Proof. destruct r; reflexivity. Qed.

Lemma has_rule_app s added t :
  has_rule (set_rules (fun l => l ++ added) s) t
  = has_rule s t || existsb (fun r => String.eqb (actionType r) t) added.
Proof. unfold has_rule. simpl. apply existsb_app. Qed.

Lemma set_rules_nil s : s = set_rules (fun l => l ++ []) s.
Proof. destruct s. unfold set_rules. simpl. rewrite app_nil_r. reflexivity. Qed.

(** [XPRule.create] either throws without writing or appends the document
    as the setters leave it, under an action type no rule has. *)
Lemma XPRule_create_inv rejects doc s o s' :
  XPRule_create rejects doc s = (o, s') →
  (s' = s ∧ ∃ e, o = Throw e) ∨
  (rejects = None ∧
   has_rule s (actionType_setter (actionType doc)) = false ∧
   o = Return (with_actionType doc (actionType_setter (actionType doc))) ∧
   s' = set_rules (fun l => l ++ [with_actionType doc (actionType_setter (actionType doc))]) s).
Proof.
  unfold XPRule_create, throw. destruct rejects; [intros [= <- <-]; left; eauto |].
  cbv zeta. simpl.
  destruct (String.eqb _ ""); [intros [= <- <-]; left; eauto |].
  destruct (xpAmount doc <? 0); [intros [= <- <-]; left; eauto |].
  destruct (match dailyLimit doc with Some d => d <? 0 | None => false end);
    [intros [= <- <-]; left; eauto |].
  destruct (cooldownMinutes doc <? 0); [intros [= <- <-]; left; eauto |].
  destruct (has_rule s _) eqn:Hhas; intros [= <- <-]; [left; eauto | right; auto].
Qed.

Lemma seed_rules_spec env rejects l :
  Forall (fun r => actionType_setter (actionType r) = actionType r) l →
  ∀ s o s', seed_rules env rejects l s = (o, s') →
  ∃ added,
    s' = set_rules (fun rs => rs ++ added) s ∧
    (∀ r, In r added → In r l ∧ has_rule s (actionType r) = false) ∧
    (NoDup (map actionType (rules s)) → NoDup (map actionType (rules s ++ added))) ∧
    (o = Return tt → ∀ r, In r l → has_rule s' (actionType r) = true).
Proof.
  induction 1 as [| r l Hr Hl IH]; intros s o s' Hrun.
  - injection Hrun as <- <-. exists []. split; [apply set_rules_nil |].
    split; [intros r [] |]. split; [rewrite app_nil_r; auto | intros _ r []].
  - simpl in Hrun.
    apply bind_inv in Hrun as [(existing & s1 & H1 & Hrun) | (e & H1 & ->)];
      unfold XPRule_findOne in H1; apply calling_read_inv in H1 as [-> Hex].
    2:{ exists []. split; [apply set_rules_nil |]. split; [intros ? [] |].
        split; [rewrite app_nil_r; auto | discriminate]. }
    specialize (Hex _ eq_refl). rewrite Hr in Hex.
    apply bind_inv in Hrun as [([] & s1 & H1 & Hrun) | (e & H1 & ->)].
    + (* the round went through *)
      assert (Hround : (s1 = s ∧ has_rule s (actionType r) = true) ∨
                       (s1 = set_rules (fun rs => rs ++ [r]) s ∧
                        has_rule s (actionType r) = false)).
      { destruct existing as [x |]; simpl in H1.
        - injection H1 as <-. left. split; [reflexivity |].
          apply not_false_iff_true. intros Hno. apply find_none_existsb in Hno.
          unfold has_rule in Hno. congruence.
        - apply bind_inv in H1 as [(x & s2 & H1 & H2) | (e & _ & [=])].
          injection H2 as <-.
          apply XPRule_create_inv in H1 as [(_ & e & [=]) | (_ & Hno & _ & ->)].
          rewrite Hr in Hno. rewrite Hr, with_actionType_same. right. auto. }
      apply IH in Hrun as (added & -> & Hadded & Hnd & Hall).
      destruct Hround as [[-> Hhas] | [-> Hno]].
      * exists added. split; [reflexivity |]. split; [| split; [exact Hnd |]].
        -- intros x Hx. destruct (Hadded x Hx). split; [right |]; assumption.
        -- intros Ho x [<- | Hx]; [| apply Hall; assumption].
           rewrite has_rule_app, Hhas. reflexivity.
      * exists (r :: added). split; [| split; [| split]].
        -- unfold set_rules. simpl. rewrite <- app_assoc. reflexivity.
        -- intros x [<- | Hx]; [split; [left; reflexivity | exact Hno] |].
           destruct (Hadded x Hx) as [Hin Hx']. split; [right; exact Hin |].
           rewrite has_rule_app in Hx'. apply orb_false_elim in Hx' as [Hx' _]. exact Hx'.
        -- intros Hs. simpl in Hnd.
           replace (rules s ++ r :: added) with ((rules s ++ [r]) ++ added)
             by (rewrite <- app_assoc; reflexivity).
           apply Hnd. rewrite map_app. simpl.
           apply NoDup_app. split; [exact Hs |]. split; [| apply NoDup_singleton].
           intros t Ht Ht'. apply list_elem_of_singleton in Ht'. subst t.
           apply list_elem_of_In, in_map_iff in Ht as (x & Hx & Hin).
           assert (has_rule s (actionType r) = true); [| congruence].
           apply existsb_exists. exists x. split; [exact Hin | apply String.eqb_eq, Hx].
        -- intros Ho x [<- | Hx]; [| apply Hall; assumption].
           rewrite has_rule_app. simpl. rewrite has_rule_app. simpl.
           rewrite String.eqb_refl. rewrite orb_true_r. reflexivity.
    + (* the creation threw *)
      destruct existing as [x |]; [discriminate |]. simpl in H1.
      apply bind_inv in H1 as [(x & s2 & _ & [=]) | (e' & H1 & _)].
      apply XPRule_create_inv in H1 as [(-> & _) | (_ & _ & [=] & _)].
      exists []. split; [apply set_rules_nil |]. split; [intros ? [] |].
      split; [rewrite app_nil_r; auto | discriminate].
Qed.

(** Seeding a store that has a rule for each action type writes nothing. *)
Lemma seed_rules_again env rejects l s :
  fault env OpRuleFind = None →
  Forall (fun r => actionType_setter (actionType r) = actionType r) l →
  (∀ r, In r l → has_rule s (actionType r) = true) →
  seed_rules env rejects l s = (Return tt, s).
Proof.
  intros Hq Hl. induction Hl as [| r l Hr Hl IH]; intros Hall; [reflexivity |].
  simpl.
  erewrite bind_run by (unfold XPRule_findOne, calling; rewrite Hq, Hr; reflexivity).
  destruct (find _ (rules s)) as [x |] eqn:Hf.
  - simpl. erewrite bind_run by reflexivity.
    apply IH. intros x' Hx'. apply Hall. right. exact Hx'.
  - apply find_none_existsb in Hf. specialize (Hall r (or_introl eq_refl)).
    unfold has_rule in Hall. congruence.
Qed.

Lemma defaultRules_normal cfg :
  Forall (fun r => actionType_setter (actionType r) = actionType r) (defaultRules cfg).
Proof. repeat constructor. Qed.

(** X17.  Seeding creates only what is missing.  [seedDefaultRules],
    whether it resolves or throws, changes nothing but the rules, and the
    rules only by adding at their end default rules whose action type had no
    rule, active or not: an existing rule is never changed, also when the
    environment now gives other values, and a deactivated rule is not created
    anew.  When it resolves, every default action type has a rule, and
    seeding again, with whatever environment values, resolves and writes
    nothing. *)
Theorem seedDefaultRules_creates_only_what_is_missing env rejects cfg s o s' :
  seedDefaultRules env rejects cfg s = (o, s') →
  (∃ added, s' = set_rules (fun rs => rs ++ added) s ∧
            ∀ r, In r added → In r (defaultRules cfg) ∧ has_rule s (actionType r) = false) ∧
  (NoDup (map actionType (rules s)) → NoDup (map actionType (rules s'))) ∧
  (∀ msg, o = Return msg →
     (∀ r, In r (defaultRules cfg) → has_rule s' (actionType r) = true) ∧
     ∀ env' rejects' cfg', fault env' OpRuleFind = None →
       seedDefaultRules env' rejects' cfg' s' = (Return "Default XP rules seeded", s')).
Proof.
  unfold seedDefaultRules, try_catch. intros Hrun.
  destruct (bind _ _ s) as [o1 s1] eqn:Htry.
  assert (Hs' : s' = s1 ∧ ∀ msg, o = Return msg → o1 = Return msg).
  { destruct o1; unfold throw in Hrun; injection Hrun as <- <-; auto. }
  destruct Hs' as [-> Ho].
  apply bind_inv in Htry as [([] & s2 & H1 & H2) | (e & H1 & ->)].
  - injection H2 as <- <-.
    apply (seed_rules_spec _ _ _ (defaultRules_normal cfg)) in H1
      as (added & -> & Hadded & Hnd & Hall).
    split; [eauto |]. split; [exact Hnd |].
    intros msg _. split; [apply Hall; reflexivity |].
    intros env' rejects' cfg' Hq.
    assert (Hhave : ∀ r, In r (defaultRules cfg') →
                         has_rule (set_rules (fun rs => rs ++ added) s) (actionType r) = true).
    { intros r Hr.
      assert (Htypes : In (actionType r) (map actionType (defaultRules cfg)))
        by (change (map actionType (defaultRules cfg))
              with (map actionType (defaultRules cfg')); apply in_map, Hr).
      apply in_map_iff in Htypes as (r0 & <- & Hr0). apply Hall; [reflexivity | exact Hr0]. }
    rewrite (bind_run _ _ _ _ _
               (seed_rules_again env' rejects' (defaultRules cfg') _ Hq
                  (defaultRules_normal cfg') Hhave)).
    reflexivity.
  - apply (seed_rules_spec _ _ _ (defaultRules_normal cfg)) in H1
      as (added & -> & Hadded & Hnd & _).
    split; [eauto |]. split; [exact Hnd |].
    intros msg Hmsg. specialize (Ho msg Hmsg). discriminate.
Qed.

Lemma seedDefaultRules_creates_only_what_is_missing_witness :
  ∃ s',
    seedDefaultRules (demo_env None) None seed_config demo_store
      = (Return "Default XP rules seeded", s') ∧
    map (fun r => (actionType r, xpAmount r)) (rules s')
      = [("deposit", 100); ("connect_wallet", 75); ("supply", 150); ("claim_faucet", 25);
         ("select_strategy", 30)] ∧
    seedDefaultRules (demo_env None) None (mkSeedConfig (Some 10) None None None) s'
      = (Return "Default XP rules seeded", s').
Proof.
  assert (H : ∃ s', seedDefaultRules (demo_env None) None seed_config demo_store
                    = (Return "Default XP rules seeded", s') ∧
                    map (fun r => (actionType r, xpAmount r)) (rules s')
                    = [("deposit", 100); ("connect_wallet", 75); ("supply", 150);
                       ("claim_faucet", 25); ("select_strategy", 30)])
    by (eexists; split; vm_compute; reflexivity).
  destruct H as (s' & Hrun & Hrules). exists s'. split; [exact Hrun |]. split; [exact Hrules |].
  destruct (seedDefaultRules_creates_only_what_is_missing _ _ _ _ _ _ Hrun) as (_ & _ & H).
  apply (H _ eq_refl). reflexivity.
Defined.

(** What seeding adds. *)
Lemma seedDefaultRules_adds env rejects cfg s o s' :
  seedDefaultRules env rejects cfg s = (o, s') →
  ∃ added, s' = set_rules (fun rs => rs ++ added) s ∧
           (NoDup (map actionType (rules s)) → NoDup (map actionType (rules s ++ added))).
Proof.
  unfold seedDefaultRules, try_catch. intros Hrun.
  destruct (bind _ _ s) as [o1 s1] eqn:Htry.
  assert (Hs' : s' = s1) by (destruct o1; unfold throw in Hrun; congruence).
  subst s'. clear Hrun.
  apply bind_inv in Htry as [([] & s2 & H1 & H2) | (e & H1 & _)];
    [injection H2 as _ <- |];
    apply (seed_rules_spec _ _ _ (defaultRules_normal cfg)) in H1
      as (added & -> & _ & Hnd & _); eauto.
Qed.

Lemma deactivated_types (l : list XPRule) id r :
  l !! id = Some r → map actionType (<[id := deactivated r]> l) = map actionType l.
Proof.
  intros Hr. change (actionType <$> <[id := deactivated r]> l = actionType <$> l).
  rewrite list_fmap_insert. apply list_insert_id.
  rewrite list_lookup_fmap, Hr. reflexivity.
Qed.

(** Once its rule is deactivated, an action type has no active rule. *)
Lemma deactivated_not_found (l : list XPRule) id r :
  NoDup (map actionType l) → l !! id = Some r →
  find (fun x => String.eqb (actionType x) (actionType r) && isActive x)
       (<[id := deactivated r]> l) = None.
Proof.
  intros Hnd Hr. apply find_none_existsb. apply not_true_iff_false. intros Hex.
  apply existsb_exists in Hex as (x & Hx & Hp). apply andb_prop in Hp as [Ht Ha].
  apply String.eqb_eq in Ht.
  apply list_elem_of_In, list_elem_of_lookup in Hx as [j Hj].
  destruct (decide (j = id)) as [-> | Hne].
  - rewrite list_lookup_insert_eq in Hj by (eapply lookup_lt_Some; eauto).
    injection Hj as <-. discriminate.
  - rewrite list_lookup_insert_ne in Hj by congruence.
    apply Hne. eapply (NoDup_lookup (map actionType l) j id (actionType r)); [exact Hnd | |].
    + change ((actionType <$> l) !! j = Some (actionType r)).
      rewrite list_lookup_fmap, Hj. simpl. congruence.
    + change ((actionType <$> l) !! id = Some (actionType r)).
      rewrite list_lookup_fmap, Hr. reflexivity.
Qed.

(** X18.  A deleted rule awards nothing and is not replaced.  Deleting a
    rule of a store with distinct action types responds 200 and only clears
    [isActive] of that rule.  From then on the action type has no active
    rule: [getRuleByAction] finds none, and [processEvent] for the action
    type changes neither users nor ledger and reports 0 XP.  The rule still
    stands in the way of a new one: creating a rule for the action type
    responds 400 and writes nothing, and seeding the default rules leaves the
    rule deactivated. *)
Theorem deleted_rule_awards_nothing id s r :
  rules_wf s → rules s !! id = Some r →
  ∃ s',
    deleteXPRule None id s
      = (Return (mkResponse 200 true (Some (deactivated r)) "XP rule deleted successfully"),
         s') ∧
    s' = set_rules (fun l => <[id := deactivated r]> l) s ∧
    rules_wf s' ∧
    (∀ env, fault env OpRuleFind = None →
            getRuleByAction env (actionType r) s' = (Return None, s')) ∧
    (∀ env uid meta key o s'',
       processEvent env uid (actionType r) meta key s' = (o, s'') →
       users s'' = users s' ∧ ledger s'' = ledger s' ∧ ∀ res, o = Return res → xpAwarded res = 0) ∧
    (∀ env rejects body,
       fault env OpRuleFind = None →
       truthy_string (body_actionType body) = true →
       actionType_setter (default "" (body_actionType body)) = actionType r →
       present (body_xpAmount body) = true →
       ∃ resp, createXPRule env rejects body s' = (Return resp, s') ∧
               response_status resp = 400) ∧
    (∀ env rejects cfg o s'',
       seedDefaultRules env rejects cfg s' = (o, s'') →
       rules s'' !! id = Some (deactivated r)).
Proof.
  intros Hwf Hr. eexists. split.
  { unfold deleteXPRule, try_catch, bind. rewrite Hr. reflexivity. }
  split; [reflexivity |].
  pose proof (deactivated_not_found (rules s) id r Hwf Hr) as Hnone.
  assert (Hid : (<[id := deactivated r]> (rules s)) !! id = Some (deactivated r))
    by (apply list_lookup_insert_eq; eapply lookup_lt_Some; eauto).
  split; [| split; [| split; [| split]]].
  - unfold rules_wf. simpl. rewrite (deactivated_types _ _ _ Hr). exact Hwf.
  - intros env Hq. unfold getRuleByAction, calling. rewrite Hq. simpl. rewrite Hnone.
    reflexivity.
  - intros env uid meta key o s'' Hrun.
    apply processEvent_cases in Hrun
      as [H | (rule & ev1 & s2 & oa & sa & _ & (Hfind & _) & _)]; [exact H |].
    simpl in Hfind. congruence.
  - intros env rejects body Hq Htruthy Hsetter Hxp.
    unfold createXPRule, try_catch. rewrite Htruthy, Hxp. simpl. cbv zeta.
    erewrite bind_run by (unfold XPRule_findOne, calling; rewrite Hq, Hsetter; reflexivity).
    simpl.
    destruct (find (fun r0 => String.eqb (actionType r0) (actionType r))
                   (<[id := deactivated r]> (rules s))) as [x |] eqn:Hf.
    + eexists. split; reflexivity.
    + exfalso. apply list_elem_of_lookup_2, list_elem_of_In in Hid.
      pose proof (find_none _ _ Hf _ Hid) as Hno. simpl in Hno.
      rewrite String.eqb_refl in Hno. discriminate.
  - intros env rejects cfg o s'' Hrun.
    apply seedDefaultRules_adds in Hrun as (added & -> & _). simpl.
    rewrite lookup_app_l by (eapply lookup_lt_Some; eauto). exact Hid.
Qed.

Lemma deleted_rule_awards_nothing_witness :
  ∃ s',
    deleteXPRule None 0 demo_store
      = (Return (mkResponse 200 true (Some (deactivated deposit_rule))
                            "XP rule deleted successfully"), s') ∧
    fst (processEvent (demo_env (Some vault_address)) 1%nat "deposit" (deposit_of "15") None s')
      = Return (mkResult true
                  (Some (mkEvent 0%nat 1%nat "deposit" (deposit_of "15")
                                 "deposit_1700000000000" st_processed None 1700000000000))
                  0 "Event recorded but no XP rule configured" None) ∧
    ∃ resp, createXPRule (demo_env None) None (rule_body " Deposit") s' = (Return resp, s') ∧
            response_status resp = 400.
Proof.
  destruct (deleted_rule_awards_nothing 0 demo_store deposit_rule)
    as (s' & Hrun & -> & _ & _ & _ & Hcreate & _).
  - repeat constructor. intros H. inversion H.
  - reflexivity.
  - eexists. split; [exact Hrun |]. split; [vm_compute; reflexivity |].
    apply Hcreate; reflexivity.
Defined.

Lemma createXPRule_cases env rejects body s o s' :
  createXPRule env rejects body s = (o, s') →
  ∃ resp, o = Return resp ∧
    ((s' = s ∧ (response_status resp = 400 ∨ response_status resp = 500) ∧
      response_data resp = None) ∨
     (∃ rule, response_status resp = 201 ∧ response_data resp = Some rule ∧
              has_rule s (actionType rule) = false ∧
              actionType rule = actionType_setter (default "" (body_actionType body)) ∧
              xpAmount rule = default 0 (body_xpAmount body) ∧
              s' = set_rules (fun l => l ++ [rule]) s)).
Proof.
  unfold createXPRule, try_catch. intros Hrun.
  destruct (_ || _).
  { injection Hrun as <- <-. eexists. split; [reflexivity |]. left. simpl. auto. }
  cbv zeta in Hrun.
  match type of Hrun with
  | match ?m s with _ => _ end = _ => destruct (m s) as [[resp | e] s1] eqn:Htry
  end.
  - injection Hrun as <- <-. exists resp. split; [reflexivity |].
    apply bind_inv in Htry as [(existing & s2 & H1 & H2) | (e & _ & [=])].
    unfold XPRule_findOne in H1. apply calling_read_inv in H1 as [-> _].
    destruct (present existing).
    + injection H2 as <- <-. left. simpl. auto.
    + apply bind_inv in H2 as [(rule & s3 & H2 & H3) | (e & _ & [=])].
      injection H3 as <- <-.
      apply XPRule_create_inv in H2 as [(_ & e & [=]) | (_ & Hno & Hret & ->)].
      injection Hret as ->.
      right. eexists. simpl. repeat split. exact Hno.
  - injection Hrun as <- <-. eexists. split; [reflexivity |]. left. simpl.
    split; [| auto].
    apply bind_inv in Htry as [(existing & s2 & H1 & H2) | (e' & H1 & _)];
      unfold XPRule_findOne in H1; apply calling_read_inv in H1 as [-> _]; [| reflexivity].
    destruct (present existing); [discriminate |].
    apply bind_inv in H2 as [(rule & s3 & _ & [=]) | (e' & H2 & _)].
    apply XPRule_create_inv in H2 as [(-> & _) | (_ & _ & [=] & _)]. reflexivity.
Qed.

(** X19.  The rule handlers always respond, and the action types stay
    distinct.  In a store with distinct action types, creating a rule never
    throws: it responds 201 after appending exactly one rule, whose action
    type, as the setters leave it, no rule had, or it responds 400 or 500
    with the store as before; deleting a rule never throws, never changes
    the action types, and responds 404 without writing for an id no rule
    has; and after a creation, a deletion or a seeding the action types are
    still distinct. *)
Theorem rule_handlers_keep_action_types_distinct s :
  rules_wf s →
  (∀ env rejects body o s',
     createXPRule env rejects body s = (o, s') →
     rules_wf s' ∧
     ∃ resp, o = Return resp ∧
       ((s' = s ∧ (response_status resp = 400 ∨ response_status resp = 500)) ∨
        (∃ rule, response_status resp = 201 ∧ response_data resp = Some rule ∧
                 has_rule s (actionType rule) = false ∧
                 s' = set_rules (fun l => l ++ [rule]) s))) ∧
  (∀ rejects id o s',
     deleteXPRule rejects id s = (o, s') →
     rules_wf s' ∧ map actionType (rules s') = map actionType (rules s) ∧
     ∃ resp, o = Return resp ∧
             (rejects = None → rules s !! id = None → response_status resp = 404 ∧ s' = s)) ∧
  (∀ env rejects cfg o s',
     seedDefaultRules env rejects cfg s = (o, s') → rules_wf s').
Proof.
  intros Hwf. split; [| split].
  - intros env rejects body o s' Hrun.
    apply createXPRule_cases in Hrun
      as (resp & -> & [(-> & Hst & _) | (rule & Hst & Hdata & Hno & _ & _ & ->)]).
    + split; [exact Hwf |]. exists resp. split; [reflexivity |]. left. auto.
    + split.
      * unfold rules_wf. simpl. rewrite map_app. simpl.
        apply NoDup_app. split; [exact Hwf |]. split; [| apply NoDup_singleton].
        intros t Ht Ht'. apply list_elem_of_singleton in Ht'. subst t.
        apply list_elem_of_In, in_map_iff in Ht as (x & Hx & Hin).
        assert (has_rule s (actionType rule) = true); [| congruence].
        apply existsb_exists. exists x. split; [exact Hin | apply String.eqb_eq, Hx].
      * exists resp. split; [reflexivity |]. right. eauto.
  - intros rejects id o s'. unfold deleteXPRule, try_catch, bind, throw, ret.
    destruct rejects as [e |].
    { intros [= <- <-]. split; [exact Hwf |]. split; [reflexivity |].
      eexists. split; [reflexivity | discriminate]. }
    destruct (rules s !! id) as [r |] eqn:Hr; intros [= <- <-].
    + split; [unfold rules_wf; simpl; rewrite (deactivated_types _ _ _ Hr); exact Hwf |].
      split; [simpl; apply (deactivated_types _ _ _ Hr) |].
      eexists. split; [reflexivity | discriminate].
    + split; [exact Hwf |]. split; [reflexivity |].
      eexists. split; [reflexivity |]. auto.
  - intros env rejects cfg o s' Hrun.
    apply seedDefaultRules_adds in Hrun as (added & -> & Hnd).
    unfold rules_wf. simpl. apply Hnd, Hwf.
Qed.

Lemma rule_handlers_keep_action_types_distinct_witness :
  ∃ resp s',
    createXPRule (demo_env None) None (rule_body " Swap ") demo_store = (Return resp, s') ∧
    response_status resp = 201 ∧
    map actionType (rules s') = ["deposit"; "swap"] ∧ rules_wf s'.
Proof.
  assert (H : ∃ resp s',
            createXPRule (demo_env None) None (rule_body " Swap ") demo_store
              = (Return resp, s') ∧
            response_status resp = 201 ∧ map actionType (rules s') = ["deposit"; "swap"])
    by (eexists _, _; repeat split; vm_compute; reflexivity).
  destruct H as (resp & s' & Hrun & Hst & Htypes). exists resp, s'.
  split; [exact Hrun |]. split; [exact Hst |]. split; [exact Htypes |].
  assert (Hwf : rules_wf demo_store) by (repeat constructor; intros H; inversion H).
  destruct (rule_handlers_keep_action_types_distinct demo_store Hwf) as (Hcreate & _).
  apply (Hcreate _ _ _ _ _ Hrun).
Defined.

(** ** The login: nonces and signatures *)

Lemma truthy_Some a : truthy_string (Some a) = true ↔ a ≠ "".
Proof. simpl. destruct (String.eqb_spec a ""); simpl; split; intros; congruence. Qed.

(** X20.  A login needs the current nonce and its signature.  Whenever
    [verifySignature] responds 200, the user of the wallet address exists,
    the nonce of the request is the one stored for the user and has not
    expired, the signature is one of the login message of that nonce by the
    wallet address (up to case), and the only write is the save of the user
    with the nonce cleared, the first login stamped if it was not, and the
    last login set; the token is for the stored address.  With any other
    status nothing is written: a refused attempt does not use up the
    nonce. *)
Theorem login_needs_current_nonce_and_signature w rejects t body accounts resp accounts' :
  verifySignature w rejects t body accounts = (resp, accounts') →
  (auth_status resp ≠ 200 ∧ auth_token_for resp = None ∧ accounts' = accounts) ∨
  (∃ a sig n user expiry recovered,
     verify_walletAddress body = Some a ∧ verify_signature body = Some sig ∧
     verify_nonce body = Some n ∧ n ≠ "" ∧
     accounts !! toLowerCase a = Some user ∧
     nonce user = Some n ∧ nonceExpiry user = Some expiry ∧ t ≤ expiry ∧
     verifyMessage w (login_message n) sig = Some recovered ∧
     toLowerCase recovered = toLowerCase a ∧
     resp = mkAuthResponse 200 None (Some (toLowerCase a)) ∧
     accounts' = <[toLowerCase a :=
                     mkAccount None None
                               (if present (account_firstLoginAt user)
                                then account_firstLoginAt user else Some t)
                               (Some t)]> accounts).
Proof.
  unfold verifySignature.
  destruct (verify_walletAddress body) as [a |]; [| intros [= <- <-]; left; simpl; auto].
  destruct (verify_signature body) as [sig |];
    [| rewrite orb_true_r; intros [= <- <-]; left; simpl; auto].
  destruct (verify_nonce body) as [n |];
    [| rewrite orb_true_r; intros [= <- <-]; left; simpl; auto].
  destruct (negb (truthy_string (Some a)) || negb (truthy_string (Some sig))
            || negb (truthy_string (Some n))) eqn:Hreq;
    [intros [= <- <-]; left; simpl; auto |].
  apply orb_false_elim in Hreq as [_ Hn]. apply negb_false_iff, truthy_Some in Hn.
  cbv zeta. simpl default.
  destruct (rejects AuthFindUser); [intros [= <- <-]; left; simpl; auto |].
  destruct (accounts !! toLowerCase a) as [user |] eqn:Hu;
    [| intros [= <- <-]; left; simpl; auto].
  destruct (verifyNonce t user n) eqn:Hnonce; simpl;
    [| intros [= <- <-]; left; simpl; auto].
  destruct (signature_isValid w (login_message n) sig a) eqn:Hsig; simpl;
    [| intros [= <- <-]; left; simpl; auto].
  destruct (rejects AuthSaveUser); intros [= <- <-]; [left; simpl; auto |].
  right. unfold verifyNonce in Hnonce.
  destruct (nonce user) as [n0 |] eqn:Hn0; [| discriminate].
  destruct (nonceExpiry user) as [expiry |] eqn:Hex; [| rewrite orb_true_r in Hnonce; discriminate].
  destruct (_ || _); [discriminate |]. simpl in Hnonce.
  destruct (String.eqb_spec n0 n) as [-> | ?]; [| discriminate]. simpl in Hnonce.
  destruct (expiry <? t) eqn:Hlt; [discriminate |]. apply Z.ltb_ge in Hlt.
  unfold signature_isValid in Hsig.
  destruct (verifyMessage w (login_message n) sig) as [recovered |] eqn:Hrec; [| discriminate].
  apply String.eqb_eq in Hsig.
  exists a, sig, n, user, expiry, recovered. repeat split; auto.
Qed.

Lemma login_needs_current_nonce_and_signature_witness :
  let sig := alice +:+ "|" +:+ login_message "N0NCE" in
  ∃ accounts1 accounts2,
    requestNonce toy_wallet no_rejection "N0NCE" 1000 (Some alice) ∅
      = (mkAuthResponse 200 (Some "N0NCE") None, accounts1) ∧
    verifySignature toy_wallet no_rejection 2000 (mkVerifyBody (Some alice) (Some sig)
                                                                (Some "N0NCE")) accounts1
      = (mkAuthResponse 200 None (Some (toLowerCase alice)), accounts2) ∧
    accounts2 !! toLowerCase alice = Some (mkAccount None None (Some 2000) (Some 2000)).
Proof.
  assert (H : ∃ accounts1 accounts2,
            requestNonce toy_wallet no_rejection "N0NCE" 1000 (Some alice) ∅
              = (mkAuthResponse 200 (Some "N0NCE") None, accounts1) ∧
            verifySignature toy_wallet no_rejection 2000
              (mkVerifyBody (Some alice) (Some (alice +:+ "|" +:+ login_message "N0NCE"))
                            (Some "N0NCE")) accounts1
              = (mkAuthResponse 200 None (Some (toLowerCase alice)), accounts2))
    by (eexists _, _; split; reflexivity).
  destruct H as (accounts1 & accounts2 & H1 & H2). exists accounts1, accounts2.
  split; [exact H1 |]. split; [exact H2 |].
  destruct (login_needs_current_nonce_and_signature _ _ _ _ _ _ _ H2)
    as [(Hst & _) | (a & sig & n & user & expiry & recovered & Ha & _ & _ & _ & Hu & _ & _ & _
                     & _ & _ & _ & ->)].
  - exfalso. apply Hst. reflexivity.
  - assert (Ha' : a = alice) by (simpl in Ha; congruence). subst a.
    assert (Hfirst : account_firstLoginAt user = None).
    { revert Hu. injection H1 as <-. vm_compute. intros [= <-]. reflexivity. }
    rewrite Hfirst. apply lookup_insert_eq.
Defined.

(** A login leaves the user without nonce. *)
Lemma verifySignature_clears w rejects t body accounts resp accounts' :
  verifySignature w rejects t body accounts = (resp, accounts') →
  auth_status resp = 200 →
  ∃ a user, verify_walletAddress body = Some a ∧
            accounts' !! toLowerCase a = Some user ∧ nonce user = None.
Proof.
  unfold verifySignature.
  destruct (verify_walletAddress body) as [a |]; [| intros [= <- <-]; discriminate].
  destruct (_ || _); [intros [= <- <-]; discriminate |]. cbv zeta. simpl default.
  destruct (rejects AuthFindUser); [intros [= <- <-]; discriminate |].
  destruct (accounts !! toLowerCase a) as [user |]; [| intros [= <- <-]; discriminate].
  destruct (negb (verifyNonce _ _ _)); [intros [= <- <-]; discriminate |].
  destruct (negb (signature_isValid _ _ _ _)); [intros [= <- <-]; discriminate |].
  destruct (rejects AuthSaveUser); intros [= <- <-]; [discriminate |].
  intros _. eexists a, _. split; [reflexivity |]. split; [apply lookup_insert_eq | reflexivity].
Qed.

Lemma verifySignature_without_nonce w rejects t body accounts a user :
  verify_walletAddress body = Some a →
  accounts !! toLowerCase a = Some user → nonce user = None →
  auth_status (fst (verifySignature w rejects t body accounts)) ≠ 200.
Proof.
  intros Ha Hu Hn. unfold verifySignature. rewrite Ha.
  destruct (_ || _); [discriminate |]. cbv zeta. simpl default.
  destruct (rejects AuthFindUser); [discriminate |]. rewrite Hu.
  unfold verifyNonce. rewrite Hn. simpl. discriminate.
Qed.

(** X21.  A nonce is used once.  After [verifySignature] has responded 200
    for a wallet address, no request for that address (in whatever case it
    is written), with whatever nonce and signature, at whatever instant, is
    answered with 200 again, until a new nonce is requested: the signed
    message of a login cannot be replayed. *)
Theorem nonce_is_used_once w rejects t body accounts resp accounts' :
  verifySignature w rejects t body accounts = (resp, accounts') →
  auth_status resp = 200 →
  ∀ w' rejects' t' body',
    option_map toLowerCase (verify_walletAddress body')
      = option_map toLowerCase (verify_walletAddress body) →
    auth_status (fst (verifySignature w' rejects' t' body' accounts')) ≠ 200.
Proof.
  intros Hrun Hok w' rejects' t' body' Hsame.
  destruct (verifySignature_clears _ _ _ _ _ _ _ Hrun Hok) as (a & user & Ha & Hu & Hn).
  rewrite Ha in Hsame.
  destruct (verify_walletAddress body') as [a' |] eqn:Ha'; [| discriminate].
  injection Hsame as Hlow.
  apply (verifySignature_without_nonce w' rejects' t' body' accounts' a' user Ha');
    [rewrite Hlow; exact Hu | exact Hn].
Qed.

Lemma nonce_is_used_once_witness :
  ∃ accounts1 accounts2,
    requestNonce toy_wallet no_rejection "N0NCE" 1000 (Some alice) ∅
      = (mkAuthResponse 200 (Some "N0NCE") None, accounts1) ∧
    verifySignature toy_wallet no_rejection 2000
      (mkVerifyBody (Some alice) (Some (alice +:+ "|" +:+ login_message "N0NCE"))
                    (Some "N0NCE")) accounts1
      = (mkAuthResponse 200 None (Some (toLowerCase alice)), accounts2) ∧
    auth_status (fst (verifySignature toy_wallet no_rejection 2001
                        (mkVerifyBody (Some (toLowerCase alice))
                                      (Some (alice +:+ "|" +:+ login_message "N0NCE"))
                                      (Some "N0NCE")) accounts2)) ≠ 200.
Proof.
  assert (H : ∃ accounts1 accounts2,
            requestNonce toy_wallet no_rejection "N0NCE" 1000 (Some alice) ∅
              = (mkAuthResponse 200 (Some "N0NCE") None, accounts1) ∧
            verifySignature toy_wallet no_rejection 2000
              (mkVerifyBody (Some alice) (Some (alice +:+ "|" +:+ login_message "N0NCE"))
                            (Some "N0NCE")) accounts1
              = (mkAuthResponse 200 None (Some (toLowerCase alice)), accounts2))
    by (eexists _, _; split; reflexivity).
  destruct H as (accounts1 & accounts2 & H1 & H2). exists accounts1, accounts2.
  split; [exact H1 |]. split; [exact H2 |].
  apply (nonce_is_used_once _ _ _ _ _ _ _ H2 eq_refl). vm_compute. reflexivity.
Defined.

(** What a handed-out nonce leaves in the store. *)
Lemma requestNonce_stores w rejects nanoid t0 walletAddress accounts resp accounts1 :
  requestNonce w rejects nanoid t0 walletAddress accounts = (resp, accounts1) →
  auth_status resp = 200 →
  ∃ a user, walletAddress = Some a ∧ a ≠ "" ∧ auth_nonce resp = Some nanoid ∧
            accounts1 !! toLowerCase a = Some user ∧
            nonce user = Some nanoid ∧ nonceExpiry user = Some (t0 + 5 * 60 * 1000).
Proof.
  unfold requestNonce.
  destruct walletAddress as [a |]; [| intros [= <- <-]; discriminate].
  destruct (truthy_string (Some a)) eqn:Ha; simpl negb; cbv iota;
    [| intros [= <- <-]; discriminate].
  apply truthy_Some in Ha.
  destruct (negb (isAddress w _)); [intros [= <- <-]; discriminate |].
  cbv zeta. simpl default.
  destruct (rejects AuthFindUser); [intros [= <- <-]; discriminate |].
  match goal with
  | |- match ?found with _ => _ end = _ → _ => destruct found as [[user accounts0] |]
  end; [| intros [= <- <-]; discriminate].
  unfold generateNonce.
  destruct (rejects AuthSaveUser); intros [= <- <-]; [discriminate |].
  intros _. eexists a, _. split; [reflexivity |]. split; [exact Ha |].
  split; [reflexivity |]. split; [apply lookup_insert_eq |]. split; reflexivity.
Qed.

(** X22.  A nonce lives five minutes and is replaced by the next one.
    After [requestNonce] handed out a nonce at an instant, a request to
    verify it with a valid signature, when no call is rejected, is answered
    with 200 up to and including five minutes after that instant and with
    401 from then on; and after another nonce was requested for the address,
    the earlier nonce is answered with 401 whatever the instant. *)
Theorem nonce_lives_five_minutes w rejects nanoid t0 a accounts resp accounts1 sig :
  requestNonce w rejects nanoid t0 (Some a) accounts = (resp, accounts1) →
  auth_status resp = 200 →
  nanoid ≠ "" → sig ≠ "" →
  signature_isValid w (login_message nanoid) sig a = true →
  (∀ t, auth_status (fst (verifySignature w no_rejection t
                            (mkVerifyBody (Some a) (Some sig) (Some nanoid)) accounts1))
        = if t <=? t0 + 300000 then 200 else 401) ∧
  (∀ rejects' nanoid' t1 resp2 accounts2 t,
     requestNonce w rejects' nanoid' t1 (Some a) accounts1 = (resp2, accounts2) →
     auth_status resp2 = 200 → nanoid' ≠ nanoid →
     auth_status (fst (verifySignature w no_rejection t
                         (mkVerifyBody (Some a) (Some sig) (Some nanoid)) accounts2))
     = 401).
Proof.
  intros Hrun Hok Hn Hsig Hvalid.
  destruct (requestNonce_stores _ _ _ _ _ _ _ _ Hrun Hok)
    as (a0 & user & [= <-] & Ha & _ & Hu & Hnonce & Hexp).
  assert (Hbody : negb (truthy_string (Some a)) || negb (truthy_string (Some sig))
                  || negb (truthy_string (Some nanoid)) = false).
  { rewrite (proj2 (truthy_Some a) Ha), (proj2 (truthy_Some sig) Hsig),
      (proj2 (truthy_Some nanoid) Hn). reflexivity. }
  split.
  - intros t. unfold verifySignature. cbn [verify_walletAddress verify_signature verify_nonce].
    rewrite Hbody. cbv zeta. simpl default. cbn [no_rejection]. rewrite Hu.
    unfold verifyNonce. rewrite Hnonce, Hexp. simpl default.
    rewrite (proj2 (truthy_Some nanoid) Hn). simpl. rewrite String.eqb_refl. simpl.
    rewrite Hvalid. simpl.
    change (5 * 60 * 1000) with 300000.
    destruct (Z.ltb_spec (t0 + 300000) t), (Z.leb_spec t (t0 + 300000));
      try reflexivity; lia.
  - intros rejects' nanoid' t1 resp2 accounts2 t Hrun2 Hok2 Hne.
    destruct (requestNonce_stores _ _ _ _ _ _ _ _ Hrun2 Hok2)
      as (a0 & user2 & [= <-] & _ & _ & Hu2 & Hnonce2 & Hexp2).
    unfold verifySignature. cbn [verify_walletAddress verify_signature verify_nonce].
    rewrite Hbody. cbv zeta. simpl default. cbn [no_rejection]. rewrite Hu2.
    unfold verifyNonce. rewrite Hnonce2, Hexp2. simpl default.
    assert (Ht : truthy_string (Some nanoid') = true ∨ truthy_string (Some nanoid') = false)
      by (destruct (truthy_string (Some nanoid')); auto).
    destruct Ht as [-> | ->]; simpl; [| reflexivity].
    destruct (String.eqb_spec nanoid' nanoid); [contradiction | reflexivity].
Qed.

Lemma nonce_lives_five_minutes_witness :
  ∃ accounts1,
    requestNonce toy_wallet no_rejection "N0NCE" 1000 (Some alice) ∅
      = (mkAuthResponse 200 (Some "N0NCE") None, accounts1) ∧
    auth_status (fst (verifySignature toy_wallet no_rejection 301000
                        (mkVerifyBody (Some alice)
                                      (Some (alice +:+ "|" +:+ login_message "N0NCE"))
                                      (Some "N0NCE")) accounts1)) = 200 ∧
    auth_status (fst (verifySignature toy_wallet no_rejection 301001
                        (mkVerifyBody (Some alice)
                                      (Some (alice +:+ "|" +:+ login_message "N0NCE"))
                                      (Some "N0NCE")) accounts1)) = 401.
Proof.
  assert (H : ∃ accounts1,
            requestNonce toy_wallet no_rejection "N0NCE" 1000 (Some alice) ∅
              = (mkAuthResponse 200 (Some "N0NCE") None, accounts1))
    by (eexists; reflexivity).
  destruct H as (accounts1 & H1). exists accounts1. split; [exact H1 |].
  destruct (nonce_lives_five_minutes toy_wallet no_rejection "N0NCE" 1000 alice ∅ _ accounts1
              (alice +:+ "|" +:+ login_message "N0NCE") H1 eq_refl)
    as [Hlife _]; [discriminate | discriminate | vm_compute; reflexivity |].
  split; [apply (Hlife 301000) | apply (Hlife 301001)].
Defined.

(** ** The statistics of an inviter *)

Lemma status_partition (l : list Referral) :
  Z.of_nat (length l)
  = Z.of_nat (length (with_status_of ref_pending l))
    + Z.of_nat (length (with_status_of ref_verified l))
    + Z.of_nat (length (with_status_of ref_rewarded l))
    + Z.of_nat (length (with_status_of ref_rejected l)).
Proof.
  induction l as [| r l IH]; [reflexivity |].
  unfold with_status_of in *. simpl. destruct (status r); simpl; lia.
Qed.

Lemma with_status_of_absent st (l : list Referral) :
  ¬ In st (map status l) → with_status_of st l = [].
Proof.
  intros Hno. apply filter_none. intros r Hr. apply bool_decide_eq_false.
  intros Hst. apply Hno. apply in_map_iff. eauto.
Qed.

(** The statistics after the groups of the statuses [ks]. *)
Lemma fold_groups (mine : list Referral) (ks : list ReferralStatus) :
  NoDup ks →
  ∀ result,
    (∀ st, st ∈ ks → stats_of result st = 0) →
    let result' :=
      fold_left add_group
        (map (fun st => mkStatusGroup st (Z.of_nat (length (with_status_of st mine)))
                          (sum_of rewardDistributed_inviterXP (with_status_of st mine))) ks)
        result in
    (∀ st, stats_of result' st
           = if bool_decide (st ∈ ks) then Z.of_nat (length (with_status_of st mine))
             else stats_of result st) ∧
    stats_total result' - stats_total result
    = (stats_pending result' + stats_verified result' + stats_rewarded result'
       + stats_rejected result')
      - (stats_pending result + stats_verified result + stats_rewarded result
         + stats_rejected result) ∧
    stats_totalXPEarned result'
    = if bool_decide (ref_rewarded ∈ ks)
      then sum_of rewardDistributed_inviterXP (with_status_of ref_rewarded mine)
      else stats_totalXPEarned result.
Proof.
  induction 1 as [| k ks Hk Hnd IH]; intros result Hzero; simpl.
  - split; [intros st; reflexivity |]. split; [lia | reflexivity].
  - match goal with |- context [fold_left add_group _ (add_group result ?g)] =>
      specialize (IH (add_group result g)); set (r1 := add_group result g) in *
    end.
    destruct IH as (Hfields & Htotal & Hxp).
    { intros st Hst. assert (st ≠ k) by (intros ->; contradiction).
      subst r1. unfold add_group. simpl.
      rewrite <- (Hzero st (list_elem_of_further _ _ _ Hst)).
      destruct k, st; try reflexivity; congruence. }
    split; [| split].
    + intros st. rewrite Hfields.
      destruct (decide (st = k)) as [-> | Hne].
      * rewrite (bool_decide_eq_false_2 _ Hk), bool_decide_eq_true_2 by apply list_elem_of_here.
        subst r1. destruct k; reflexivity.
      * assert (Hiff : st ∈ ks ↔ st ∈ k :: ks) by (rewrite elem_of_cons; intuition congruence).
        rewrite (bool_decide_ext _ _ Hiff).
        destruct (bool_decide (st ∈ k :: ks)); [reflexivity |].
        subst r1. unfold add_group. simpl. destruct k, st; try reflexivity; congruence.
    + pose proof (Hzero k (list_elem_of_here _ _)) as Hk0.
      assert (Hstep : stats_total r1 - stats_total result
                      = (stats_pending r1 + stats_verified r1 + stats_rewarded r1
                         + stats_rejected r1)
                        - (stats_pending result + stats_verified result
                           + stats_rewarded result + stats_rejected result))
        by (subst r1; destruct k; simpl in *; lia).
      lia.
    + rewrite Hxp. destruct (decide (k = ref_rewarded)) as [-> | Hne].
      * rewrite (bool_decide_eq_false_2 _ Hk), bool_decide_eq_true_2 by apply list_elem_of_here.
        reflexivity.
      * assert (Hiff : ref_rewarded ∈ ks ↔ ref_rewarded ∈ k :: ks)
          by (rewrite elem_of_cons; intuition congruence).
        rewrite (bool_decide_ext _ _ Hiff).
        destruct (bool_decide (ref_rewarded ∈ k :: ks)); [reflexivity |].
        subst r1. destruct k; try reflexivity; congruence.
Qed.

(** X23.  The statistics of an inviter count what is stored.  Each of the
    four figures of [getReferralStats] is the number of the inviter's
    referrals with that status (0 for a status without referrals), [total]
    is the number of the inviter's referrals and the sum of the four figures,
    and [totalXPEarned] is the sum of the inviter rewards recorded on the
    rewarded referrals; referrals of other inviters are not counted. *)
Theorem getReferralStats_counts (uid : ObjectId) (l : list Referral) :
  let mine := List.filter (fun r => Nat.eqb (inviterUserId r) uid) l in
  let result := getReferralStats uid l in
  (∀ st, stats_of result st = Z.of_nat (length (with_status_of st mine))) ∧
  stats_total result = Z.of_nat (length mine) ∧
  stats_total result
  = stats_pending result + stats_verified result + stats_rewarded result
    + stats_rejected result ∧
  stats_totalXPEarned result
  = sum_of rewardDistributed_inviterXP (with_status_of ref_rewarded mine).
Proof.
  intros mine result.
  destruct (fold_groups mine (remove_dups (map status mine)) (NoDup_remove_dups _)
              (mkReferralStats 0 0 0 0 0 0)) as (Hfields & Htotal & Hxp).
  { intros st _. destruct st; reflexivity. }
  match type of Hxp with stats_totalXPEarned ?r = _ =>
    change r with result in Hfields, Htotal, Hxp
  end.
  assert (Habsent : ∀ st, st ∉ remove_dups (map status mine) → with_status_of st mine = []).
  { intros st Hin. apply with_status_of_absent. intros Hst. apply Hin.
    apply elem_of_remove_dups, list_elem_of_In, Hst. }
  assert (Hcount : ∀ st, stats_of result st = Z.of_nat (length (with_status_of st mine))).
  { intros st. rewrite Hfields. destruct (bool_decide (st ∈ _)) eqn:Hin; [reflexivity |].
    apply bool_decide_eq_false in Hin. rewrite (Habsent st Hin). destruct st; reflexivity. }
  assert (Hsum : stats_total result
                 = stats_pending result + stats_verified result + stats_rewarded result
                   + stats_rejected result) by (simpl in Htotal; lia).
  split; [exact Hcount |]. split; [| split; [exact Hsum |]].
  - rewrite Hsum, (status_partition mine).
    rewrite <- (Hcount ref_pending), <- (Hcount ref_verified), <- (Hcount ref_rewarded),
      <- (Hcount ref_rejected). reflexivity.
  - rewrite Hxp. destruct (bool_decide (ref_rewarded ∈ _)) eqn:Hin; [reflexivity |].
    apply bool_decide_eq_false in Hin. rewrite (Habsent _ Hin). reflexivity.
Qed.

(** The statistics of user 1 at the end of the worked day, and after the
    rewarded referral was rejected: the XP earned is no longer reported,
    although the balance keeps it. *)
Example referral_stats_after_rejection :
  getReferralStats 1%nat (referrals rewarded_store) = mkReferralStats 1 0 0 1 0 500 ∧
  getReferralStats 1%nat (map (fun r => with_referral_status r ref_rejected)
                              (referrals rewarded_store))
    = mkReferralStats 1 0 0 0 1 0.
Proof. split; vm_compute; reflexivity. Qed.
